(** * Blackijecky: the dealer server and the player client

    A shallow embedding of [dealer_server.py] and [player_client.py]:
    the binary packet codec built on Python's [struct] module, the card
    value mapping, the round engine [play_round], the session handler
    [handle_client] and the statistics aggregator
    [update_global_stats].

    Conventions.
    - Python [int] is [Z]; [bytes] is [list byte]; [str] is a list of
      Unicode code points ([pystr]).
    - Code that raises returns [Raise e]; the state reached so far is
      kept, as packets already handed to the socket stay sent.
    - [print] calls and the strings built only for them are left out.
    - The socket and [random] are an explicit environment inside the
      state: a script of chunks for [recv], a predicate telling which
      [send] succeeds, a stream of raw values for [random.randint]. *)

From Stdlib Require Import String Ascii.
From Stdlib Require Import Strings.Byte.
From Stdlib Require Import ZArith List Bool Lia Permutation.
Import ListNotations.
Local Open Scope Z_scope.

(* ================================================================== *)
(** ** Exceptions and results *)

Inductive exn : Type :=
| StructError          (* struct.error *)
| UnicodeDecodeError
| UnicodeEncodeError
| OSError              (* socket failures on the server side *)
| ConnectionError      (* raised by the client's safe_recv *)
| ValueError
| ZeroDivisionError.

(** [OutOfFuel] is not a Python outcome: it marks a loop of the model
    that was given too few iterations.  The loops below are started
    with enough of them, and [play_round_returns] shows it never
    appears. *)
Inductive res (A : Type) : Type :=
| Ok (a : A)
| Raise (e : exn)
| OutOfFuel.
Arguments Ok {A} a.
Arguments Raise {A} e.
Arguments OutOfFuel {A}.

Definition res_map {A B} (f : A -> B) (r : res A) : res B :=
  match r with
  | Ok a => Ok (f a)
  | Raise e => Raise e
  | OutOfFuel => OutOfFuel
  end.

Definition res_bind {A B} (r : res A) (f : A -> res B) : res B :=
  match r with
  | Ok a => f a
  | Raise e => Raise e
  | OutOfFuel => OutOfFuel
  end.

(* ================================================================== *)
(** ** Bytes *)

Definition byte_val (b : byte) : Z := Z.of_N (Byte.to_N b).

Definition to_byte (z : Z) : byte :=
  match Byte.of_N (Z.to_N (z mod 256)) with
  | Some b => b
  | None => x00
  end.

Definition bytes := list byte.

(** Big-endian encoding of [z] on [width] bytes. *)
Fixpoint be_bytes (width : nat) (z : Z) : bytes :=
  match width with
  | O => []
  | S w => to_byte (Z.shiftr z (8 * Z.of_nat w)) :: be_bytes w z
  end.

Definition be_value (bs : bytes) : Z :=
  fold_left (fun acc b => Z.lor (Z.shiftl acc 8) (byte_val b)) bs 0.

(* ================================================================== *)
(** ** Python's [struct] module, big-endian standard sizes ('>') *)

Module struct.

Inductive fmt : Type :=
| I            (* unsigned int, 4 bytes *)
| B            (* unsigned char, 1 byte *)
| H            (* unsigned short, 2 bytes *)
| s (n : nat). (* char[n] *)

Inductive val : Type :=
| VInt (z : Z)
| VBytes (bs : bytes).

Definition size (f : fmt) : nat :=
  match f with
  | I => 4
  | B => 1
  | H => 2
  | s n => n
  end.

Definition calcsize (fs : list fmt) : nat :=
  fold_right (fun f acc => (size f + acc)%nat) O fs.

(** An integer out of the range of its field raises [struct.error]. *)
Definition pack_int (width : nat) (z : Z) : res bytes :=
  if (0 <=? z) && (z <? 2 ^ (8 * Z.of_nat width))
  then Ok (be_bytes width z)
  else Raise StructError.

(** ['ns']: longer values are truncated, shorter ones padded with
    null bytes. *)
Definition pack_s (n : nat) (bs : bytes) : bytes :=
  firstn n bs ++ repeat x00 (n - length bs).

Definition pack_one (f : fmt) (v : val) : res bytes :=
  match f, v with
  | s n, VBytes bs => Ok (pack_s n bs)
  | s _, VInt _ => Raise StructError
  | _, VInt z => pack_int (size f) z
  | _, VBytes _ => Raise StructError
  end.

Fixpoint pack (fs : list fmt) (vs : list val) : res bytes :=
  match fs, vs with
  | [], [] => Ok []
  | f :: fs', v :: vs' =>
      res_bind (pack_one f v) (fun b =>
      res_map (app b) (pack fs' vs'))
  | _, _ => Raise StructError
  end.

Definition unpack_one (f : fmt) (field : bytes) : val :=
  match f with
  | s _ => VBytes field
  | _ => VInt (be_value field)
  end.

Fixpoint unpack_fields (fs : list fmt) (data : bytes) : list val :=
  match fs with
  | [] => []
  | f :: fs' =>
      unpack_one f (firstn (size f) data)
        :: unpack_fields fs' (skipn (size f) data)
  end.

(** [struct.unpack] requires a buffer of exactly [calcsize] bytes. *)
Definition unpack (fs : list fmt) (data : bytes) : res (list val) :=
  if Nat.eqb (length data) (calcsize fs)
  then Ok (unpack_fields fs data)
  else Raise StructError.

End struct.

(* ================================================================== *)
(** ** Python [str]: code points, UTF-8, [strip] *)

Definition pystr := list Z.

Definition lit (t : string) : pystr :=
  map (fun c => Z.of_nat (nat_of_ascii c)) (list_ascii_of_string t).

Definition pystr_eqb (a b : pystr) : bool :=
  if list_eq_dec Z.eq_dec a b then true else false.

Definition between (lo hi c : Z) : bool := (lo <=? c) && (c <=? hi).

Definition low6 (c : Z) : Z := Z.land c 0x3F.

(** [bytes.decode()]: strict UTF-8. *)
Fixpoint utf8_decode (bs : bytes) : res pystr :=
  match bs with
  | [] => Ok []
  | b0 :: r0 =>
      let c0 := byte_val b0 in
      if c0 <? 0x80 then res_map (cons c0) (utf8_decode r0)
      else if between 0xC2 0xDF c0 then
        match r0 with
        | b1 :: r1 =>
            let c1 := byte_val b1 in
            if between 0x80 0xBF c1
            then res_map
                   (cons (Z.lor (Z.shiftl (Z.land c0 0x1F) 6) (low6 c1)))
                   (utf8_decode r1)
            else Raise UnicodeDecodeError
        | _ => Raise UnicodeDecodeError
        end
      else if between 0xE0 0xEF c0 then
        match r0 with
        | b1 :: b2 :: r2 =>
            let c1 := byte_val b1 in
            let c2 := byte_val b2 in
            let lo1 := if c0 =? 0xE0 then 0xA0 else 0x80 in
            let hi1 := if c0 =? 0xED then 0x9F else 0xBF in
            if between lo1 hi1 c1 && between 0x80 0xBF c2
            then res_map
                   (cons (Z.lor (Z.shiftl (Z.land c0 0x0F) 12)
                            (Z.lor (Z.shiftl (low6 c1) 6) (low6 c2))))
                   (utf8_decode r2)
            else Raise UnicodeDecodeError
        | _ => Raise UnicodeDecodeError
        end
      else if between 0xF0 0xF4 c0 then
        match r0 with
        | b1 :: b2 :: b3 :: r3 =>
            let c1 := byte_val b1 in
            let c2 := byte_val b2 in
            let c3 := byte_val b3 in
            let lo1 := if c0 =? 0xF0 then 0x90 else 0x80 in
            let hi1 := if c0 =? 0xF4 then 0x8F else 0xBF in
            if between lo1 hi1 c1 && between 0x80 0xBF c2
               && between 0x80 0xBF c3
            then res_map
                   (cons (Z.lor (Z.shiftl (Z.land c0 0x07) 18)
                            (Z.lor (Z.shiftl (low6 c1) 12)
                               (Z.lor (Z.shiftl (low6 c2) 6) (low6 c3)))))
                   (utf8_decode r3)
            else Raise UnicodeDecodeError
        | _ => Raise UnicodeDecodeError
        end
      else Raise UnicodeDecodeError
  end.

(** [str.encode()]: UTF-8; a surrogate or a value that is no code
    point raises [UnicodeEncodeError]. *)
Definition cont6 (c : Z) : byte := to_byte (Z.lor 0x80 (low6 c)).

Fixpoint utf8_encode (t : pystr) : res bytes :=
  match t with
  | [] => Ok []
  | c :: r =>
      if between 0 0x7F c then
        res_map (cons (to_byte c)) (utf8_encode r)
      else if between 0x80 0x7FF c then
        res_map (app [to_byte (Z.lor 0xC0 (Z.shiftr c 6)); cont6 c])
          (utf8_encode r)
      else if between 0x800 0xD7FF c || between 0xE000 0xFFFF c then
        res_map (app [to_byte (Z.lor 0xE0 (Z.shiftr c 12));
                      cont6 (Z.shiftr c 6); cont6 c])
          (utf8_encode r)
      else if between 0x10000 0x10FFFF c then
        res_map (app [to_byte (Z.lor 0xF0 (Z.shiftr c 18));
                      cont6 (Z.shiftr c 12); cont6 (Z.shiftr c 6); cont6 c])
          (utf8_encode r)
      else Raise UnicodeEncodeError
  end.

(** The characters [str.strip()] removes: Unicode white space. *)
Definition is_space (c : Z) : bool :=
  between 0x09 0x0D c || between 0x1C 0x20 c || (c =? 0x85) || (c =? 0xA0)
  || (c =? 0x1680) || between 0x2000 0x200A c || (c =? 0x2028)
  || (c =? 0x2029) || (c =? 0x202F) || (c =? 0x205F) || (c =? 0x3000).

Definition is_nul (c : Z) : bool := c =? 0.

Fixpoint lstrip (p : Z -> bool) (t : pystr) : pystr :=
  match t with
  | [] => []
  | c :: r => if p c then lstrip p r else t
  end.

Definition rstrip (p : Z -> bool) (t : pystr) : pystr :=
  rev (lstrip p (rev t)).

Definition strip (p : Z -> bool) (t : pystr) : pystr :=
  rstrip p (lstrip p t).

(** [str.ljust(n)] pads with spaces; [bytes.ljust(n)] pads with b' '. *)
Definition str_ljust (n : nat) (t : pystr) : pystr :=
  t ++ repeat 0x20 (n - length t).

Definition bytes_ljust (n : nat) (bs : bytes) : bytes :=
  bs ++ repeat x20 (n - length bs).

(* ================================================================== *)
(** ** The environment: one connection, the random source, the
       server's counters *)

(** What one [recv] finds: bytes that arrived (none at all when the
    peer has closed), or a socket error. *)
Inductive chunk : Type :=
| Data (bs : bytes)
| Fails.

(** The I/O performed on the connection, oldest first. *)
Inductive io_event : Type :=
| Recv (data : bytes)
| Send (packet : bytes)
| Close.

Record state : Type := mkState {
  inbox : list chunk;        (* what the coming recv calls find *)
  send_ok : nat -> bool;     (* does the n-th send (from 0) succeed *)
  log : list io_event;
  entropy : nat -> Z;        (* raw values behind random.randint *)
  drawn : nat;               (* randint calls made so far *)
  total_wins : Z;
  total_losses : Z;
  total_ties : Z
}.

Definition M (A : Type) : Type := state -> res A * state.

Definition ret {A} (a : A) : M A := fun st => (Ok a, st).

Definition raise {A} (e : exn) : M A := fun st => (Raise e, st).

Definition out_of_fuel {A} : M A := fun st => (OutOfFuel, st).

Definition bind {A B} (m : M A) (k : A -> M B) : M B :=
  fun st =>
    match m st with
    | (Ok a, st') => k a st'
    | (Raise e, st') => (Raise e, st')
    | (OutOfFuel, st') => (OutOfFuel, st')
    end.

Definition lift {A} (r : res A) : M A := fun st => (r, st).

Notation "x <- m ;; k" := (bind m (fun x => k))
  (at level 61, m at next level, right associativity).
Notation "' p <- m ;; k" := (bind m (fun x => match x with p => k end))
  (at level 61, p pattern, m at next level, right associativity).
Notation "m ;;; k" := (bind m (fun _ => k))
  (at level 61, right associativity).

Definition with_inbox (i : list chunk) (st : state) : state :=
  mkState i (send_ok st) (log st) (entropy st) (drawn st)
    (total_wins st) (total_losses st) (total_ties st).

Definition log_event (e : io_event) (st : state) : state :=
  mkState (inbox st) (send_ok st) (log st ++ [e]) (entropy st) (drawn st)
    (total_wins st) (total_losses st) (total_ties st).

Definition with_drawn (n : nat) (st : state) : state :=
  mkState (inbox st) (send_ok st) (log st) (entropy st) n
    (total_wins st) (total_losses st) (total_ties st).

Definition with_stats (w l t : Z) (st : state) : state :=
  mkState (inbox st) (send_ok st) (log st) (entropy st) (drawn st) w l t.

Definition sends_of (evs : list io_event) : list bytes :=
  flat_map (fun e => match e with Send p => [p] | _ => [] end) evs.

Definition recvs_of (evs : list io_event) : list bytes :=
  flat_map (fun e => match e with Recv d => [d] | _ => [] end) evs.

(** The packets sent so far, oldest first. *)
Definition sent (st : state) : list bytes := sends_of (log st).

(** The data the [recv] calls returned so far, oldest first. *)
Definition received (st : state) : list bytes := recvs_of (log st).

(** [conn.recv(bufsize)]: at most [bufsize] bytes of what has arrived;
    what does not fit stays for the next call.  An exhausted script is
    a peer that has closed: [recv] returns [b'']. *)
Definition recv (bufsize : nat) : M bytes := fun st =>
  match inbox st with
  | [] => (Ok [], log_event (Recv []) st)
  | Fails :: rest => (Raise OSError, with_inbox rest st)
  | Data bs :: rest =>
      if Nat.leb (length bs) bufsize
      then (Ok bs, log_event (Recv bs) (with_inbox rest st))
      else (Ok (firstn bufsize bs),
            log_event (Recv (firstn bufsize bs))
              (with_inbox (Data (skipn bufsize bs) :: rest) st))
  end.

(** [conn.send(packet)]; the packets here are 9 bytes long and are
    taken to go out whole when the call succeeds. *)
Definition send (packet : bytes) : M unit := fun st =>
  if send_ok st (length (sent st))
  then (Ok tt, log_event (Send packet) st)
  else (Raise OSError, st).

Definition close : M unit := fun st => (Ok tt, log_event Close st).

(** [random.randint(a, b)]: an integer in [a..b], taken from the next
    raw value of the source. *)
Definition randint (a b : Z) : M Z := fun st =>
  (Ok (a + entropy st (drawn st) mod (b - a + 1)),
   with_drawn (S (drawn st)) st).

(* ================================================================== *)
(** ** dealer_server.py *)

(** The format strings of the protocol. *)
Definition fmt_IBH32s : list struct.fmt :=      (* '>IBH32s' *)
  [struct.I; struct.B; struct.H; struct.s 32].
Definition fmt_IBB32s : list struct.fmt :=      (* '>IBB32s' *)
  [struct.I; struct.B; struct.B; struct.s 32].
Definition fmt_IB5s : list struct.fmt :=        (* '>IB5s' *)
  [struct.I; struct.B; struct.s 5].
Definition fmt_IBB3B : list struct.fmt :=       (* '>IBB3B' *)
  [struct.I; struct.B; struct.B; struct.B; struct.B; struct.B].

Abbreviation VInt := struct.VInt.
Abbreviation VBytes := struct.VBytes.

Definition MAGIC_COOKIE : Z := 0xabcddcba.
Definition UDP_PORT : Z := 13122.
Definition OFFER_TYPE : Z := 0x2.
Definition REQUEST_TYPE : Z := 0x3.
Definition PAYLOAD_TYPE : Z := 0x4.

Definition SERVER_NAME : pystr :=
  firstn 32 (str_ljust 32 (lit "Nadav's Rocking Casino")).

(** The packet built in [broadcast_offers]:
    [struct.pack('>IBH32s', MAGIC_COOKIE, OFFER_TYPE, tcp_port, name)],
    where the server passes [SERVER_NAME.encode()] as [name]. *)
Definition offer_packet (tcp_port : Z) (name : bytes) : res bytes :=
  struct.pack fmt_IBH32s
    [VInt MAGIC_COOKIE; VInt OFFER_TYPE; VInt tcp_port; VBytes name].

Definition broadcast_packet (tcp_port : Z) : res bytes :=
  res_bind (utf8_encode SERVER_NAME) (offer_packet tcp_port).

Definition deal_card : M (Z * Z * Z) :=
  rank <- randint 1 13 ;;
  suit <- randint 0 3 ;;
  let value :=
    if rank =? 1 then 11
    else if rank >=? 11 then 10
    else rank in
  ret (rank, suit, value).

(** One counter moves, then the win rate is computed for the report:
    the true division raises on a zero total.  The lock makes the body
    atomic; sessions are interleaved at this grain. *)
Definition update_global_stats (result : Z) : M unit := fun st =>
  let st1 :=
    if result =? 0x3
    then with_stats (total_wins st) (total_losses st + 1) (total_ties st) st
    else if result =? 0x2
    then with_stats (total_wins st + 1) (total_losses st) (total_ties st) st
    else with_stats (total_wins st) (total_losses st) (total_ties st + 1) st
  in
  let total_games := total_wins st1 + total_losses st1 + total_ties st1 in
  if total_games =? 0
  then (Raise ZeroDivisionError, st1)
  else (Ok tt, st1).

Definition payload_packet (result rank suit : Z) : res bytes :=
  let rank_h := Z.land (Z.shiftr rank 8) 0xFF in
  let rank_l := Z.land rank 0xFF in
  struct.pack fmt_IBB3B
    [VInt MAGIC_COOKIE; VInt PAYLOAD_TYPE; VInt result;
     VInt rank_h; VInt rank_l; VInt suit].

Definition send_payload (result rank suit : Z) : M unit :=
  packet <- lift (payload_packet result rank suit) ;;
  send packet.

(** Lines 107-108 of [play_round]: the cookie and the type are
    unpacked and dropped. *)
Definition decode_decision (data : bytes) : res pystr :=
  res_bind (struct.unpack fmt_IB5s data) (fun fields =>
  match fields with
  | [_; _; VBytes decision_bytes] =>
      res_map (fun t => strip is_space (strip is_nul t))
        (utf8_decode decision_bytes)
  | _ => Raise StructError
  end).

(** Initial deal: returns [player_sum], [dealer_sum] and the dealer's
    second card, which stays hidden for now. *)
Definition initial_deal : M (Z * Z * (Z * Z)) :=
  ' (p_c1_r, p_c1_s, p_c1_v) <- deal_card ;;
  ' (p_c2_r, p_c2_s, p_c2_v) <- deal_card ;;
  ' (d_c1_r, d_c1_s, d_c1_v) <- deal_card ;;
  ' (d_c2_r, d_c2_s, d_c2_v) <- deal_card ;;
  let player_sum := p_c1_v + p_c2_v in
  let dealer_sum := d_c1_v + d_c2_v in
  send_payload 0x0 p_c1_r p_c1_s ;;;
  send_payload 0x0 p_c2_r p_c2_s ;;;
  send_payload 0x0 d_c1_r d_c1_s ;;;
  ret (player_sum, dealer_sum, (d_c2_r, d_c2_s)).

(** [while player_sum <= 21: ...]; returns [player_sum] at the exit. *)
Fixpoint player_loop (fuel : nat) (player_sum : Z) : M Z :=
  if player_sum <=? 21 then
    match fuel with
    | O => out_of_fuel
    | S fuel' =>
        data <- recv 1024 ;;
        match data with
        | [] => ret player_sum
        | _ =>
            decision <- lift (decode_decision data) ;;
            if pystr_eqb decision (lit "Hittt") then
              ' (r, s, v) <- deal_card ;;
              let player_sum := player_sum + v in
              send_payload 0x0 r s ;;;
              player_loop fuel' player_sum
            else ret player_sum
        end
    end
  else ret player_sum.

(** Every hit adds at least 2, so [22 - player_sum] iterations are
    enough. *)
Definition player_phase (player_sum : Z) : M Z :=
  player_loop (Z.to_nat (22 - player_sum)) player_sum.

(** [while dealer_sum < 17: ...]; returns [dealer_sum] at the exit. *)
Fixpoint dealer_loop (fuel : nat) (dealer_sum : Z) : M Z :=
  if dealer_sum <? 17 then
    match fuel with
    | O => out_of_fuel
    | S fuel' =>
        ' (r, s, v) <- deal_card ;;
        let dealer_sum := dealer_sum + v in
        send_payload 0x0 r s ;;;
        dealer_loop fuel' dealer_sum
    end
  else ret dealer_sum.

Definition dealer_phase (player_sum dealer_sum : Z) : M Z :=
  if player_sum <=? 21
  then dealer_loop (Z.to_nat (17 - dealer_sum)) dealer_sum
  else ret dealer_sum.

Definition decide_outcome (player_sum dealer_sum : Z) : Z :=
  if player_sum >? 21 then 0x2
  else if dealer_sum >? 21 then 0x3
  else if player_sum >? dealer_sum then 0x3
  else if dealer_sum >? player_sum then 0x2
  else 0x1.

(** Lines 90-129: everything before the outcome is decided; returns
    the two totals the decision reads. *)
Definition play_to_totals : M (Z * Z) :=
  ' (player_sum, dealer_sum, (d_c2_r, d_c2_s)) <- initial_deal ;;
  player_sum <- player_phase player_sum ;;
  send_payload 0x0 d_c2_r d_c2_s ;;;
  dealer_sum <- dealer_phase player_sum dealer_sum ;;
  ret (player_sum, dealer_sum).

Definition play_round : M Z :=
  ' (player_sum, dealer_sum) <- play_to_totals ;;
  let result := decide_outcome player_sum dealer_sum in
  send_payload result 0 0 ;;;
  ret result.

(** Lines 68-71 of [handle_client]: [None] is the early [return]. *)
Definition parse_request (data : bytes) : res (option (Z * bytes)) :=
  match data with
  | [] => Ok None
  | _ =>
      if Nat.ltb (length data) 38 then Ok None
      else
        res_bind (struct.unpack fmt_IBB32s (firstn 38 data)) (fun fields =>
        match fields with
        | [VInt cookie; VInt msg_type; VInt rounds; VBytes team_name] =>
            if negb (cookie =? MAGIC_COOKIE)
               || negb (msg_type =? REQUEST_TYPE)
            then Ok None
            else Ok (Some (rounds, team_name))
        | _ => Raise StructError
        end)
  end.

(** [for r_idx in range(rounds): ...] *)
Fixpoint rounds_loop (rounds : nat) : M unit :=
  match rounds with
  | O => ret tt
  | S k =>
      result <- play_round ;;
      update_global_stats result ;;;
      rounds_loop k
  end.

Definition handle_client_try : M unit :=
  data <- recv 1024 ;;
  request <- lift (parse_request data) ;;
  match request with
  | None => ret tt
  | Some (rounds, team_name) => rounds_loop (Z.to_nat rounds)
  end.

(** [try: ... except Exception: ... finally: conn.close()] *)
Definition handle_client : M unit := fun st =>
  match handle_client_try st with
  | (Ok _, st') => close st'
  | (Raise _, st') => close st'
  | (OutOfFuel, st') => (OutOfFuel, st')
  end.

(* ================================================================== *)
(** ** player_client.py *)

Module client.

Definition TEAM_NAME : pystr :=
  firstn 32 (str_ljust 32 (lit "Diagonal Shooters")).

(** Lines 40-43 of [start_client]: [None] is the [continue] that
    drops the datagram; otherwise the port and the name. *)
Definition parse_offer (data : bytes) : res (option (Z * bytes)) :=
  if Nat.ltb (length data) 39 then Ok None
  else
    res_bind (struct.unpack fmt_IBH32s (firstn 39 data)) (fun fields =>
    match fields with
    | [VInt cookie; VInt msg_type; VInt tcp_port; VBytes server_name] =>
        if negb (cookie =? MAGIC_COOKIE) || negb (msg_type =? 0x2)
        then Ok None
        else Ok (Some (tcp_port, server_name))
    | _ => Raise StructError
    end).

(** Line 66: [struct.pack('>IBB32s', MAGIC_COOKIE, 0x3, num_rounds,
    name)], where the client passes [TEAM_NAME.encode()] as [name]. *)
Definition request_packet (num_rounds : Z) (name : bytes) : res bytes :=
  struct.pack fmt_IBB32s
    [VInt MAGIC_COOKIE; VInt 0x3; VInt num_rounds; VBytes name].

Definition session_request (num_rounds : Z) : res bytes :=
  res_bind (utf8_encode TEAM_NAME) (request_packet num_rounds).

(** Lines 118-119 of [play_round]. *)
Definition decision_of_choice (choice : pystr) : pystr :=
  if pystr_eqb choice (lit "h") then lit "Hittt" else lit "Stand".

Definition decision_packet (decision : pystr) : res bytes :=
  res_bind (utf8_encode decision) (fun encoded =>
  struct.pack fmt_IB5s
    [VInt MAGIC_COOKIE; VInt 0x4; VBytes (bytes_ljust 5 encoded)]).

(** The [try] block of [safe_recv]. *)
Definition safe_recv_try : M (Z * Z * Z) :=
  data <- recv 9 ;;
  if Nat.ltb (length data) 9 then raise ConnectionError
  else
    fields <- lift (struct.unpack fmt_IBB3B data) ;;
    match fields with
    | [VInt cookie; VInt msg_type; VInt res; VInt r_h; VInt r_l; VInt suit] =>
        if negb (cookie =? MAGIC_COOKIE) then raise ValueError
        else ret (res, Z.lor (Z.shiftl r_h 8) r_l, suit)
    | _ => raise StructError
    end.

(** [except Exception: return 0, 0, 0] *)
Definition safe_recv : M (Z * Z * Z) := fun st =>
  match safe_recv_try st with
  | (Raise _, st') => (Ok (0, 0, 0), st')
  | other => other
  end.

Definition calculate_points (hand : list (Z * Z)) : Z :=
  fold_left
    (fun total card =>
       let r := fst card in
       if r =? 1 then total + 11
       else if r >=? 11 then total + 10
       else total + r)
    hand 0.

End client.

(* ================================================================== *)
(** ** Vocabulary of the statements *)

(** The value of a card as the specification words it: rank 1 counts
    11, ranks from 11 up count 10, every other rank counts itself. *)
Definition card_value (r : Z) : Z :=
  if r =? 1 then 11 else if 11 <=? r then 10 else r.

Definition hand_value (hand : list (Z * Z)) : Z :=
  fold_right (fun card acc => card_value (fst card) + acc) 0 hand.

(** The bytes of a Round-Payload packet. *)
Definition payload_bytes (result rank suit : Z) : bytes :=
  be_bytes 4 MAGIC_COOKIE
    ++ [to_byte PAYLOAD_TYPE; to_byte result;
        to_byte (Z.land (Z.shiftr rank 8) 0xFF);
        to_byte (Z.land rank 0xFF); to_byte suit].

Definition card_packet (card : Z * Z) : bytes :=
  payload_bytes 0 (fst card) (snd card).

Definition valid_card (card : Z * Z) : Prop :=
  1 <= fst card <= 13 /\ 0 <= snd card <= 3.

(** The card [deal_card] produces when [pos] raw values are used up. *)
Definition card_at (e : nat -> Z) (pos : nat) : Z * Z :=
  (1 + e pos mod 13, e (S pos) mod 4).

(** The next [k] cards of the source. *)
Fixpoint cards_from (e : nat -> Z) (pos : nat) (k : nat) : list (Z * Z) :=
  match k with
  | O => []
  | S k' => card_at e pos :: cards_from e (S (S pos)) k'
  end.

(** Every [send] on the connection succeeds. *)
Definition reliable (st : state) : Prop :=
  forall n, send_ok st n = true.

(** [st] after more I/O and more draws: the inbox is [i], the events
    [evs] were appended and [n] more raw values were used. *)
Definition advance (st : state) (i : list chunk) (evs : list io_event)
    (n : nat) : state :=
  mkState i (send_ok st) (log st ++ evs) (entropy st) (n + drawn st)
    (total_wins st) (total_losses st) (total_ties st).

Definition total_games (st : state) : Z :=
  total_wins st + total_losses st + total_ties st.

(** A fresh server facing a connection: the peer's chunks, sends that
    all succeed, a source that yields the listed raw values and then
    zeros. *)
Definition fresh (i : list chunk) (raw : list Z) : state :=
  mkState i (fun _ => true) [] (fun n => nth n raw 0) 0 0 0 0.

Definition hit_packet : bytes :=
  be_bytes 4 MAGIC_COOKIE ++ [x04; "H"; "i"; "t"; "t"; "t"]%byte.

Definition stand_packet : bytes :=
  be_bytes 4 MAGIC_COOKIE ++ [x04; "S"; "t"; "a"; "n"; "d"]%byte.

(** The events of sending the given cards, in order. *)
Definition card_sends (cards : list (Z * Z)) : list io_event :=
  map (fun c => Send (card_packet c)) cards.

(** Events of a round before its outcome: reads, and sends of cards. *)
Definition card_event (e : io_event) : Prop :=
  match e with
  | Recv _ => True
  | Send p => exists c, valid_card c /\ p = card_packet c
  | Close => False
  end.

Definition card_traffic (evs : list io_event) : Prop :=
  Forall card_event evs.

(** The outcome code a Round-Payload packet carries: its sixth byte. *)
Definition outcome_code (packet : bytes) : Z :=
  byte_val (nth 5 packet x00).

(** The [k]-th card (from 0) that will be dealt from [st]. *)
Definition dealt (st : state) (k : nat) : Z * Z :=
  card_at (entropy st) (2 * k + drawn st).

(** Scripted tables.  A raw value [v] gives rank [1 + v mod 13] and
    suit [v mod 4]; the source yields 0 once the list is used up.

    [stand_table]: player 10 and 9, dealer 10 and 8; the player stands. *)
Definition stand_table : state :=
  fresh [Data stand_packet] [9; 0; 8; 1; 9; 2; 7; 3].

(** [bust_table]: player 10 and 9, dealer 10 and 8; the player hits,
    draws a 5, and a second decision is already waiting. *)
Definition bust_table : state :=
  fresh [Data hit_packet; Data stand_packet] [9; 0; 8; 1; 9; 2; 7; 3; 4; 0].

(** [draw_table]: player 10 and 9, dealer 10 and 2; the player stands,
    the dealer then draws a 3 and a 4 and ties at 19. *)
Definition draw_table : state :=
  fresh [Data stand_packet] [9; 0; 8; 1; 9; 2; 1; 3; 2; 0; 3; 1].

(** What [struct.unpack] gives back for a packed value: integers as
    they are, byte strings cut or null-padded to their field. *)
Definition struct_canon (f : struct.fmt) (v : struct.val) : struct.val :=
  match f, v with
  | struct.s n, VBytes bs => VBytes (struct.pack_s n bs)
  | _, _ => v
  end.

Fixpoint struct_canon_all (fs : list struct.fmt) (vs : list struct.val)
  : list struct.val :=
  match fs, vs with
  | f :: fs', v :: vs' => struct_canon f v :: struct_canon_all fs' vs'
  | _, _ => []
  end.

(** A Decision packet whose cookie is zero. *)
Definition forged_hit : bytes :=
  [x00; x00; x00; x00; x04; "H"; "i"; "t"; "t"; "t"]%byte.

(** [forged_table]: player 10 and 9, dealer 10 and 8; the forged hit
    arrives, then a stand; the card after the deal is a 2. *)
Definition forged_table : state :=
  fresh [Data forged_hit; Data stand_packet] [9; 0; 8; 1; 9; 2; 7; 3; 1; 0].

(** [SERVER_NAME.encode()] and [TEAM_NAME.encode()]. *)
Definition server_name_bytes : bytes :=
  match utf8_encode SERVER_NAME with Ok b => b | _ => [] end.

Definition team_name_bytes : bytes :=
  match utf8_encode client.TEAM_NAME with Ok b => b | _ => [] end.


(** The client's Request for [n] rounds, as bytes. *)
Definition request_bytes (n : Z) : bytes :=
  match client.session_request n with Ok b => b | _ => [] end.

(** [silent_session]: the peer asks for one round and closes without
    answering; player 10 and 9, dealer 10 and 8. *)
Definition silent_session : state :=
  fresh [Data (request_bytes 1)] [9; 0; 8; 1; 9; 2; 7; 3].

(** The counters never go below zero: they start at 0 and only grow. *)
Definition stats_ok (st : state) : Prop :=
  0 <= total_wins st /\ 0 <= total_losses st /\ 0 <= total_ties st.

(** A buffer the server takes as a Request: long enough, the cookie
    first, then the type byte 3. *)
Definition request_ok (data : bytes) : Prop :=
  (38 <= length data)%nat
  /\ firstn 4 data = [xab; xcd; xdc; xba]
  /\ nth 4 data x00 = x03.

(** A datagram the client takes as an Offer. *)
Definition offer_ok (data : bytes) : Prop :=
  (39 <= length data)%nat
  /\ firstn 4 data = [xab; xcd; xdc; xba]
  /\ nth 4 data x00 = x02.

(** What [recv(9)] must bring for [safe_recv] to read a payload. *)
Definition payload_ok (data : bytes) : Prop :=
  length data = 9%nat /\ firstn 4 data = [xab; xcd; xdc; xba].



(* ================================================================== *)
(** ** player_client.py: one round on the player's side *)

Module player.

(** The [stats] dictionary of a session, one field per key; the start
    time is only used for the printed duration and is left out. *)
Record stats : Type := mkStats {
  wins : Z;
  losses : Z;
  ties : Z;
  total_hits : Z;
  busts : Z;
  aces_drawn : Z;
  dealer_busts : Z
}.

(** The player's side: its socket, the lines still to be typed at the
    prompt (each as [input(...).lower().strip()] returns it), and the
    statistics. *)
Record pstate : Type := mkP {
  sock : state;
  typed : list pystr;
  stats_of : stats
}.

Definition P (A : Type) : Type := pstate -> res A * pstate.

Definition pret {A} (a : A) : P A := fun ps => (Ok a, ps).

Definition pbind {A B} (m : P A) (k : A -> P B) : P B :=
  fun ps =>
    match m ps with
    | (Ok a, ps') => k a ps'
    | (Raise e, ps') => (Raise e, ps')
    | (OutOfFuel, ps') => (OutOfFuel, ps')
    end.

Notation "x <~ m ;; k" := (pbind m (fun x => k))
  (at level 61, m at next level, right associativity).
Notation "' p <~ m ;; k" := (pbind m (fun x => match x with p => k end))
  (at level 61, p pattern, m at next level, right associativity).
Notation "m ~;; k" := (pbind m (fun _ => k))
  (at level 61, right associativity).

(** An operation of the socket, run on the player's socket. *)
Definition on_sock {A} (m : M A) : P A := fun ps =>
  let (r, s) := m (sock ps) in (r, mkP s (typed ps) (stats_of ps)).

Definition plift {A} (r : res A) : P A := fun ps => (r, ps).

Definition update (f : stats -> stats) : P unit := fun ps =>
  (Ok tt, mkP (sock ps) (typed ps) (f (stats_of ps))).

Definition add_win (s : stats) : stats :=
  mkStats (wins s + 1) (losses s) (ties s) (total_hits s) (busts s)
    (aces_drawn s) (dealer_busts s).
Definition add_loss (s : stats) : stats :=
  mkStats (wins s) (losses s + 1) (ties s) (total_hits s) (busts s)
    (aces_drawn s) (dealer_busts s).
Definition add_tie (s : stats) : stats :=
  mkStats (wins s) (losses s) (ties s + 1) (total_hits s) (busts s)
    (aces_drawn s) (dealer_busts s).
Definition add_hit (s : stats) : stats :=
  mkStats (wins s) (losses s) (ties s) (total_hits s + 1) (busts s)
    (aces_drawn s) (dealer_busts s).
Definition add_bust (s : stats) : stats :=
  mkStats (wins s) (losses s) (ties s) (total_hits s) (busts s + 1)
    (aces_drawn s) (dealer_busts s).
Definition add_ace (s : stats) : stats :=
  mkStats (wins s) (losses s) (ties s) (total_hits s) (busts s)
    (aces_drawn s + 1) (dealer_busts s).
Definition add_dealer_bust (s : stats) : stats :=
  mkStats (wins s) (losses s) (ties s) (total_hits s) (busts s)
    (aces_drawn s) (dealer_busts s + 1).

(** Lines 111-115: lines are read until one is 'h' or 's'.  When the
    typed lines run out the program is waiting at the prompt: the
    model stops there with [OutOfFuel]. *)
Fixpoint ask (lines : list pystr) : res pystr * list pystr :=
  match lines with
  | [] => (OutOfFuel, [])
  | choice :: rest =>
      if pystr_eqb choice (lit "h") || pystr_eqb choice (lit "s")
      then (Ok choice, rest)
      else ask rest
  end.

Definition read_choice : P pystr := fun ps =>
  let (r, rest) := ask (typed ps) in (r, mkP (sock ps) rest (stats_of ps)).

(** [if rank == 1: stats["aces_drawn"] += 1] *)
Definition count_ace (rank : Z) : P unit :=
  if rank =? 1 then update add_ace else pret tt.

(** Step B, [while True: ...]; returns [player_hand] at the exit. *)
Fixpoint player_turn (fuel : nat) (player_hand : list (Z * Z))
  : P (list (Z * Z)) :=
  let p_sum := client.calculate_points player_hand in
  if p_sum >? 21 then
    update add_bust ~;; pret player_hand
  else
    match fuel with
    | O => fun ps => (OutOfFuel, ps)
    | S fuel' =>
        choice <~ read_choice ;;
        let decision := client.decision_of_choice choice in
        packet <~ plift (client.decision_packet decision) ;;
        on_sock (send packet) ~;;
        if pystr_eqb decision (lit "Stand") then pret player_hand
        else
          update add_hit ~;;
          ' (res, rank, suit) <~ on_sock client.safe_recv ;;
          count_ace rank ~;;
          player_turn fuel' (player_hand ++ [(rank, suit)])
    end.

(** Step C, [while True: ...]; returns the first nonzero result. *)
Fixpoint dealer_turn (fuel : nat) (dealer_hand : list (Z * Z)) : P Z :=
  match fuel with
  | O => fun ps => (OutOfFuel, ps)
  | S fuel' =>
      ' (res, rank, suit) <~ on_sock client.safe_recv ;;
      dealer_hand <~
        (if negb (rank =? 0) then
           let dealer_hand := dealer_hand ++ [(rank, suit)] in
           (if client.calculate_points [(rank, suit)] >? 21
            then update add_dealer_bust else pret tt) ~;;
           pret dealer_hand
         else pret dealer_hand) ;;
      if negb (res =? 0) then pret res
      else dealer_turn fuel' dealer_hand
  end.

(** [play_round(sock, stats)]; [fuel] bounds the turns of each of its
    two loops. *)
Definition play_round (fuel : nat) : P Z :=
  ' (res1, rank1, suit1) <~ on_sock client.safe_recv ;;
  count_ace rank1 ~;;
  ' (res2, rank2, suit2) <~ on_sock client.safe_recv ;;
  count_ace rank2 ~;;
  ' (res3, rank3, suit3) <~ on_sock client.safe_recv ;;
  player_hand <~ player_turn fuel [(rank1, suit1); (rank2, suit2)] ;;
  dealer_turn fuel [(rank3, suit3)].

(** Lines 69-74 of [start_client]. *)
Fixpoint session_rounds (fuel : nat) (num_rounds : nat) : P unit :=
  match num_rounds with
  | O => pret tt
  | S k =>
      result <~ play_round fuel ;;
      update (if result =? 0x3 then add_win
              else if result =? 0x2 then add_loss
              else add_tie) ~;;
      session_rounds fuel k
  end.

End player.

(** The keys a player types for a list of choices ([true] is a hit),
    and the Decision packets they become. *)
Definition keys_of (choices : list bool) : list pystr :=
  map (fun hit : bool => if hit then lit "h" else lit "s") choices.

Definition decisions_of (choices : list bool) : list bytes :=
  map (fun hit : bool => if hit then hit_packet else stand_packet) choices.

(** A player at the start of a round: what the server will have sent,
    one packet per read, the lines to be typed, sends that succeed. *)
Definition seated (packets : list bytes) (lines : list pystr)
    (s : player.stats) : player.pstate :=
  player.mkP (fresh (map Data packets) []) lines s.

Definition no_stats : player.stats := player.mkStats 0 0 0 0 0 0 0.

(** An operation of the player that leaves the dealer-bust counter as
    it found it. *)
Definition keeps_dealer_busts {A} (m : player.P A) : Prop :=
  forall ps,
    player.dealer_busts (player.stats_of (snd (m ps)))
    = player.dealer_busts (player.stats_of ps).

(** The player's turn replayed on the player's side: the player loop
    of the server produced the events [evs] for the choices [choices],
    leaving [left] unread, and took the total from [total] to
    [total']; the player's Step B, fed the packets of [evs], sends the
    Decisions the server read and ends with a hand of the same
    total. *)
Definition turn_replayed (choices left : list bool) (evs : list io_event)
    (total total' : Z) : Prop :=
  forall fuel hand stats s tail,
    client.calculate_points hand = total ->
    reliable s ->
    inbox s = map Data (sends_of evs) ++ tail ->
    (length (recvs_of evs) <= fuel)%nat ->
    exists hand' stats' s',
      player.player_turn fuel hand (player.mkP s (keys_of choices) stats)
      = (Ok hand', player.mkP s' (keys_of left) stats')
      /\ client.calculate_points hand' = total'
      /\ reliable s'
      /\ inbox s' = tail
      /\ sent s' = sent s ++ recvs_of evs.

(** The rounds a player's scoreboard accounts for, and a computation
    that leaves a reading [f] of the scoreboard as it was. *)
Definition rounds_counted (s : player.stats) : Z :=
  player.wins s + player.losses s + player.ties s.

Definition unchanged (f : player.stats -> Z) {A} (m : player.P A) : Prop :=
  forall ps, f (player.stats_of (snd (m ps))) = f (player.stats_of ps).

(** A reading of the scoreboard that the counters of a round (busts,
    hits, aces) do not enter. *)
Definition outside_round (f : player.stats -> Z) : Prop :=
  forall s,
    f (player.add_bust s) = f s /\ f (player.add_hit s) = f s
    /\ f (player.add_ace s) = f s /\ f (player.add_dealer_bust s) = f s.

(** A player seated for one round who stands on 19 against a dealer
    drawing to 19. *)
Definition tie_seat : player.pstate :=
  seated [card_packet (10, 0); card_packet (9, 1); card_packet (5, 2);
          card_packet (6, 3); card_packet (8, 0); payload_bytes 1 0 0]
    [lit "s"] no_stats.

(** The player's loop of [play_round] (lines 104-117) followed through
    [n] iterations in which a hit is read and obeyed: the total and
    the state with which the next iteration starts, if the loop gets
    that far. *)
Fixpoint after_hits (n : nat) (player_sum : Z) (st : state)
  : option (Z * state) :=
  match n with
  | O => Some (player_sum, st)
  | S n' =>
      if player_sum <=? 21 then
        match recv 1024 st with
        | (Ok (b :: data), st1) =>
            match decode_decision (b :: data) with
            | Ok decision =>
                if pystr_eqb decision (lit "Hittt") then
                  match deal_card st1 with
                  | (Ok (r, s, v), st2) =>
                      match send_payload 0x0 r s st2 with
                      | (Ok _, st3) => after_hits n' (player_sum + v) st3
                      | _ => None
                      end
                  | _ => None
                  end
                else None
            | _ => None
            end
        | _ => None
        end
      else None
  end.

(** [late_short_session]: the peer asks for two rounds, hits once
    (player 10 and 9, then a 2) and then sends only nine bytes of a
    Decision. *)
Definition late_short_session : state :=
  fresh [Data (request_bytes 2); Data hit_packet; Data (firstn 9 hit_packet)]
    [9; 0; 8; 1; 9; 2; 7; 3; 1; 0].

(* ================================================================== *)
(** * Properties *)

(** ** Bytes and [struct] *)

Lemma byte_val_range (b : byte) : 0 <= byte_val b < 256.
Proof.
  unfold byte_val. pose proof (Byte.to_N_bounded b) as Hb.
  lia.
Qed.

Lemma to_byte_val (b : byte) : to_byte (byte_val b) = b.
Proof.
  unfold to_byte, byte_val.
  rewrite Z.mod_small by (pose proof (Byte.to_N_bounded b); lia).
  rewrite N2Z.id, Byte.of_to_N. reflexivity.
Qed.

Lemma byte_val_to_byte (z : Z) : byte_val (to_byte z) = z mod 256.
Proof.
  unfold to_byte, byte_val.
  pose proof (Z.mod_pos_bound z 256 ltac:(lia)) as Hz.
  destruct (Byte.of_N (Z.to_N (z mod 256))) as [b|] eqn:E.
  - apply Byte.to_of_N in E. rewrite E. lia.
  - apply Byte.of_N_None_iff in E. lia.
Qed.

Lemma byte_val_to_byte_small (z : Z) :
  0 <= z < 256 -> byte_val (to_byte z) = z.
Proof.
  intros Hz. rewrite byte_val_to_byte. apply Z.mod_small. exact Hz.
Qed.

Lemma be_bytes_length (w : nat) (z : Z) : length (be_bytes w z) = w.
Proof. induction w; simpl; congruence. Qed.

Lemma land_shiftl_small (a b n : Z) :
  0 <= n -> 0 <= b < 2 ^ n -> Z.land (Z.shiftl a n) b = 0.
Proof.
  intros Hn Hb. apply Z.bits_inj'. intros i Hi.
  rewrite Z.land_spec, Z.bits_0.
  destruct (Z.ltb_spec i n) as [Hlt | Hge].
  - rewrite Z.shiftl_spec_low by lia. reflexivity.
  - replace b with (b mod 2 ^ n) by (apply Z.mod_small; lia).
    rewrite Z.mod_pow2_bits_high by lia. apply andb_false_r.
Qed.

Lemma lor_shiftl_small (a b n : Z) :
  0 <= n -> 0 <= b < 2 ^ n -> Z.lor (Z.shiftl a n) b = a * 2 ^ n + b.
Proof.
  intros Hn Hb.
  pose proof (Z.add_lor_land (Z.shiftl a n) b) as Hadd.
  rewrite land_shiftl_small in Hadd by assumption.
  rewrite Z.shiftl_mul_pow2 in * by lia. lia.
Qed.

Lemma be_fold (w : nat) (z acc : Z) :
  fold_left (fun a b => Z.lor (Z.shiftl a 8) (byte_val b)) (be_bytes w z) acc
  = acc * 2 ^ (8 * Z.of_nat w) + z mod 2 ^ (8 * Z.of_nat w).
Proof.
  revert acc. induction w as [|w IH]; intros acc.
  - simpl. rewrite Z.mod_1_r. lia.
  - cbn [be_bytes fold_left]. rewrite IH, byte_val_to_byte.
    rewrite lor_shiftl_small
      by (pose proof (Z.mod_pos_bound (Z.shiftr z (8 * Z.of_nat w)) 256);
          lia).
    rewrite Z.shiftr_div_pow2 by lia.
    replace (8 * Z.of_nat (S w)) with (8 * Z.of_nat w + 8) by lia.
    rewrite Z.pow_add_r by lia.
    change (2 ^ 8) with 256.
    rewrite (Z.rem_mul_r z (2 ^ (8 * Z.of_nat w)) 256) by lia.
    lia.
Qed.

Lemma be_value_be_bytes (w : nat) (z : Z) :
  0 <= z < 2 ^ (8 * Z.of_nat w) -> be_value (be_bytes w z) = z.
Proof.
  intros Hz. unfold be_value. rewrite be_fold.
  rewrite Z.mod_small by exact Hz. lia.
Qed.

Lemma pack_int_ok (w : nat) (z : Z) :
  0 <= z < 2 ^ (8 * Z.of_nat w) ->
  struct.pack_int w z = Ok (be_bytes w z).
Proof.
  intros Hz. unfold struct.pack_int.
  destruct (Z.leb_spec 0 z); destruct (Z.ltb_spec z (2 ^ (8 * Z.of_nat w)));
    simpl; try lia; reflexivity.
Qed.

Lemma pack_B (z : Z) :
  0 <= z <= 255 -> struct.pack_int 1 z = Ok [to_byte z].
Proof.
  intros Hz. rewrite pack_int_ok; [reflexivity|].
  change (2 ^ (8 * Z.of_nat 1)) with 256. lia.
Qed.

Lemma pack_H (z : Z) :
  0 <= z <= 65535 -> struct.pack_int 2 z = Ok (be_bytes 2 z).
Proof.
  intros Hz. apply pack_int_ok.
  change (2 ^ (8 * Z.of_nat 2)) with 65536. lia.
Qed.

Lemma pack_I_cookie :
  struct.pack_int 4 MAGIC_COOKIE = Ok [xab; xcd; xdc; xba].
Proof. reflexivity. Qed.

Lemma pack_s_exact (n : nat) (bs : bytes) :
  length bs = n -> struct.pack_s n bs = bs.
Proof.
  intros <-. unfold struct.pack_s.
  rewrite firstn_all, Nat.sub_diag. simpl. apply app_nil_r.
Qed.

Lemma unpack_length (fs : list struct.fmt) (data : bytes) :
  (exists vs, struct.unpack fs data = Ok vs)
  <-> length data = struct.calcsize fs.
Proof.
  unfold struct.unpack.
  destruct (Nat.eqb_spec (length data) (struct.calcsize fs)) as [E | E].
  - split; [intros _; exact E | intros _; eexists; reflexivity].
  - split; [intros [vs H]; discriminate | intros H; contradiction].
Qed.

Lemma land_255_range (z : Z) : 0 <= Z.land z 0xFF < 256.
Proof.
  change 0xFF with (Z.ones 8). rewrite Z.land_ones by lia.
  apply Z.mod_pos_bound. reflexivity.
Qed.

(** The client's [(r_h << 8) | r_l] undoes the server's split. *)
Lemma rank_split_join (r : Z) :
  0 <= r <= 65535 ->
  Z.lor (Z.shiftl (Z.land (Z.shiftr r 8) 0xFF) 8) (Z.land r 0xFF) = r.
Proof.
  intros Hr.
  rewrite lor_shiftl_small by (try lia; apply land_255_range).
  change 0xFF with (Z.ones 8). rewrite !Z.land_ones by lia.
  rewrite Z.shiftr_div_pow2 by lia. change (2 ^ 8) with 256.
  rewrite (Z.mod_small (r / 256)).
  - pose proof (Z.div_mod r 256 ltac:(lia)). lia.
  - split; [apply Z.div_pos; lia | apply Z.div_lt_upper_bound; lia].
Qed.

Lemma payload_packet_ok (result rank suit : Z) :
  0 <= result <= 255 -> 0 <= suit <= 255 ->
  payload_packet result rank suit = Ok (payload_bytes result rank suit).
Proof.
  intros Hres Hsuit. unfold payload_packet, payload_bytes, fmt_IBB3B.
  pose proof (land_255_range (Z.shiftr rank 8)) as Hh.
  pose proof (land_255_range rank) as Hl.
  cbn [struct.pack struct.pack_one struct.size].
  rewrite pack_I_cookie.
  rewrite !pack_B by (unfold PAYLOAD_TYPE; lia).
  reflexivity.
Qed.

Lemma unpack_payload_bytes (result rank suit : Z) :
  0 <= result <= 255 -> 0 <= suit <= 255 ->
  struct.unpack fmt_IBB3B (payload_bytes result rank suit)
  = Ok [VInt MAGIC_COOKIE; VInt PAYLOAD_TYPE; VInt result;
        VInt (Z.land (Z.shiftr rank 8) 0xFF); VInt (Z.land rank 0xFF);
        VInt suit].
Proof.
  intros Hres Hsuit.
  pose proof (land_255_range (Z.shiftr rank 8)) as Hh.
  pose proof (land_255_range rank) as Hl.
  unfold struct.unpack, payload_bytes, fmt_IBB3B.
  cbn [length app be_bytes struct.calcsize fold_right struct.size
       Nat.add Nat.eqb struct.unpack_fields struct.unpack_one
       firstn skipn].
  repeat f_equal.
  - change (be_value ?l) with (byte_val (to_byte result)).
    apply byte_val_to_byte_small. lia.
  - change (be_value ?l)
      with (byte_val (to_byte (Z.land (Z.shiftr rank 8) 0xFF))).
    apply byte_val_to_byte_small. lia.
  - change (be_value ?l) with (byte_val (to_byte (Z.land rank 0xFF))).
    apply byte_val_to_byte_small. lia.
  - change (be_value ?l) with (byte_val (to_byte suit)).
    apply byte_val_to_byte_small. lia.
Qed.

Lemma pack_s_length (n : nat) (bs : bytes) :
  length (struct.pack_s n bs) = n.
Proof.
  unfold struct.pack_s. rewrite length_app, length_firstn, repeat_length.
  lia.
Qed.

Lemma pack_one_spec f v b :
  struct.pack_one f v = Ok b ->
  length b = struct.size f /\ struct.unpack_one f b = struct_canon f v.
Proof.
  assert (Hint : forall w z,
             struct.pack_int w z = Ok b ->
             length b = w /\ VInt (be_value b) = VInt z).
  { intros w z. unfold struct.pack_int.
    destruct (Z.leb_spec 0 z) as [Hlo | Hlo];
      destruct (Z.ltb_spec z (2 ^ (8 * Z.of_nat w))) as [Hhi | Hhi];
      cbn [andb]; intros H; inversion H; subst.
    split; [apply be_bytes_length|].
    rewrite be_value_be_bytes by lia. reflexivity. }
  destruct f, v; cbn [struct.pack_one struct.size struct.unpack_one
                      struct_canon]; try discriminate; try apply Hint.
  intros H; inversion H; subst. split; [apply pack_s_length | reflexivity].
Qed.

(** Unpacking what was packed gives the values back. *)
Lemma unpack_pack fs : forall vs bs,
  struct.pack fs vs = Ok bs ->
  length bs = struct.calcsize fs
  /\ struct.unpack_fields fs bs = struct_canon_all fs vs.
Proof.
  induction fs as [|f fs IH]; intros [|v vs] bs; cbn [struct.pack];
    try discriminate.
  - intros H; inversion H; subst. split; reflexivity.
  - destruct (struct.pack_one f v) as [b | e |] eqn:Hone;
      cbn [res_bind]; try discriminate.
    destruct (struct.pack fs vs) as [rest | e |] eqn:Hrest;
      cbn [res_map]; try discriminate.
    intros H; inversion H; subst.
    destruct (pack_one_spec _ _ _ Hone) as [Hlen Hun].
    destruct (IH _ _ Hrest) as [Hlen' Hun'].
    cbn [struct.calcsize fold_right struct.unpack_fields struct_canon_all].
    fold (struct.calcsize fs).
    rewrite length_app, Hlen, Hlen'. split; [reflexivity|].
    rewrite <- Hlen at 1 2.
    rewrite firstn_app, firstn_all, Nat.sub_diag, skipn_app, skipn_all,
      Nat.sub_diag.
    cbn [firstn skipn app]. rewrite app_nil_r, Hun, Hun'. reflexivity.
Qed.

Lemma unpack_pack_ok fs vs bs :
  struct.pack fs vs = Ok bs ->
  struct.unpack fs bs = Ok (struct_canon_all fs vs).
Proof.
  intros H. destruct (unpack_pack _ _ _ H) as [Hlen Hun].
  unfold struct.unpack. rewrite Hlen, Nat.eqb_refl, Hun. reflexivity.
Qed.

(** ** The state monad *)

Lemma bind_ok {A B} (m : M A) (k : A -> M B) st a st1 :
  m st = (Ok a, st1) -> bind m k st = k a st1.
Proof. intros H. unfold bind. rewrite H. reflexivity. Qed.

Lemma bind_raise {A B} (m : M A) (k : A -> M B) st e st1 :
  m st = (Raise e, st1) -> bind m k st = (Raise e, st1).
Proof. intros H. unfold bind. rewrite H. reflexivity. Qed.

Lemma bind_cases {A B} (m : M A) (k : A -> M B) st r st' :
  bind m k st = (r, st') ->
  (exists a st1, m st = (Ok a, st1) /\ k a st1 = (r, st'))
  \/ (exists e, m st = (Raise e, st') /\ r = Raise e)
  \/ (m st = (OutOfFuel, st') /\ r = OutOfFuel).
Proof.
  unfold bind. destruct (m st) as [[a | e |] st1]; intros H.
  - left. eauto.
  - right. left. inversion H; subst. eauto.
  - right. right. inversion H; subst. eauto.
Qed.

Lemma bind_inv_ok {A B} (m : M A) (k : A -> M B) st b st' :
  bind m k st = (Ok b, st') ->
  exists a st1, m st = (Ok a, st1) /\ k a st1 = (Ok b, st').
Proof.
  intros H. apply bind_cases in H.
  destruct H as [H | [[e [_ H]] | [_ H]]]; [exact H | discriminate ..].
Qed.

(** ** States *)

Lemma advance_id st : advance st (inbox st) [] 0 = st.
Proof. destruct st. unfold advance. simpl. rewrite app_nil_r. reflexivity. Qed.

Lemma advance_advance st i1 e1 n1 i2 e2 n2 :
  advance (advance st i1 e1 n1) i2 e2 n2
  = advance st i2 (e1 ++ e2) (n2 + n1).
Proof.
  unfold advance. simpl. rewrite app_assoc, Nat.add_assoc. reflexivity.
Qed.

Lemma inbox_advance st i e n : inbox (advance st i e n) = i.
Proof. reflexivity. Qed.

Lemma log_advance st i e n : log (advance st i e n) = log st ++ e.
Proof. reflexivity. Qed.

Lemma entropy_advance st i e n : entropy (advance st i e n) = entropy st.
Proof. reflexivity. Qed.

Lemma drawn_advance st i e n : drawn (advance st i e n) = (n + drawn st)%nat.
Proof. reflexivity. Qed.

Lemma send_ok_advance st i e n : send_ok (advance st i e n) = send_ok st.
Proof. reflexivity. Qed.

Lemma stats_advance st i e n :
  total_wins (advance st i e n) = total_wins st
  /\ total_losses (advance st i e n) = total_losses st
  /\ total_ties (advance st i e n) = total_ties st.
Proof. repeat split. Qed.

Create Rewrite HintDb state.
#[local] Hint Rewrite inbox_advance log_advance entropy_advance
  drawn_advance send_ok_advance advance_advance : state.

Lemma reliable_advance st i e n : reliable st -> reliable (advance st i e n).
Proof. intros H k. apply H. Qed.

Lemma sent_advance st i e n :
  sent (advance st i e n) = sent st ++ sends_of e.
Proof. unfold sent, sends_of. simpl. apply flat_map_app. Qed.

Lemma received_advance st i e n :
  received (advance st i e n) = received st ++ recvs_of e.
Proof. unfold received, recvs_of. simpl. apply flat_map_app. Qed.

(** ** Cards *)

Lemma valid_card_at e pos : valid_card (card_at e pos).
Proof.
  unfold valid_card, card_at. cbn [fst snd].
  pose proof (Z.mod_pos_bound (e pos) 13 ltac:(lia)).
  pose proof (Z.mod_pos_bound (e (S pos)) 4 ltac:(lia)).
  lia.
Qed.

Lemma card_value_cases (r : Z) :
  (r = 1 /\ card_value r = 11)
  \/ (11 <= r /\ card_value r = 10)
  \/ (r <> 1 /\ r < 11 /\ card_value r = r).
Proof.
  unfold card_value.
  destruct (Z.eqb_spec r 1); [left; split; [assumption | reflexivity]|].
  destruct (Z.leb_spec 11 r); [right; left | right; right]; auto.
Qed.

Lemma card_value_bounds (c : Z * Z) :
  valid_card c -> 2 <= card_value (fst c) <= 11.
Proof.
  intros [Hr _]. destruct (card_value_cases (fst c)) as [H | [H | H]]; lia.
Qed.

Lemma deal_card_eq st :
  deal_card st
  = (Ok (fst (card_at (entropy st) (drawn st)),
         snd (card_at (entropy st) (drawn st)),
         card_value (fst (card_at (entropy st) (drawn st)))),
     advance st (inbox st) [] 2).
Proof.
  unfold deal_card, bind, randint, ret, card_value, card_at, advance,
    with_drawn.
  cbn [fst snd inbox send_ok log entropy drawn total_wins total_losses
       total_ties].
  rewrite app_nil_r, Z.geb_leb.
  replace (13 - 1 + 1) with 13 by reflexivity.
  replace (3 - 0 + 1) with 4 by reflexivity.
  reflexivity.
Qed.

(** ** Sending *)

Lemma send_reliable p st :
  reliable st -> send p st = (Ok tt, advance st (inbox st) [Send p] 0).
Proof. intros H. unfold send. rewrite H. reflexivity. Qed.

Lemma send_cases p st :
  send p st = (Ok tt, advance st (inbox st) [Send p] 0)
  \/ send p st = (Raise OSError, st).
Proof. unfold send. destruct (send_ok st _); [left | right]; reflexivity. Qed.

Lemma send_payload_card (c : Z * Z) st :
  valid_card c -> send_payload 0 (fst c) (snd c) st = send (card_packet c) st.
Proof.
  intros [_ Hs]. unfold send_payload, lift.
  rewrite payload_packet_ok by lia. reflexivity.
Qed.

Lemma send_payload_outcome (r : Z) st :
  0 <= r <= 255 -> send_payload r 0 0 st = send (payload_bytes r 0 0) st.
Proof.
  intros Hr. unfold send_payload, lift.
  rewrite payload_packet_ok by lia. reflexivity.
Qed.

(** ** The dealer's loop *)

Lemma dealer_loop_stop fuel ds st :
  17 <= ds -> dealer_loop fuel ds st = (Ok ds, st).
Proof.
  intros H. destruct fuel; cbn [dealer_loop];
    destruct (Z.ltb_spec ds 17); try lia; reflexivity.
Qed.

Lemma dealer_loop_step fuel ds st :
  ds < 17 ->
  dealer_loop (S fuel) ds st
  = bind (send (card_packet (card_at (entropy st) (drawn st))))
      (fun _ =>
         dealer_loop fuel
           (ds + card_value (fst (card_at (entropy st) (drawn st)))))
      (advance st (inbox st) [] 2).
Proof.
  intros H. cbn [dealer_loop].
  destruct (Z.ltb_spec ds 17); try lia.
  rewrite (bind_ok _ _ _ _ _ (deal_card_eq st)).
  unfold bind.
  rewrite send_payload_card by apply valid_card_at.
  reflexivity.
Qed.

Lemma dealer_loop_reliable fuel : forall ds st,
  reliable st -> 17 - ds <= Z.of_nat fuel ->
  exists k,
    dealer_loop fuel ds st
    = (Ok (ds + hand_value (cards_from (entropy st) (drawn st) k)),
       advance st (inbox st)
         (card_sends (cards_from (entropy st) (drawn st) k)) (2 * k))
    /\ 17 <= ds + hand_value (cards_from (entropy st) (drawn st) k)
    /\ forall j, (j < k)%nat ->
         ds + hand_value (firstn j (cards_from (entropy st) (drawn st) k))
         < 17.
Proof.
  induction fuel as [|fuel IH]; intros ds st Hrel Hfuel.
  - exists O. rewrite dealer_loop_stop by lia. cbn [cards_from hand_value
      fold_right card_sends map Nat.mul]. rewrite advance_id, Z.add_0_r.
    repeat split; [lia | intros j Hj; lia].
  - destruct (Z.lt_ge_cases ds 17) as [Hlt | Hge].
    + set (c := card_at (entropy st) (drawn st)).
      pose proof (card_value_bounds c (valid_card_at _ _)) as Hv.
      destruct (IH (ds + card_value (fst c))
                  (advance st (inbox st) [Send (card_packet c)] 2)
                  (reliable_advance _ _ _ _ Hrel) ltac:(lia))
        as [k [Hrun [Hstop Hbelow]]].
      autorewrite with state in Hrun, Hstop, Hbelow.
      cbn [Nat.add] in Hrun, Hstop, Hbelow.
      exists (S k). rewrite dealer_loop_step by exact Hlt. fold c.
      rewrite (bind_ok _ _ _ _ _
                 (send_reliable _ _ (reliable_advance _ _ _ _ Hrel))).
      autorewrite with state. cbn [app Nat.add].
      rewrite Hrun.
      cbn [cards_from hand_value fold_right card_sends map]. fold c.
      fold (hand_value (cards_from (entropy st) (S (S (drawn st))) k)).
      fold (card_sends (cards_from (entropy st) (S (S (drawn st))) k)).
      repeat split.
      * f_equal; [f_equal; lia | f_equal; lia].
      * lia.
      * intros [|j] Hj; cbn [firstn hand_value fold_right].
        -- lia.
        -- fold (hand_value
                   (firstn j (cards_from (entropy st) (S (S (drawn st))) k))).
           specialize (Hbelow j ltac:(lia)). lia.
    + exists O. rewrite dealer_loop_stop by lia. cbn [cards_from hand_value
        fold_right card_sends map Nat.mul]. rewrite advance_id, Z.add_0_r.
      repeat split; [lia | intros j Hj; lia].
Qed.

(** ** Receiving and decoding *)

Lemma recv_cases n st r st' :
  recv n st = (r, st') ->
  (exists data i, r = Ok data /\ st' = advance st i [Recv data] 0)
  \/ (exists i, r = Raise OSError /\ st' = advance st i [] 0).
Proof.
  unfold recv. destruct (inbox st) as [|[bs|] rest] eqn:Ei.
  - intros H; inversion H; subst. left. exists [], []. split; [reflexivity|].
    unfold log_event, advance. rewrite Ei. reflexivity.
  - destruct (Nat.leb (length bs) n); intros H; inversion H; subst; left;
      eexists; eexists; (split; [reflexivity|]); reflexivity.
  - intros H; inversion H; subst. right. exists rest. split; [reflexivity|].
    unfold with_inbox, advance. simpl. rewrite app_nil_r. reflexivity.
Qed.

Lemma utf8_decode_returns (n : nat) : forall bs,
  (length bs <= n)%nat -> utf8_decode bs <> OutOfFuel.
Proof.
  induction n as [|n IH]; intros bs Hlen.
  - destruct bs; [discriminate | simpl in Hlen; lia].
  - destruct bs as [|b0 r0]; [discriminate|].
    cbn [utf8_decode]. cbv zeta.
    repeat match goal with
      | |- context [if ?c then _ else _] => destruct c
      | |- context [match ?l with [] => _ | _ :: _ => _ end] => destruct l
      end; try discriminate;
      match goal with
      | |- res_map _ (utf8_decode ?r) <> _ =>
          pose proof (IH r ltac:(simpl in Hlen |- *; lia));
          destruct (utf8_decode r); [discriminate | discriminate | congruence]
      end.
Qed.

Lemma decode_decision_returns data : decode_decision data <> OutOfFuel.
Proof.
  unfold decode_decision, struct.unpack.
  destruct (Nat.eqb _ _); [|discriminate]. cbn [res_bind].
  destruct (struct.unpack_fields fmt_IB5s data) as [|a [|b [|[z|bs] [|]]]];
    try discriminate.
  pose proof (utf8_decode_returns _ bs (le_n _)).
  destruct (utf8_decode bs); [discriminate | discriminate | congruence].
Qed.

(** A buffer is accepted by the Decision unpacking exactly when it is
    10 bytes long. *)
Lemma decode_decision_length data :
  length data <> 10%nat -> decode_decision data = Raise StructError.
Proof.
  intros H. unfold decode_decision, struct.unpack.
  destruct (Nat.eqb_spec (length data) (struct.calcsize fmt_IB5s)) as [E|E].
  - exfalso. apply H. exact E.
  - reflexivity.
Qed.

(** ** The player's loop *)

Lemma player_loop_stop fuel ps st :
  21 < ps -> player_loop fuel ps st = (Ok ps, st).
Proof.
  intros H. destruct fuel; cbn [player_loop];
    destruct (Z.leb_spec ps 21); try lia; reflexivity.
Qed.

Lemma player_loop_recv_fail fuel ps st e st1 :
  ps <= 21 -> recv 1024 st = (Raise e, st1) ->
  player_loop (S fuel) ps st = (Raise e, st1).
Proof.
  intros H Hr. cbn [player_loop]. destruct (Z.leb_spec ps 21); try lia.
  apply bind_raise. exact Hr.
Qed.

Lemma player_loop_eof fuel ps st st1 :
  ps <= 21 -> recv 1024 st = (Ok [], st1) ->
  player_loop (S fuel) ps st = (Ok ps, st1).
Proof.
  intros H Hr. cbn [player_loop]. destruct (Z.leb_spec ps 21); try lia.
  rewrite (bind_ok _ _ _ _ _ Hr). reflexivity.
Qed.

Lemma player_loop_bad fuel ps st data st1 e :
  ps <= 21 -> recv 1024 st = (Ok data, st1) -> data <> [] ->
  decode_decision data = Raise e ->
  player_loop (S fuel) ps st = (Raise e, st1).
Proof.
  intros H Hr Hne Hd. cbn [player_loop]. destruct (Z.leb_spec ps 21); try lia.
  rewrite (bind_ok _ _ _ _ _ Hr). destruct data; [contradiction|].
  unfold bind, lift. rewrite Hd. reflexivity.
Qed.

Lemma player_loop_other fuel ps st data st1 d :
  ps <= 21 -> recv 1024 st = (Ok data, st1) -> data <> [] ->
  decode_decision data = Ok d -> pystr_eqb d (lit "Hittt") = false ->
  player_loop (S fuel) ps st = (Ok ps, st1).
Proof.
  intros H Hr Hne Hd Hs. cbn [player_loop].
  destruct (Z.leb_spec ps 21); try lia.
  rewrite (bind_ok _ _ _ _ _ Hr). destruct data; [contradiction|].
  unfold bind at 1. unfold lift. rewrite Hd, Hs. reflexivity.
Qed.

Lemma player_loop_hit fuel ps st data st1 d :
  ps <= 21 -> recv 1024 st = (Ok data, st1) -> data <> [] ->
  decode_decision data = Ok d -> pystr_eqb d (lit "Hittt") = true ->
  player_loop (S fuel) ps st
  = bind (send (card_packet (card_at (entropy st1) (drawn st1))))
      (fun _ =>
         player_loop fuel
           (ps + card_value (fst (card_at (entropy st1) (drawn st1)))))
      (advance st1 (inbox st1) [] 2).
Proof.
  intros H Hr Hne Hd Hs. cbn [player_loop].
  destruct (Z.leb_spec ps 21); try lia.
  rewrite (bind_ok _ _ _ _ _ Hr). destruct data; [contradiction|].
  unfold bind at 1. unfold lift. rewrite Hd, Hs.
  rewrite (bind_ok _ _ _ _ _ (deal_card_eq st1)).
  unfold bind.
  rewrite send_payload_card by apply valid_card_at.
  reflexivity.
Qed.

Lemma pystr_eqb_true a b : pystr_eqb a b = true <-> a = b.
Proof.
  unfold pystr_eqb. destruct (list_eq_dec Z.eq_dec a b); split;
    intros H; try reflexivity; try assumption; try discriminate;
    contradiction.
Qed.

Lemma send_then {A} (p : bytes) (k : M A) st r st' :
  bind (send p) (fun _ => k) st = (r, st') ->
  (r = Raise OSError /\ st' = st)
  \/ k (advance st (inbox st) [Send p] 0) = (r, st').
Proof.
  intros H. apply bind_cases in H.
  destruct (send_cases p st) as [Hs | Hs]; rewrite Hs in H;
    destruct H as [[a [st1 [H1 H2]]] | [[e [H1 H2]] | [H1 H2]]];
    inversion H1; subst; auto.
Qed.

(** One turn of the player's loop, by what the read brings. *)
Lemma player_loop_iter fuel ps st r st' :
  ps <= 21 -> player_loop (S fuel) ps st = (r, st') ->
  (exists i, r = Raise OSError /\ st' = advance st i [] 0)
  \/ exists i data,
       (data = [] /\ r = Ok ps /\ st' = advance st i [Recv data] 0)
       \/ (data <> [] /\ exists e, decode_decision data = Raise e
           /\ r = Raise e /\ st' = advance st i [Recv data] 0)
       \/ (data <> [] /\ exists d, decode_decision data = Ok d
           /\ d <> lit "Hittt"
           /\ r = Ok ps /\ st' = advance st i [Recv data] 0)
       \/ (data <> [] /\ decode_decision data = Ok (lit "Hittt")
           /\ ((r = Raise OSError /\ st' = advance st i [Recv data] 2)
               \/ player_loop fuel
                    (ps + card_value (fst (card_at (entropy st) (drawn st))))
                    (advance st i
                       [Recv data;
                        Send (card_packet (card_at (entropy st) (drawn st)))]
                       2)
                  = (r, st'))).
Proof.
  intros Hps Hrun.
  destruct (recv 1024 st) as [r1 st1] eqn:Hrecv.
  destruct (recv_cases _ _ _ _ Hrecv) as [[data [i [-> ->]]] | [i [-> ->]]].
  - right. exists i, data. destruct data as [|b data'] eqn:Ed.
    + rewrite (player_loop_eof _ _ _ _ Hps Hrecv) in Hrun.
      inversion Hrun; subst. left. auto.
    + rewrite <- Ed in *. assert (Hne : data <> []) by (subst; discriminate).
      right. clear Ed.
      destruct (decode_decision data) as [d | e |] eqn:Hd.
      * destruct (pystr_eqb d (lit "Hittt")) eqn:Hs.
        -- right. right. split; [exact Hne|].
           rewrite (player_loop_hit _ _ _ _ _ _ Hps Hrecv Hne Hd Hs) in Hrun.
           apply pystr_eqb_true in Hs. subst d. split; [reflexivity|].
           apply send_then in Hrun. autorewrite with state in Hrun.
           cbn [app Nat.add] in Hrun.
           destruct Hrun as [[-> ->] | Hrun]; [left | right]; auto.
        -- right. left. split; [exact Hne|]. exists d.
           rewrite (player_loop_other _ _ _ _ _ _ Hps Hrecv Hne Hd Hs) in Hrun.
           inversion Hrun; subst. repeat split; try reflexivity.
           intros ->. rewrite (proj2 (pystr_eqb_true _ _) eq_refl) in Hs.
           discriminate.
      * left. split; [exact Hne|]. exists e.
        rewrite (player_loop_bad _ _ _ _ _ _ Hps Hrecv Hne Hd) in Hrun.
        inversion Hrun; subst. auto.
      * exfalso. exact (decode_decision_returns _ Hd).
  - left. exists i. rewrite (player_loop_recv_fail _ _ _ _ _ Hps Hrecv) in Hrun.
    inversion Hrun; subst. auto.
Qed.

Lemma dealer_loop_iter fuel ds st r st' :
  ds < 17 -> dealer_loop (S fuel) ds st = (r, st') ->
  (r = Raise OSError /\ st' = advance st (inbox st) [] 2)
  \/ dealer_loop fuel
       (ds + card_value (fst (card_at (entropy st) (drawn st))))
       (advance st (inbox st)
          [Send (card_packet (card_at (entropy st) (drawn st)))] 2)
     = (r, st').
Proof.
  intros Hds Hrun. rewrite dealer_loop_step in Hrun by exact Hds.
  apply send_then in Hrun. autorewrite with state in Hrun.
  cbn [app Nat.add] in Hrun. exact Hrun.
Qed.

(** ** What a round puts on the wire before its outcome *)

Lemma card_traffic_nil : card_traffic [].
Proof. constructor. Qed.

Lemma card_traffic_app a b :
  card_traffic a -> card_traffic b -> card_traffic (a ++ b).
Proof. intros Ha Hb. apply Forall_app. split; assumption. Qed.

Lemma card_traffic_recv d : card_traffic [Recv d].
Proof. repeat constructor. Qed.

Lemma card_traffic_send c : valid_card c -> card_traffic [Send (card_packet c)].
Proof. intros Hc. repeat constructor. exists c. auto. Qed.

Lemma card_traffic_sends cards :
  Forall valid_card cards -> card_traffic (card_sends cards).
Proof.
  induction 1 as [|c cards Hc _ IH]; [constructor|].
  constructor; [exists c; auto | exact IH].
Qed.

Create HintDb traffic.
#[local] Hint Resolve card_traffic_nil card_traffic_app card_traffic_recv
  card_traffic_send card_traffic_sends valid_card_at : traffic.

Lemma sends_of_traffic evs :
  card_traffic evs ->
  exists cards, Forall valid_card cards /\ sends_of evs = map card_packet cards.
Proof.
  induction 1 as [|e evs He _ [cards [Hv Hs]]].
  - exists []. split; [constructor | reflexivity].
  - destruct e as [d | p |]; cbn [sends_of flat_map app] in *.
    + exists cards. auto.
    + destruct He as [c [Hc ->]]. exists (c :: cards).
      fold (sends_of evs). rewrite Hs. split; [constructor; assumption|].
      reflexivity.
    + contradiction.
Qed.

Lemma sends_of_card_sends cards :
  sends_of (card_sends cards) = map card_packet cards.
Proof.
  induction cards as [|c cards IH]; [reflexivity|].
  cbn [card_sends map sends_of flat_map app].
  fold (card_sends cards). fold (sends_of (card_sends cards)).
  rewrite IH. reflexivity.
Qed.

Lemma recvs_of_card_sends cards : recvs_of (card_sends cards) = [].
Proof. induction cards as [|c cards IH]; [reflexivity | exact IH]. Qed.

Lemma player_loop_traffic fuel : forall ps st r st',
  player_loop fuel ps st = (r, st') ->
  exists i evs n, st' = advance st i evs n /\ card_traffic evs.
Proof.
  induction fuel as [|fuel IH]; intros ps st r st' Hrun.
  - exists (inbox st), [], O. rewrite advance_id.
    cbn [player_loop] in Hrun. unfold out_of_fuel, ret in Hrun.
    destruct (ps <=? 21); inversion Hrun; auto with traffic.
  - destruct (Z.le_gt_cases ps 21) as [Hle | Hgt].
    + destruct (player_loop_iter _ _ _ _ _ Hle Hrun)
        as [[i [_ ->]] | [i [data [[_ [_ ->]] | [[_ [e [_ [_ ->]]]]
                           | [[_ [d [_ [_ [_ ->]]]]]
                           | [_ [_ [[_ ->] | Hrec]]]]]]]]];
        try (eexists; eexists; eexists; split; [reflexivity|];
             auto with traffic).
      destruct (IH _ _ _ _ Hrec) as [i' [evs [n [-> Ht]]]].
      autorewrite with state.
      eexists; eexists; eexists; split; [reflexivity|].
      apply card_traffic_app; [|exact Ht].
      apply (card_traffic_app [_] [_]); auto with traffic.
    + rewrite player_loop_stop in Hrun by lia. inversion Hrun; subst.
      exists (inbox st'), [], O. rewrite advance_id. auto with traffic.
Qed.

Lemma player_loop_returns fuel : forall ps st,
  22 - ps <= Z.of_nat fuel -> fst (player_loop fuel ps st) <> OutOfFuel.
Proof.
  induction fuel as [|fuel IH]; intros ps st Hfuel.
  - rewrite player_loop_stop by lia. discriminate.
  - destruct (Z.le_gt_cases ps 21) as [Hle | Hgt].
    + destruct (player_loop (S fuel) ps st) as [r st'] eqn:Hrun.
      destruct (player_loop_iter _ _ _ _ _ Hle Hrun)
        as [[i [-> _]] | [i [data [[_ [-> _]] | [[_ [e [_ [-> _]]]]
                           | [[_ [d [_ [_ [-> _]]]]]
                           | [_ [_ [[-> _] | Hrec]]]]]]]]];
        try discriminate.
      pose proof (card_value_bounds _ (valid_card_at (entropy st) (drawn st))).
      specialize (IH (ps + card_value (fst (card_at (entropy st) (drawn st))))
                    (advance st i
                       [Recv data;
                        Send (card_packet (card_at (entropy st) (drawn st)))]
                       2) ltac:(lia)).
      rewrite Hrec in IH. exact IH.
    + rewrite player_loop_stop by lia. discriminate.
Qed.

Lemma player_loop_bust fuel : forall ps st ps' st',
  player_loop fuel ps st = (Ok ps', st') -> 21 < ps' ->
  (ps' = ps /\ st' = st)
  \/ exists pre data c,
       log st' = log st ++ pre ++ [Recv data; Send (card_packet c)]
       /\ decode_decision data = Ok (lit "Hittt")
       /\ valid_card c
       /\ ps' - card_value (fst c) <= 21.
Proof.
  induction fuel as [|fuel IH]; intros ps st ps' st' Hrun Hbust.
  - cbn [player_loop] in Hrun. unfold out_of_fuel, ret in Hrun.
    destruct (ps <=? 21); inversion Hrun; auto.
  - destruct (Z.le_gt_cases ps 21) as [Hle | Hgt].
    + right.
      destruct (player_loop_iter _ _ _ _ _ Hle Hrun)
        as [[i [E _]] | [i [data [[_ [E _]] | [[_ [e [_ [E _]]]]
                           | [[_ [d [_ [_ [E _]]]]]
                           | [_ [Hd [[E _] | Hrec]]]]]]]]];
        try discriminate; try (inversion E; lia).
      destruct (IH _ _ _ _ Hrec Hbust)
        as [[-> ->] | [pre [data' [c [Hlog [Hd' [Hc Hle']]]]]]].
      * exists [], data, (card_at (entropy st) (drawn st)).
        autorewrite with state. repeat split; auto with traffic;
          try apply valid_card_at; lia.
      * exists ([Recv data;
                 Send (card_packet (card_at (entropy st) (drawn st)))] ++ pre),
          data', c.
        rewrite Hlog. autorewrite with state.
        rewrite <- !app_assoc. auto.
    + rewrite player_loop_stop in Hrun by lia. inversion Hrun; auto.
Qed.

Lemma dealer_loop_traffic fuel : forall ds st r st',
  dealer_loop fuel ds st = (r, st') ->
  exists cards n,
    st' = advance st (inbox st) (card_sends cards) n
    /\ Forall valid_card cards.
Proof.
  induction fuel as [|fuel IH]; intros ds st r st' Hrun.
  - exists [], O. cbn [card_sends map]. rewrite advance_id.
    cbn [dealer_loop] in Hrun. unfold out_of_fuel, ret in Hrun.
    destruct (ds <? 17); inversion Hrun; auto.
  - destruct (Z.lt_ge_cases ds 17) as [Hlt | Hge].
    + destruct (dealer_loop_iter _ _ _ _ _ Hlt Hrun) as [[_ ->] | Hrec].
      * exists [], 2%nat. auto.
      * destruct (IH _ _ _ _ Hrec) as [cards [n [-> Hv]]].
        autorewrite with state.
        exists (card_at (entropy st) (drawn st) :: cards), (n + 2)%nat.
        split; [reflexivity|]. constructor; [apply valid_card_at | exact Hv].
    + rewrite dealer_loop_stop in Hrun by lia. inversion Hrun; subst.
      exists [], O. cbn [card_sends map]. rewrite advance_id. auto.
Qed.

Lemma dealer_loop_returns fuel : forall ds st,
  17 - ds <= Z.of_nat fuel -> fst (dealer_loop fuel ds st) <> OutOfFuel.
Proof.
  induction fuel as [|fuel IH]; intros ds st Hfuel.
  - rewrite dealer_loop_stop by lia. discriminate.
  - destruct (Z.lt_ge_cases ds 17) as [Hlt | Hge].
    + destruct (dealer_loop (S fuel) ds st) as [r st'] eqn:Hrun.
      destruct (dealer_loop_iter _ _ _ _ _ Hlt Hrun) as [[-> _] | Hrec];
        [discriminate|].
      pose proof (card_value_bounds _ (valid_card_at (entropy st) (drawn st))).
      specialize (IH (ds + card_value (fst (card_at (entropy st) (drawn st))))
                    (advance st (inbox st)
                       [Send (card_packet (card_at (entropy st) (drawn st)))]
                       2) ltac:(lia)).
      rewrite Hrec in IH. exact IH.
    + rewrite dealer_loop_stop by lia. discriminate.
Qed.

(** ** The round *)

Lemma initial_deal_eq st :
  initial_deal st
  = bind (send (card_packet (dealt st 0))) (fun _ =>
    bind (send (card_packet (dealt st 1))) (fun _ =>
    bind (send (card_packet (dealt st 2))) (fun _ =>
    ret (card_value (fst (dealt st 0)) + card_value (fst (dealt st 1)),
         card_value (fst (dealt st 2)) + card_value (fst (dealt st 3)),
         dealt st 3))))
      (advance st (inbox st) [] 8).
Proof.
  unfold initial_deal.
  rewrite (bind_ok _ _ _ _ _ (deal_card_eq st)). cbv beta iota.
  rewrite (bind_ok _ _ _ _ _ (deal_card_eq _)). cbv beta iota.
  rewrite (bind_ok _ _ _ _ _ (deal_card_eq _)). cbv beta iota.
  rewrite (bind_ok _ _ _ _ _ (deal_card_eq _)). cbv beta iota.
  autorewrite with state. cbn [app Nat.add].
  unfold bind.
  rewrite (send_payload_card (card_at (entropy st) (drawn st)))
    by apply valid_card_at.
  unfold dealt. cbn [Nat.mul Nat.add].
  destruct (send _ _) as [[[] | e |] s1]; try reflexivity.
  rewrite (send_payload_card (card_at (entropy st) (S (S (drawn st)))))
    by apply valid_card_at.
  destruct (send _ _) as [[[] | e |] s2]; try reflexivity.
  rewrite (send_payload_card
             (card_at (entropy st) (S (S (S (S (drawn st)))))))
    by apply valid_card_at.
  destruct (send _ _) as [[[] | e |] s3]; reflexivity.
Qed.

Lemma initial_deal_reliable st :
  reliable st ->
  initial_deal st
  = (Ok (card_value (fst (dealt st 0)) + card_value (fst (dealt st 1)),
         card_value (fst (dealt st 2)) + card_value (fst (dealt st 3)),
         dealt st 3),
     advance st (inbox st)
       (card_sends [dealt st 0; dealt st 1; dealt st 2]) 8).
Proof.
  intros Hrel. rewrite initial_deal_eq.
  rewrite (bind_ok _ _ _ _ _ (send_reliable _ _ (reliable_advance _ _ _ _ Hrel))).
  autorewrite with state.
  rewrite (bind_ok _ _ _ _ _ (send_reliable _ _ (reliable_advance _ _ _ _ Hrel))).
  autorewrite with state.
  rewrite (bind_ok _ _ _ _ _ (send_reliable _ _ (reliable_advance _ _ _ _ Hrel))).
  autorewrite with state. reflexivity.
Qed.

Lemma initial_deal_cases st r st0 :
  initial_deal st = (r, st0) ->
  (r = Raise OSError
   /\ exists cards, Forall valid_card cards
        /\ st0 = advance st (inbox st) (card_sends cards) 8)
  \/ (r = Ok (card_value (fst (dealt st 0)) + card_value (fst (dealt st 1)),
              card_value (fst (dealt st 2)) + card_value (fst (dealt st 3)),
              dealt st 3)
      /\ st0 = advance st (inbox st)
                 (card_sends [dealt st 0; dealt st 1; dealt st 2]) 8).
Proof.
  rewrite initial_deal_eq. intros H.
  pose proof (valid_card_at (entropy st)) as Hv.
  apply send_then in H. autorewrite with state in H.
  destruct H as [[-> ->] | H];
    [left; split; [reflexivity|]; exists []; split; [constructor | reflexivity]|].
  apply send_then in H. autorewrite with state in H.
  destruct H as [[-> ->] | H];
    [left; split; [reflexivity|]; exists [dealt st 0];
     split; [repeat constructor; apply Hv | reflexivity]|].
  apply send_then in H. autorewrite with state in H.
  destruct H as [[-> ->] | H];
    [left; split; [reflexivity|]; exists [dealt st 0; dealt st 1];
     split; [repeat constructor; apply Hv | reflexivity]|].
  right. inversion H; subst. split; reflexivity.
Qed.

Lemma player_phase_fuel ps : 22 - ps <= Z.of_nat (Z.to_nat (22 - ps)).
Proof. lia. Qed.

Lemma dealer_phase_traffic ps ds st r st' :
  dealer_phase ps ds st = (r, st') ->
  r <> OutOfFuel
  /\ exists cards n, st' = advance st (inbox st) (card_sends cards) n
       /\ Forall valid_card cards.
Proof.
  unfold dealer_phase. destruct (ps <=? 21).
  - intros H. split.
    + pose proof (dealer_loop_returns (Z.to_nat (17 - ds)) ds st ltac:(lia))
        as Hr.
      rewrite H in Hr. exact Hr.
    + eapply dealer_loop_traffic. exact H.
  - intros H. inversion H; subst. split; [discriminate|].
    exists [], O. cbn [card_sends map]. rewrite advance_id. auto.
Qed.

Lemma player_phase_traffic ps st r st' :
  player_phase ps st = (r, st') ->
  r <> OutOfFuel
  /\ exists i evs n, st' = advance st i evs n /\ card_traffic evs.
Proof.
  unfold player_phase. intros H. split.
  - pose proof (player_loop_returns _ ps st (player_phase_fuel ps)) as Hr.
    rewrite H in Hr. exact Hr.
  - eapply player_loop_traffic. exact H.
Qed.

Ltac solve_traffic :=
  unfold card_traffic in *;
  repeat first
    [ assumption
    | apply Forall_nil
    | apply Forall_app; split
    | apply Forall_cons;
      [first [exact I
             | eexists; split; [apply valid_card_at | reflexivity]] |]
    | apply card_traffic_sends; assumption ].

Lemma play_to_totals_eq st :
  play_to_totals st
  = bind initial_deal (fun a =>
    bind (player_phase (fst (fst a))) (fun ps =>
    bind (send_payload 0 (fst (snd a)) (snd (snd a))) (fun _ =>
    bind (dealer_phase ps (snd (fst a))) (fun ds =>
    ret (ps, ds))))) st.
Proof.
  unfold play_to_totals, bind.
  destruct (initial_deal st) as [[[[ps0 ds0] [r s]] | e |] s0]; reflexivity.
Qed.

(** Whatever happens, a round before its outcome only reads and sends
    cards, and its loops do not run out of iterations. *)
Lemma play_to_totals_traffic st r st1 :
  play_to_totals st = (r, st1) ->
  r <> OutOfFuel
  /\ exists i evs n, st1 = advance st i evs n /\ card_traffic evs.
Proof.
  rewrite play_to_totals_eq. intros H.
  assert (H3 : card_traffic (card_sends [dealt st 0; dealt st 1; dealt st 2]))
    by (apply card_traffic_sends; repeat constructor; apply valid_card_at).
  apply bind_cases in H.
  destruct H as [[a [s0 [Hdeal H]]] | [[e [Hdeal ->]] | [Hdeal ->]]];
    destruct (initial_deal_cases _ _ _ Hdeal) as [[E [cs [Hcs ->]]] | [E ->]];
    try discriminate.
  2:{ split; [discriminate|]. eexists; eexists; eexists.
      split; [reflexivity | solve_traffic]. }
  inversion E; subst a; clear E. cbn [fst snd] in H.
  apply bind_cases in H.
  destruct H as [[ps [sp [Hp H]]] | [[e [Hp ->]] | [Hp ->]]];
    destruct (player_phase_traffic _ _ _ _ Hp) as [Hne [i [evs [n [-> Ht]]]]];
    autorewrite with state in *; try congruence.
  2:{ split; [discriminate|]. eexists; eexists; eexists.
      split; [reflexivity|]. solve_traffic. }
  unfold bind at 1 in H.
  rewrite send_payload_card in H by apply valid_card_at.
  match type of H with
  | context [send ?p ?s] => destruct (send_cases p s) as [Hs | Hs]
  end; rewrite Hs in H; autorewrite with state in H.
  2:{ inversion H; subst. split; [discriminate|].
      eexists; eexists; eexists. split; [reflexivity|]. solve_traffic. }
  apply bind_cases in H.
  assert (Hall : card_traffic
                   ((card_sends [dealt st 0; dealt st 1; dealt st 2] ++ evs)
                      ++ [Send (card_packet (dealt st 3))]))
    by solve_traffic.
  destruct H as [[ds [sd [Hd H]]] | [[e [Hd ->]] | [Hd ->]]];
    destruct (dealer_phase_traffic _ _ _ _ _ Hd) as [Hne' [cs [m [E Hcs]]]];
    autorewrite with state in E; try congruence; subst.
  - inversion H; subst. split; [discriminate|].
    eexists; eexists; eexists. split; [reflexivity|]. solve_traffic.
  - split; [discriminate|].
    eexists; eexists; eexists. split; [reflexivity|]. solve_traffic.
Qed.

Lemma decide_outcome_range ps ds :
  decide_outcome ps ds = 1 \/ decide_outcome ps ds = 2
  \/ decide_outcome ps ds = 3.
Proof.
  unfold decide_outcome.
  destruct (ps >? 21); [auto|]. destruct (ds >? 21); [auto|].
  destruct (ps >? ds); [auto|]. destruct (ds >? ps); auto.
Qed.

Lemma play_round_eq st :
  play_round st
  = bind play_to_totals (fun a =>
    bind (send (payload_bytes (decide_outcome (fst a) (snd a)) 0 0)) (fun _ =>
    ret (decide_outcome (fst a) (snd a)))) st.
Proof.
  unfold play_round, bind at 1 3.
  destruct (play_to_totals st) as [[[ps ds] | e |] s1]; try reflexivity.
  cbn [fst snd]. unfold bind.
  rewrite send_payload_outcome
    by (destruct (decide_outcome_range ps ds) as [-> | [-> | ->]]; lia).
  reflexivity.
Qed.

Lemma play_round_ok_inv st r st' :
  play_round st = (Ok r, st') ->
  exists ps ds st1,
    play_to_totals st = (Ok (ps, ds), st1)
    /\ r = decide_outcome ps ds
    /\ st' = advance st1 (inbox st1) [Send (payload_bytes r 0 0)] 0.
Proof.
  rewrite play_round_eq. intros H.
  apply bind_inv_ok in H. destruct H as [[ps ds] [st1 [Ht H]]].
  cbn [fst snd] in H. apply send_then in H.
  destruct H as [[H _] | H]; [discriminate|].
  inversion H; subst. exists ps, ds, st1. auto.
Qed.

Lemma play_round_returns st : fst (play_round st) <> OutOfFuel.
Proof.
  destruct (play_round st) as [r st'] eqn:H. cbn [fst].
  rewrite play_round_eq in H. apply bind_cases in H.
  destruct H as [[a [st1 [Ht H]]] | [[e [_ ->]] | [Ht _]]].
  - apply send_then in H. destruct H as [[-> _] | H]; [discriminate|].
    inversion H. discriminate.
  - discriminate.
  - apply play_to_totals_traffic in Ht. destruct Ht as [Ht _]. congruence.
Qed.

Lemma outcome_code_card c : outcome_code (card_packet c) = 0.
Proof. reflexivity. Qed.

Lemma outcome_code_payload r rank suit :
  0 <= r <= 255 -> outcome_code (payload_bytes r rank suit) = r.
Proof.
  intros Hr. unfold outcome_code, payload_bytes. cbn [be_bytes app nth].
  apply byte_val_to_byte_small. lia.
Qed.

Lemma play_round_after_bust st ps0 ds0 hid st0 ps st1 :
  initial_deal st = (Ok (ps0, ds0, hid), st0) ->
  player_phase ps0 st0 = (Ok ps, st1) ->
  21 < ps ->
  valid_card hid
  /\ play_round st
     = bind (send (card_packet hid)) (fun _ =>
       bind (send (payload_bytes 2 0 0)) (fun _ => ret 2)) st1.
Proof.
  intros Hdeal Hp Hbust.
  assert (Hhid : valid_card hid).
  { destruct (initial_deal_cases _ _ _ Hdeal) as [[E _] | [E _]];
      inversion E; subst. apply valid_card_at. }
  split; [exact Hhid|].
  rewrite play_round_eq. unfold bind at 1.
  rewrite play_to_totals_eq, (bind_ok _ _ _ _ _ Hdeal). cbn [fst snd].
  rewrite (bind_ok _ _ _ _ _ Hp).
  unfold bind, dealer_phase, ret.
  rewrite send_payload_card by exact Hhid.
  destruct (Z.leb_spec ps 21); [lia|].
  destruct (send (card_packet hid) st1) as [[[] | e |] s2]; try reflexivity.
  cbn [fst snd]. unfold decide_outcome.
  destruct (Z.gtb_spec ps 21); [reflexivity | lia].
Qed.

Lemma dealer_loop_ok_above fuel : forall ds st ds' st',
  dealer_loop fuel ds st = (Ok ds', st') -> 17 <= ds'.
Proof.
  induction fuel as [|fuel IH]; intros ds st ds' st' Hrun.
  - cbn [dealer_loop] in Hrun. unfold out_of_fuel, ret in Hrun.
    destruct (Z.ltb_spec ds 17); inversion Hrun; subst. assumption.
  - destruct (Z.lt_ge_cases ds 17) as [Hlt | Hge].
    + destruct (dealer_loop_iter _ _ _ _ _ Hlt Hrun) as [[E _] | Hrec];
        [discriminate | exact (IH _ _ _ _ Hrec)].
    + rewrite dealer_loop_stop in Hrun by lia. inversion Hrun; subst.
      assumption.
Qed.

Lemma play_to_totals_ok_inv st ps ds st1 :
  play_to_totals st = (Ok (ps, ds), st1) ->
  exists ps0 ds0 hid st0 sp sr,
    initial_deal st = (Ok (ps0, ds0, hid), st0)
    /\ player_phase ps0 st0 = (Ok ps, sp)
    /\ send (card_packet hid) sp = (Ok tt, sr)
    /\ dealer_phase ps ds0 sr = (Ok ds, st1).
Proof.
  rewrite play_to_totals_eq. intros H.
  apply bind_inv_ok in H. destruct H as [[[ps0 ds0] hid] [st0 [Hdeal H]]].
  cbn [fst snd] in H.
  apply bind_inv_ok in H. destruct H as [ps' [sp [Hp H]]].
  apply bind_inv_ok in H. destruct H as [[] [sr [Hs H]]].
  apply bind_inv_ok in H. destruct H as [ds' [sd [Hd H]]].
  inversion H; subst.
  assert (Hhid : valid_card hid).
  { destruct (initial_deal_cases _ _ _ Hdeal) as [[E _] | [E _]];
      inversion E; subst. apply valid_card_at. }
  rewrite send_payload_card in Hs by exact Hhid.
  exists ps0, ds0, hid, st0, sp, sr. auto.
Qed.

(* ================================================================== *)
(** * The claims *)

(** C1. The value [play_round] returns is decided from the player's
    and the dealer's totals by the first rule that matches, in this
    order: player over 21 gives 2; else dealer over 21 gives 3; else
    player above dealer gives 3; else dealer above player gives 2;
    else 1.  The totals are those reached when the dealer phase ends,
    and the code is the one sent in the round's last packet.  With 22
    against 25 the outcome is 2. *)
Theorem play_round_outcome_rule :
  (forall st r st',
     play_round st = (Ok r, st') ->
     exists ps ds st1,
       play_to_totals st = (Ok (ps, ds), st1)
       /\ r = decide_outcome ps ds
       /\ sent st' = sent st1 ++ [payload_bytes r 0 0])
  /\ (forall ps ds,
        (21 < ps -> decide_outcome ps ds = 2)
        /\ (ps <= 21 -> 21 < ds -> decide_outcome ps ds = 3)
        /\ (ps <= 21 -> ds <= 21 -> ds < ps -> decide_outcome ps ds = 3)
        /\ (ps <= 21 -> ds <= 21 -> ps < ds -> decide_outcome ps ds = 2)
        /\ (ps <= 21 -> ds <= 21 -> ps = ds -> decide_outcome ps ds = 1))
  /\ decide_outcome 22 25 = 2.
Proof.
  split; [|split; [|reflexivity]].
  - intros st r st' H.
    destruct (play_round_ok_inv _ _ _ H) as [ps [ds [st1 [Ht [-> ->]]]]].
    exists ps, ds, st1. rewrite sent_advance. auto.
  - intros ps ds. unfold decide_outcome.
    destruct (Z.gtb_spec ps 21), (Z.gtb_spec ds 21), (Z.gtb_spec ps ds),
      (Z.gtb_spec ds ps); repeat split; intros; try reflexivity; lia.
Qed.

Lemma play_round_outcome_rule_witness :
  exists ps ds st1,
    play_to_totals stand_table = (Ok (ps, ds), st1)
    /\ 3 = decide_outcome ps ds
    /\ sent (snd (play_round stand_table))
       = sent st1 ++ [payload_bytes 3 0 0].
Proof.
  apply (proj1 play_round_outcome_rule stand_table 3
           (snd (play_round stand_table))).
  vm_compute. reflexivity.
Defined.

(** C5. The dealer's drawing phase does nothing when the player's
    total is over 21, and nothing when the dealer's total is already
    17 or more.  Otherwise, on a connection whose sends succeed, the
    dealer takes the next cards of the source one by one: it draws
    while its total is below 17 and stops at the first total that
    reaches 17, having sent each drawn card.  So whenever a round
    reaches its outcome, the player is over 21 or the dealer stands
    at 17 or more. *)
Theorem dealer_hits_to_17 :
  (forall ps ds st, 21 < ps -> dealer_phase ps ds st = (Ok ds, st))
  /\ (forall ps ds st, 17 <= ds -> dealer_phase ps ds st = (Ok ds, st))
  /\ (forall ps ds st,
        ps <= 21 -> reliable st ->
        exists k,
          dealer_phase ps ds st
          = (Ok (ds + hand_value (cards_from (entropy st) (drawn st) k)),
             advance st (inbox st)
               (card_sends (cards_from (entropy st) (drawn st) k)) (2 * k))
          /\ 17 <= ds + hand_value (cards_from (entropy st) (drawn st) k)
          /\ forall j, (j < k)%nat ->
               ds + hand_value
                      (firstn j (cards_from (entropy st) (drawn st) k))
               < 17)
  /\ (forall st ps ds st1,
        play_to_totals st = (Ok (ps, ds), st1) -> 21 < ps \/ 17 <= ds).
Proof.
  split; [|split; [|split]].
  4:{ intros st ps ds st1 H.
      destruct (play_to_totals_ok_inv _ _ _ _ H)
        as [ps0 [ds0 [hid [st0 [sp [sr [_ [_ [_ Hd]]]]]]]]].
      unfold dealer_phase in Hd.
      destruct (Z.leb_spec ps 21); [right | left; assumption].
      exact (dealer_loop_ok_above _ _ _ _ _ Hd). }
  - intros ps ds st H. unfold dealer_phase.
    destruct (Z.leb_spec ps 21); [lia | reflexivity].
  - intros ps ds st H. unfold dealer_phase.
    destruct (ps <=? 21); [apply dealer_loop_stop; exact H | reflexivity].
  - intros ps ds st Hps Hrel. unfold dealer_phase.
    destruct (Z.leb_spec ps 21); [|lia].
    apply dealer_loop_reliable; [exact Hrel | lia].
Qed.

Lemma dealer_hits_to_17_witness :
  dealer_phase 22 12 draw_table = (Ok 12, draw_table)
  /\ dealer_phase 19 18 draw_table = (Ok 18, draw_table)
  /\ exists k,
       dealer_phase 19 12 (snd (player_phase 19 (snd (initial_deal draw_table))))
       = (Ok (12 + hand_value
                     (cards_from (entropy draw_table) 8 k)),
          advance (snd (player_phase 19 (snd (initial_deal draw_table))))
            [] (card_sends (cards_from (entropy draw_table) 8 k)) (2 * k))
       /\ 17 <= 12 + hand_value (cards_from (entropy draw_table) 8 k)
       /\ (forall j, (j < k)%nat ->
            12 + hand_value (firstn j (cards_from (entropy draw_table) 8 k))
            < 17)
       /\ (21 < 19 \/ 17 <= 19).
Proof.
  split; [|split].
  - apply (proj1 dealer_hits_to_17). reflexivity.
  - apply (proj1 (proj2 dealer_hits_to_17)). discriminate.
  - destruct (proj1 (proj2 (proj2 dealer_hits_to_17)) 19 12
                (snd (player_phase 19 (snd (initial_deal draw_table)))))
      as [k [Hrun [Hstop Hbelow]]].
    + discriminate.
    + intros n. vm_compute. reflexivity.
    + exists k. repeat split; try assumption.
      apply (proj2 (proj2 (proj2 dealer_hits_to_17)) draw_table 19 19
               (snd (play_to_totals draw_table))).
      vm_compute. reflexivity.
Defined.

(** C6. When the player's total is over 21 at the end of the player
    phase, that phase ended right after the card that carried the
    total over 21 was sent (or without any read when the two dealt
    cards already total 22); from there on [play_round] reads nothing
    more, draws nothing for the dealer, and its result is 2, or the
    error of a failed send.  When every send succeeds it sends the
    dealer's hidden card and the outcome 2 and returns 2. *)
Theorem bust_ends_round st ps0 ds0 hid st0 ps st1 :
  initial_deal st = (Ok (ps0, ds0, hid), st0) ->
  player_phase ps0 st0 = (Ok ps, st1) ->
  21 < ps ->
  ((ps = ps0 /\ st1 = st0)
   \/ exists pre data c,
        log st1 = log st0 ++ pre ++ [Recv data; Send (card_packet c)]
        /\ decode_decision data = Ok (lit "Hittt")
        /\ valid_card c
        /\ ps - card_value (fst c) <= 21)
  /\ (forall r st',
        play_round st = (r, st') ->
        (r = Ok 2 \/ r = Raise OSError)
        /\ received st' = received st1
        /\ inbox st' = inbox st1
        /\ drawn st' = drawn st1)
  /\ (reliable st ->
      play_round st
      = (Ok 2,
         advance st1 (inbox st1)
           [Send (card_packet hid); Send (payload_bytes 2 0 0)] 0)).
Proof.
  intros Hdeal Hp Hbust.
  destruct (play_round_after_bust _ _ _ _ _ _ _ Hdeal Hp Hbust) as [Hhid Heq].
  split; [|split].
  - unfold player_phase in Hp. exact (player_loop_bust _ _ _ _ _ Hp Hbust).
  - intros r st' H. rewrite Heq in H.
    apply send_then in H. destruct H as [[-> ->] | H]; [auto|].
    apply send_then in H. autorewrite with state in H.
    destruct H as [[-> ->] | H].
    + rewrite received_advance. cbn [recvs_of flat_map app].
      rewrite app_nil_r. auto.
    + inversion H; subst. rewrite received_advance.
      cbn [recvs_of flat_map app]. rewrite app_nil_r. auto.
  - intros Hrel. rewrite Heq.
    assert (Hrel1 : reliable st1).
    { destruct (initial_deal_cases _ _ _ Hdeal) as [[E _] | [_ ->]];
        [discriminate|].
      destruct (player_phase_traffic _ _ _ _ Hp) as [_ [i [evs [n [-> _]]]]].
      intros k. apply Hrel. }
    rewrite (bind_ok _ _ _ _ _ (send_reliable _ _ Hrel1)).
    rewrite (bind_ok _ _ _ _ _
               (send_reliable _ _ (reliable_advance _ _ _ _ Hrel1))).
    autorewrite with state. reflexivity.
Qed.

Lemma bust_ends_round_witness :
  fst (play_round bust_table) = Ok 2
  /\ inbox (snd (play_round bust_table)) = [Data stand_packet]
  /\ drawn (snd (play_round bust_table)) = 10%nat.
Proof.
  destruct (bust_ends_round bust_table 19 18 (8, 3)
              (snd (initial_deal bust_table)) 24
              (snd (player_phase 19 (snd (initial_deal bust_table)))))
    as [_ [_ H]].
  - vm_compute. reflexivity.
  - vm_compute. reflexivity.
  - reflexivity.
  - rewrite H by (intros n; vm_compute; reflexivity).
    vm_compute. repeat split.
Defined.

(** C7. A round that completes sends, after any number of card
    packets (outcome code 0, a rank from 1 to 13), exactly one packet
    with a nonzero outcome code: the code is the returned result, one
    of 1, 2 and 3, its rank and suit bytes are 0, and it is the last
    thing the round does on the connection. *)
Theorem one_outcome_sent_last st r st' :
  play_round st = (Ok r, st') ->
  (r = 1 \/ r = 2 \/ r = 3)
  /\ exists cards,
       Forall valid_card cards
       /\ sent st' = sent st ++ map card_packet cards ++ [payload_bytes r 0 0]
       /\ Forall (fun p => outcome_code p = 0) (map card_packet cards)
       /\ outcome_code (payload_bytes r 0 0) = r
       /\ payload_bytes r 0 0
          = [xab; xcd; xdc; xba; x04; to_byte r; x00; x00; x00]
       /\ exists earlier,
            log st' = log st ++ earlier ++ [Send (payload_bytes r 0 0)].
Proof.
  intros H.
  destruct (play_round_ok_inv _ _ _ H) as [ps [ds [st1 [Ht [Hr ->]]]]].
  assert (Hrange : r = 1 \/ r = 2 \/ r = 3)
    by (rewrite Hr; apply decide_outcome_range).
  split; [exact Hrange|].
  destruct (play_to_totals_traffic _ _ _ Ht) as [_ [i [evs [n [-> Htr]]]]].
  destruct (sends_of_traffic _ Htr) as [cards [Hv Hs]].
  exists cards. autorewrite with state.
  rewrite sent_advance. unfold sends_of at 1. rewrite flat_map_app.
  fold (sends_of evs). rewrite Hs.
  repeat split.
  - exact Hv.
  - apply Forall_forall. intros p Hin. apply in_map_iff in Hin.
    destruct Hin as [c [<- _]]. apply outcome_code_card.
  - apply outcome_code_payload. lia.
  - exists evs. cbn [log advance]. rewrite app_assoc. reflexivity.
Qed.

Lemma one_outcome_sent_last_witness :
  exists cards,
    Forall valid_card cards
    /\ sent (snd (play_round draw_table))
       = sent draw_table ++ map card_packet cards ++ [payload_bytes 1 0 0].
Proof.
  destruct (one_outcome_sent_last draw_table 1 (snd (play_round draw_table)))
    as [_ [cards [Hv [Hs _]]]].
  - vm_compute. reflexivity.
  - exists cards. split; assumption.
Defined.

(** ** The codec *)

Lemma offer_round_trip port name :
  0 <= port <= 65535 -> length name = 32%nat ->
  exists packet,
    offer_packet port name = Ok packet
    /\ length packet = 39%nat
    /\ client.parse_offer packet = Ok (Some (port, name)).
Proof.
  intros Hport Hname.
  assert (Hpack : offer_packet port name
                  = Ok ([xab; xcd; xdc; xba] ++ [to_byte OFFER_TYPE]
                          ++ be_bytes 2 port ++ name ++ [])).
  { unfold offer_packet, fmt_IBH32s.
    cbn [struct.pack struct.pack_one struct.size].
    rewrite pack_I_cookie, pack_B, pack_H, pack_s_exact
      by (unfold OFFER_TYPE; lia || assumption).
    reflexivity. }
  eexists. split; [exact Hpack|].
  destruct (unpack_pack _ _ _ Hpack) as [Hlen _].
  pose proof (unpack_pack_ok _ _ _ Hpack) as Hun.
  change (struct.calcsize fmt_IBH32s) with 39%nat in Hlen.
  split; [exact Hlen|].
  unfold client.parse_offer. rewrite Hlen. cbn [Nat.ltb Nat.leb].
  rewrite <- Hlen at 1. rewrite firstn_all, Hun.
  cbn [res_bind struct_canon_all fmt_IBH32s struct_canon].
  rewrite pack_s_exact by assumption. reflexivity.
Qed.

Lemma request_round_trip rounds name :
  0 <= rounds <= 255 -> length name = 32%nat ->
  exists packet,
    client.request_packet rounds name = Ok packet
    /\ length packet = 38%nat
    /\ parse_request packet = Ok (Some (rounds, name)).
Proof.
  intros Hrounds Hname.
  assert (Hpack : client.request_packet rounds name
                  = Ok ([xab; xcd; xdc; xba] ++ [to_byte 3]
                          ++ [to_byte rounds] ++ name ++ [])).
  { unfold client.request_packet, fmt_IBB32s.
    cbn [struct.pack struct.pack_one struct.size].
    rewrite pack_I_cookie, !pack_B, pack_s_exact by (lia || assumption).
    reflexivity. }
  remember ([xab; xcd; xdc; xba] ++ [to_byte 3]
              ++ [to_byte rounds] ++ name ++ []) as packet eqn:Epacket.
  clear Epacket. exists packet. split; [exact Hpack|].
  destruct (unpack_pack _ _ _ Hpack) as [Hlen _].
  pose proof (unpack_pack_ok _ _ _ Hpack) as Hun.
  change (struct.calcsize fmt_IBB32s) with 38%nat in Hlen.
  split; [exact Hlen|].
  unfold parse_request. destruct packet as [|b0 packet']; [discriminate|].
  rewrite Hlen. cbn [Nat.ltb Nat.leb].
  rewrite <- Hlen at 1. rewrite firstn_all, Hun.
  cbn [res_bind struct_canon_all fmt_IBB32s struct_canon].
  rewrite pack_s_exact by assumption. reflexivity.
Qed.

Lemma decision_round_trip choice :
  exists packet,
    client.decision_packet (client.decision_of_choice choice) = Ok packet
    /\ decode_decision packet = Ok (client.decision_of_choice choice).
Proof.
  unfold client.decision_of_choice.
  destruct (pystr_eqb choice (lit "h")); eexists; split;
    vm_compute; reflexivity.
Qed.

Lemma payload_round_trip result rank suit st rest :
  0 <= result <= 255 -> 0 <= rank <= 65535 -> 0 <= suit <= 255 ->
  inbox st = Data (payload_bytes result rank suit) :: rest ->
  payload_packet result rank suit = Ok (payload_bytes result rank suit)
  /\ client.safe_recv st
     = (Ok (result, rank, suit),
        advance st rest [Recv (payload_bytes result rank suit)] 0).
Proof.
  intros Hres Hrank Hsuit Hin.
  split; [apply payload_packet_ok; assumption|].
  unfold client.safe_recv, client.safe_recv_try.
  assert (Hrecv : recv 9 st
                  = (Ok (payload_bytes result rank suit),
                     advance st rest [Recv (payload_bytes result rank suit)] 0)).
  { unfold recv. rewrite Hin. reflexivity. }
  rewrite (bind_ok _ _ _ _ _ Hrecv).
  change (Nat.ltb (length (payload_bytes result rank suit)) 9) with false.
  cbv iota. unfold bind, lift.
  rewrite unpack_payload_bytes by assumption.
  change (negb (MAGIC_COOKIE =? MAGIC_COOKIE)) with false. cbv iota.
  unfold ret. rewrite rank_split_join by assumption. reflexivity.
Qed.

(** C3. Each of the four messages decodes to what was encoded, field
    by field, when the fields fit the wire: an Offer with a port in
    0..65535 and a 32-byte name through the client's parser, a Request
    with a round count in 0..255 and a 32-byte name through the
    server's parser, a Decision built from any choice through the
    server's decoding, a Round-Payload with result and suit in 0..255
    and rank in 0..65535 through [safe_recv]; in particular the join
    [(r_h << 8) | r_l] undoes the server's split of the rank. *)
Theorem codec_round_trip :
  (forall port name,
     0 <= port <= 65535 -> length name = 32%nat ->
     exists packet,
       offer_packet port name = Ok packet
       /\ client.parse_offer packet = Ok (Some (port, name)))
  /\ (forall rounds name,
        0 <= rounds <= 255 -> length name = 32%nat ->
        exists packet,
          client.request_packet rounds name = Ok packet
          /\ parse_request packet = Ok (Some (rounds, name)))
  /\ (forall choice,
        exists packet,
          client.decision_packet (client.decision_of_choice choice)
          = Ok packet
          /\ decode_decision packet = Ok (client.decision_of_choice choice))
  /\ (forall result rank suit,
        0 <= result <= 255 -> 0 <= rank <= 65535 -> 0 <= suit <= 255 ->
        exists packet,
          payload_packet result rank suit = Ok packet
          /\ forall st rest,
               inbox st = Data packet :: rest ->
               fst (client.safe_recv st) = Ok (result, rank, suit))
  /\ (forall r,
        0 <= r <= 65535 ->
        payload_bytes 0 r 0
        = [xab; xcd; xdc; xba; x04; x00;
           to_byte (Z.land (Z.shiftr r 8) 0xFF); to_byte (Z.land r 0xFF);
           x00]
        /\ Z.lor (Z.shiftl (Z.land (Z.shiftr r 8) 0xFF) 8) (Z.land r 0xFF)
           = r).
Proof.
  split; [|split; [|split; [|split]]].
  - intros port name Hp Hn.
    destruct (offer_round_trip port name Hp Hn) as [pkt [H1 [_ H2]]]. eauto.
  - intros rounds name Hr Hn.
    destruct (request_round_trip rounds name Hr Hn) as [pkt [H1 [_ H2]]].
    eauto.
  - exact decision_round_trip.
  - intros result rank suit Hres Hrank Hsuit.
    exists (payload_bytes result rank suit).
    split; [apply payload_packet_ok; assumption|].
    intros st rest Hin.
    destruct (payload_round_trip _ _ _ _ _ Hres Hrank Hsuit Hin) as [_ ->].
    reflexivity.
  - intros r Hr. split; [reflexivity | apply rank_split_join; exact Hr].
Qed.

Lemma codec_round_trip_witness :
  (exists packet,
     offer_packet 5000 server_name_bytes = Ok packet
     /\ client.parse_offer packet = Ok (Some (5000, server_name_bytes)))
  /\ (exists packet,
        client.request_packet 3 team_name_bytes = Ok packet
        /\ parse_request packet = Ok (Some (3, team_name_bytes)))
  /\ (exists packet,
        payload_packet 0 13 3 = Ok packet
        /\ forall st rest,
             inbox st = Data packet :: rest ->
             fst (client.safe_recv st) = Ok (0, 13, 3))
  /\ Z.lor (Z.shiftl (Z.land (Z.shiftr 13 8) 0xFF) 8) (Z.land 13 0xFF) = 13.
Proof.
  destruct codec_round_trip as [Hoffer [Hreq [_ [Hpay Hrank]]]].
  split; [|split; [|split]].
  - apply Hoffer; [lia | reflexivity].
  - apply Hreq; [lia | reflexivity].
  - apply Hpay; lia.
  - apply (Hrank 13). lia.
Defined.

(** ** Card values *)

Lemma calculate_points_fold hand : forall acc,
  fold_left
    (fun total card =>
       let r := fst card in
       if r =? 1 then total + 11
       else if r >=? 11 then total + 10
       else total + r)
    hand acc
  = acc + hand_value hand.
Proof.
  induction hand as [|c hand IH]; intros acc.
  - cbn [fold_left hand_value fold_right]. lia.
  - cbn [fold_left hand_value fold_right]. rewrite IH.
    fold (hand_value hand). unfold card_value. rewrite Z.geb_leb.
    destruct (fst c =? 1); [lia|]. destruct (11 <=? fst c); lia.
Qed.

Lemma calculate_points_hand_value hand :
  client.calculate_points hand = hand_value hand.
Proof. unfold client.calculate_points. apply calculate_points_fold. Qed.




(** ** Decisions on the wire *)

(** C9, as the code has it.  A Decision packet is 10 bytes: the 4-byte
    cookie, the type byte 4 and the 5-byte action, which is "Hittt" or
    "Stand"; the server's unpacking accepts a buffer exactly when it
    is 10 bytes long and raises [struct.error] on any other length. *)
Theorem decision_packet_layout :
  (forall choice,
     exists action,
       (action = ["H"; "i"; "t"; "t"; "t"]%byte
        \/ action = ["S"; "t"; "a"; "n"; "d"]%byte)
       /\ client.decision_packet (client.decision_of_choice choice)
          = Ok (be_bytes 4 MAGIC_COOKIE ++ [x04] ++ action)
       /\ length (be_bytes 4 MAGIC_COOKIE ++ [x04] ++ action) = 10%nat)
  /\ (forall data,
        (exists fields, struct.unpack fmt_IB5s data = Ok fields)
        <-> length data = 10%nat)
  /\ (forall data,
        length data <> 10%nat -> decode_decision data = Raise StructError).
Proof.
  split; [|split].
  - intros choice. unfold client.decision_of_choice.
    destruct (pystr_eqb choice (lit "h")); eexists; split;
      try (split; vm_compute; reflexivity); auto.
  - intros data. apply (unpack_length fmt_IB5s).
  - exact decode_decision_length.
Qed.

Lemma decision_packet_layout_witness :
  decode_decision (firstn 9 hit_packet) = Raise StructError.
Proof.
  apply (proj2 (proj2 decision_packet_layout)). discriminate.
Defined.

Lemma stand_packet_encoded :
  client.decision_packet (client.decision_of_choice (lit "s"))
  = Ok stand_packet.
Proof. vm_compute. reflexivity. Qed.

(** C9 as stated fails: the packet the client builds for a hit is 10
    bytes long, not 9, and its first 9 bytes are refused. *)
Lemma decision_packet_is_ten_bytes :
  client.decision_packet (client.decision_of_choice (lit "h"))
  = Ok hit_packet
  /\ length hit_packet = 10%nat
  /\ length hit_packet <> 9%nat
  /\ decode_decision (firstn 9 hit_packet) = Raise StructError
  /\ decode_decision hit_packet = Ok (lit "Hittt").
Proof. repeat split; try discriminate; vm_compute; reflexivity. Qed.

(** C2 at the failing input.  The Decision decoding never looks at the
    first five bytes: whatever the cookie and the type are, the action
    is obeyed.  On [forged_table] the forged hit is read and a card is
    dealt and sent for it.  The Request, by contrast, is dropped when
    its cookie is wrong, and so is a Round-Payload on the client. *)
Theorem decision_cookie_is_ignored :
  (forall b0 b1 b2 b3 b4 : byte,
     decode_decision
       ([b0; b1; b2; b3; b4] ++ ["H"; "i"; "t"; "t"; "t"]%byte)
     = Ok (lit "Hittt"))
  /\ be_value (firstn 4 forged_hit) <> MAGIC_COOKIE
  /\ fst (play_round forged_table) = Ok 3
  /\ log (snd (play_round forged_table))
     = card_sends [(10, 0); (9, 1); (10, 2)]
         ++ [Recv forged_hit; Send (card_packet (2, 0))]
         ++ [Recv stand_packet; Send (card_packet (8, 3));
             Send (payload_bytes 3 0 0)]
  /\ parse_request (x00 :: skipn 1 (request_bytes 1)) = Ok None
  /\ fst (client.safe_recv
            (fresh [Data (x00 :: skipn 1 (payload_bytes 0 13 3))] []))
     = Ok (0, 0, 0).
Proof.
  split; [intros; reflexivity|].
  repeat split; try discriminate; vm_compute; reflexivity.
Qed.

(** ** Statistics *)

Lemma update_global_stats_eq result st :
  stats_ok st ->
  update_global_stats result st
  = (Ok tt,
     if result =? 3
     then with_stats (total_wins st) (total_losses st + 1) (total_ties st) st
     else if result =? 2
     then with_stats (total_wins st + 1) (total_losses st) (total_ties st) st
     else with_stats (total_wins st) (total_losses st) (total_ties st + 1) st).
Proof.
  intros [Hw [Hl Ht]]. unfold update_global_stats.
  change 0x3 with 3. change 0x2 with 2.
  destruct (result =? 3); [|destruct (result =? 2)];
    cbn [with_stats total_wins total_losses total_ties];
    match goal with
    | |- context [?t =? 0] => destruct (Z.eqb_spec t 0) as [E | E]
    end; try lia; reflexivity.
Qed.

(** C10. Whatever the result, [update_global_stats] adds one to
    exactly one counter (3 to the losses, 2 to the wins, anything else
    to the ties) and leaves the other two alone; the total it then
    divides by is at least 1, so the call returns without a division
    by zero. *)
Theorem update_global_stats_counts result st :
  stats_ok st ->
  exists st',
    update_global_stats result st = (Ok tt, st')
    /\ (result = 3 ->
        total_losses st' = total_losses st + 1
        /\ total_wins st' = total_wins st /\ total_ties st' = total_ties st)
    /\ (result = 2 ->
        total_wins st' = total_wins st + 1
        /\ total_losses st' = total_losses st
        /\ total_ties st' = total_ties st)
    /\ (result <> 3 -> result <> 2 ->
        total_ties st' = total_ties st + 1
        /\ total_wins st' = total_wins st
        /\ total_losses st' = total_losses st)
    /\ total_games st' = total_games st + 1
    /\ 1 <= total_games st'
    /\ stats_ok st'
    /\ log st' = log st /\ inbox st' = inbox st /\ drawn st' = drawn st.
Proof.
  intros Hok. eexists. split; [apply update_global_stats_eq; exact Hok|].
  destruct Hok as [Hw [Hl Ht]]. unfold total_games, stats_ok.
  destruct (Z.eqb_spec result 3) as [E3 | E3];
    [|destruct (Z.eqb_spec result 2) as [E2 | E2]];
    cbn [with_stats total_wins total_losses total_ties log inbox drawn];
    repeat split; intros; try lia.
Qed.

Lemma update_global_stats_counts_witness :
  exists st',
    update_global_stats 7 stand_table = (Ok tt, st')
    /\ total_ties st' = 1 /\ total_games st' = 1.
Proof.
  destruct (update_global_stats_counts 7 stand_table)
    as [st' [Hrun [_ [_ [Hties [Hgames _]]]]]].
  - vm_compute. repeat split; discriminate.
  - exists st'. split; [exact Hrun|]. split.
    + apply Hties; discriminate.
    + exact Hgames.
Defined.

(** ** Failed reads and the session *)

Lemma play_round_advance st r st' :
  play_round st = (r, st') -> exists i evs n, st' = advance st i evs n.
Proof.
  rewrite play_round_eq. intros H. apply bind_cases in H.
  destruct H as [[a [st1 [Ht H]]] | [[e [Ht _]] | [Ht _]]];
    destruct (play_to_totals_traffic _ _ _ Ht) as [_ [i [evs [n [-> _]]]]];
    try (exists i, evs, n; reflexivity).
  apply send_then in H. destruct H as [[_ ->] | H].
  - exists i, evs, n. reflexivity.
  - inversion H; subst. autorewrite with state. eauto.
Qed.

Lemma player_phase_reads ps st :
  ps <= 21 -> exists fuel, player_phase ps st = player_loop (S fuel) ps st.
Proof.
  intros H. unfold player_phase.
  destruct (Z.to_nat (22 - ps)) as [|fuel] eqn:E; [lia|].
  exists fuel. reflexivity.
Qed.

Lemma play_round_raise_in_player st ps0 ds0 hid st0 e st1 :
  initial_deal st = (Ok (ps0, ds0, hid), st0) ->
  player_phase ps0 st0 = (Raise e, st1) ->
  play_round st = (Raise e, st1).
Proof.
  intros Hdeal Hp. rewrite play_round_eq. apply bind_raise.
  rewrite play_to_totals_eq, (bind_ok _ _ _ _ _ Hdeal). cbn [fst snd].
  apply bind_raise. exact Hp.
Qed.

Lemma play_round_after_stand st ps0 ds0 hid st0 ps st1 :
  initial_deal st = (Ok (ps0, ds0, hid), st0) ->
  player_phase ps0 st0 = (Ok ps, st1) ->
  ps <= 21 -> reliable st1 ->
  exists k,
    play_round st
    = (Ok (decide_outcome ps
             (ds0 + hand_value (cards_from (entropy st1) (drawn st1) k))),
       advance st1 (inbox st1)
         ([Send (card_packet hid)]
            ++ card_sends (cards_from (entropy st1) (drawn st1) k)
            ++ [Send (payload_bytes
                        (decide_outcome ps
                           (ds0 + hand_value
                                    (cards_from (entropy st1) (drawn st1) k)))
                        0 0)])
         (2 * k)).
Proof.
  intros Hdeal Hp Hps Hrel.
  assert (Hhid : valid_card hid).
  { destruct (initial_deal_cases _ _ _ Hdeal) as [[E _] | [E _]];
      inversion E; subst. apply valid_card_at. }
  destruct (dealer_loop_reliable (Z.to_nat (17 - ds0)) ds0
              (advance st1 (inbox st1) [Send (card_packet hid)] 0)
              (reliable_advance _ _ _ _ Hrel) ltac:(lia))
    as [k [Hrun _]].
  autorewrite with state in Hrun. cbn [Nat.add] in Hrun.
  exists k. rewrite play_round_eq.
  assert (Ht : play_to_totals st
               = (Ok (ps, ds0 + hand_value
                                  (cards_from (entropy st1) (drawn st1) k)),
                  advance st1 (inbox st1)
                    ([Send (card_packet hid)]
                       ++ card_sends (cards_from (entropy st1) (drawn st1) k))
                    (2 * k))).
  { rewrite play_to_totals_eq, (bind_ok _ _ _ _ _ Hdeal). cbn [fst snd].
    rewrite (bind_ok _ _ _ _ _ Hp).
    unfold bind at 1. rewrite send_payload_card by exact Hhid.
    rewrite (send_reliable _ _ Hrel).
    unfold dealer_phase. destruct (Z.leb_spec ps 21); [|lia].
    rewrite (bind_ok _ _ _ _ _ Hrun). unfold ret.
    f_equal. f_equal. lia. }
  rewrite (bind_ok _ _ _ _ _ Ht). cbn [fst snd].
  rewrite (bind_ok _ _ _ _ _
             (send_reliable _ _ (reliable_advance _ _ _ _ Hrel))).
  autorewrite with state. unfold ret. rewrite <- app_assoc.
  cbn [Nat.add]. reflexivity.
Qed.

Lemma reliable_after_deal st a st0 :
  initial_deal st = (Ok a, st0) -> reliable st -> reliable st0.
Proof.
  intros Hdeal Hrel.
  destruct (initial_deal_cases _ _ _ Hdeal) as [[E _] | [_ ->]];
    [discriminate | intros k; apply Hrel].
Qed.

(** C8.  The code does not do what the claim says.  On
    [silent_session] the peer asks for one round and disconnects: the
    read for the Decision returns no data.  The server nevertheless
    goes on with the round: it reveals the hidden card, sends the
    outcome 3 and counts one loss. *)
Lemma empty_read_round_goes_on :
  fst (handle_client silent_session) = Ok tt
  /\ log (snd (handle_client silent_session))
     = [Recv (request_bytes 1)]
         ++ card_sends [(10, 0); (9, 1); (10, 2)]
         ++ [Recv []; Send (card_packet (8, 3)); Send (payload_bytes 3 0 0);
             Close]
  /\ total_losses (snd (handle_client silent_session)) = 1
  /\ total_games (snd (handle_client silent_session)) = 1.
Proof. vm_compute. repeat split. Qed.

(** ** The session always ends *)

Lemma rounds_loop_returns rounds : forall st,
  fst (rounds_loop rounds st) <> OutOfFuel.
Proof.
  induction rounds as [|rounds IH]; intros st; [discriminate|].
  cbn [rounds_loop]. unfold bind at 1.
  pose proof (play_round_returns st) as Hr.
  destruct (play_round st) as [[r | e |] st1]; cbn [fst] in *;
    try discriminate; try congruence.
  unfold bind. unfold update_global_stats at 1.
  match goal with
  | |- context [if ?c =? 0 then _ else _] => destruct (c =? 0)
  end; [discriminate | apply IH].
Qed.

Lemma handle_client_closes st :
  exists st1, handle_client st = (Ok tt, log_event Close st1).
Proof.
  unfold handle_client.
  destruct (handle_client_try st) as [[[] | e |] st1] eqn:H;
    try (exists st1; reflexivity).
  exfalso. unfold handle_client_try in H.
  apply bind_cases in H.
  destruct H as [[data [s1 [Hrecv H]]] | [[e [_ H]] | [Hrecv _]]];
    try discriminate.
  - apply bind_cases in H.
    destruct H as [[req [s2 [Hparse H]]] | [[e [_ H]] | [Hparse _]]];
      try discriminate.
    + destruct req as [[rounds name]|]; [|discriminate].
      pose proof (rounds_loop_returns (Z.to_nat rounds) s2) as Hr.
      rewrite H in Hr. apply Hr. reflexivity.
    + unfold lift, parse_request, struct.unpack in Hparse.
      destruct data as [|b data']; [discriminate|].
      destruct (Nat.ltb _ _); [discriminate|].
      destruct (Nat.eqb _ _); [|discriminate].
      cbn [res_bind] in Hparse.
      destruct (struct.unpack_fields _ _) as [|[c|c] [|[t|t] [|[r|r] [|[n|n] [|]]]]];
        try discriminate.
      destruct (negb _ || negb _); discriminate.
  - destruct (recv_cases _ _ _ _ Hrecv) as [[d [i [E _]]] | [i [E _]]];
      discriminate.
Qed.

(** The counters stay at or above zero through a session, so no call
    of [update_global_stats] in it divides by zero. *)
Lemma rounds_loop_stats_ok rounds : forall st,
  stats_ok st -> stats_ok (snd (rounds_loop rounds st)).
Proof.
  induction rounds as [|rounds IH]; intros st Hok; [exact Hok|].
  cbn [rounds_loop]. unfold bind at 1.
  destruct (play_round st) as [r st1] eqn:Hround.
  destruct (play_round_advance _ _ _ Hround) as [i [evs [n ->]]].
  assert (Hok1 : stats_ok (advance st i evs n)) by exact Hok.
  destruct r as [r | e |]; try exact Hok1.
  unfold bind. rewrite update_global_stats_eq by exact Hok1.
  apply IH. destruct Hok as [Hw [Hl Ht]]. unfold stats_ok.
  destruct (r =? 3); [|destruct (r =? 2)];
    cbn [with_stats advance total_wins total_losses total_ties];
    repeat split; lia.
Qed.

(** The names the programs put on the wire are 32 bytes long. *)
Lemma broadcast_packet_eq port :
  broadcast_packet port = offer_packet port server_name_bytes
  /\ length server_name_bytes = 32%nat.
Proof.
  split; [|vm_compute; reflexivity].
  unfold broadcast_packet.
  change (utf8_encode SERVER_NAME) with (Ok server_name_bytes).
  reflexivity.
Qed.

Lemma session_request_eq num_rounds :
  client.session_request num_rounds
  = client.request_packet num_rounds team_name_bytes
  /\ length team_name_bytes = 32%nat.
Proof.
  split; [|vm_compute; reflexivity].
  unfold client.session_request.
  change (utf8_encode client.TEAM_NAME) with (Ok team_name_bytes).
  reflexivity.
Qed.

(* ================================================================== *)
(** * Further properties of the code *)

(** ** What the parsers accept *)

Lemma byte_val_inj a b : byte_val a = byte_val b -> a = b.
Proof.
  intros H. rewrite <- (to_byte_val a), <- (to_byte_val b), H. reflexivity.
Qed.

Lemma be_value_1 b : be_value [b] = byte_val b.
Proof. reflexivity. Qed.

Lemma be_value_2 a b : be_value [a; b] = byte_val a * 256 + byte_val b.
Proof.
  unfold be_value. cbn [fold_left].
  change (Z.lor (Z.shiftl 0 8) (byte_val a)) with (byte_val a).
  rewrite lor_shiftl_small by (try lia; apply byte_val_range).
  reflexivity.
Qed.

Lemma be_value_4 a b c d :
  be_value [a; b; c; d]
  = ((byte_val a * 256 + byte_val b) * 256 + byte_val c) * 256 + byte_val d.
Proof.
  unfold be_value. cbn [fold_left].
  change (Z.lor (Z.shiftl 0 8) (byte_val a)) with (byte_val a).
  rewrite !lor_shiftl_small by (try lia; apply byte_val_range).
  reflexivity.
Qed.

Lemma cookie_check a b c d :
  negb (be_value [a; b; c; d] =? MAGIC_COOKIE) = false
  <-> [a; b; c; d] = [xab; xcd; xdc; xba].
Proof.
  rewrite be_value_4, negb_false_iff, Z.eqb_eq. unfold MAGIC_COOKIE.
  pose proof (byte_val_range a). pose proof (byte_val_range b).
  pose proof (byte_val_range c). pose proof (byte_val_range d).
  split.
  - intros E.
    assert (byte_val a = byte_val xab /\ byte_val b = byte_val xcd
            /\ byte_val c = byte_val xdc /\ byte_val d = byte_val xba)
      as [Ha [Hb [Hc Hd]]]
      by (change (byte_val xab) with 171; change (byte_val xcd) with 205;
          change (byte_val xdc) with 220; change (byte_val xba) with 186;
          lia).
    apply byte_val_inj in Ha, Hb, Hc, Hd. subst. reflexivity.
  - intros E. inversion E; subst. reflexivity.
Qed.

Lemma type_check b t :
  0 <= t < 256 ->
  negb (be_value [b] =? t) = false <-> b = to_byte t.
Proof.
  intros Ht. rewrite be_value_1, negb_false_iff, Z.eqb_eq. split.
  - intros <-. symmetry. apply to_byte_val.
  - intros ->. apply byte_val_to_byte_small. exact Ht.
Qed.

Tactic Notation "peel" ident(data) ident(Hlen) integer(n) :=
  do n (destruct data as [|? data]; [cbn [length] in Hlen; lia|]).

Lemma parse_request_short data :
  (length data < 38)%nat -> parse_request data = Ok None.
Proof.
  intros Hshort. unfold parse_request. destruct data; [reflexivity|].
  destruct (Nat.ltb_spec (length (b :: data)) 38); [reflexivity | lia].
Qed.

Lemma parse_request_long data :
  (38 <= length data)%nat ->
  parse_request data
  = if negb (be_value (firstn 4 data) =? MAGIC_COOKIE)
       || negb (be_value [nth 4 data x00] =? REQUEST_TYPE)
    then Ok None
    else Ok (Some (byte_val (nth 5 data x00), firstn 32 (skipn 6 data))).
Proof.
  intros Hlen. peel data Hlen 38. clear Hlen.
  unfold parse_request, struct.unpack, fmt_IBB32s.
  cbn [length Nat.ltb Nat.leb firstn skipn nth struct.calcsize fold_right
       struct.size Nat.add Nat.eqb res_bind struct.unpack_fields
       struct.unpack_one].
  rewrite be_value_1 with (b := b4). reflexivity.
Qed.

Lemma request_type_check b :
  negb (be_value [b] =? REQUEST_TYPE) = false <-> b = x03.
Proof. apply (type_check b REQUEST_TYPE). unfold REQUEST_TYPE. lia. Qed.

Lemma firstn_4_long (data : bytes) :
  (4 <= length data)%nat ->
  exists a b c d, firstn 4 data = [a; b; c; d].
Proof.
  intros Hlen. peel data Hlen 4. cbn [firstn]. eauto.
Qed.

Lemma parse_request_rejects data :
  ~ request_ok data -> parse_request data = Ok None.
Proof.
  intros Hbad.
  destruct (Nat.ltb_spec (length data) 38) as [Hshort | Hlen];
    [apply parse_request_short; exact Hshort|].
  rewrite (parse_request_long _ Hlen).
  destruct (firstn_4_long data ltac:(lia)) as [a [b [c [d E]]]].
  rewrite E.
  destruct (negb (be_value [a; b; c; d] =? MAGIC_COOKIE)) eqn:Hc;
    [reflexivity|].
  destruct (negb (be_value [nth 4 data x00] =? REQUEST_TYPE)) eqn:Ht;
    [reflexivity|].
  exfalso. apply Hbad. split; [exact Hlen|]. split.
  - rewrite E. apply cookie_check. exact Hc.
  - apply request_type_check. exact Ht.
Qed.

(** X1. The server's Request parsing never raises.  It accepts a
    buffer exactly when the buffer has at least 38 bytes, starts with
    the cookie and carries the type 3; it then reads the round count
    from the sixth byte and the name from the next 32, and ignores
    whatever follows the 38th byte.  Every other buffer is dropped. *)
Theorem parse_request_spec data :
  (request_ok data ->
   parse_request data
   = Ok (Some (byte_val (nth 5 data x00), firstn 32 (skipn 6 data))))
  /\ (~ request_ok data -> parse_request data = Ok None).
Proof.
  split; [|apply parse_request_rejects].
  intros [Hlen [Hcookie Htype]].
  rewrite (parse_request_long _ Hlen), Hcookie.
  rewrite (proj2 (cookie_check _ _ _ _) eq_refl).
  rewrite (proj2 (request_type_check _) Htype).
  reflexivity.
Qed.

Lemma parse_request_spec_witness :
  parse_request (request_bytes 3 ++ [x2a; x2a])
  = Ok (Some (3, team_name_bytes))
  /\ parse_request (firstn 37 (request_bytes 3)) = Ok None.
Proof.
  split.
  - apply (proj1 (parse_request_spec (request_bytes 3 ++ [x2a; x2a]))).
    split; [vm_compute; lia | split; reflexivity].
  - apply (proj2 (parse_request_spec (firstn 37 (request_bytes 3)))).
    intros [H _]. vm_compute in H. lia.
Defined.

(** X2. The client's Offer parsing never raises.  It accepts a
    datagram exactly when the datagram has at least 39 bytes, starts
    with the cookie and carries the type 2; the port is read from
    bytes 6 and 7, the name from the next 32, and anything after the
    39th byte is ignored.  Every other datagram is skipped. *)
Theorem parse_offer_spec data :
  (offer_ok data ->
   client.parse_offer data
   = Ok (Some (byte_val (nth 5 data x00) * 256 + byte_val (nth 6 data x00),
               firstn 32 (skipn 7 data))))
  /\ (~ offer_ok data -> client.parse_offer data = Ok None).
Proof.
  unfold offer_ok.
  destruct (Nat.ltb_spec (length data) 39) as [Hshort | Hlen].
  - split; [intros [H _]; lia|]. intros _. unfold client.parse_offer.
    destruct (Nat.ltb_spec (length data) 39); [reflexivity | lia].
  - peel data Hlen 39. clear Hlen.
    unfold client.parse_offer, struct.unpack, fmt_IBH32s.
    cbn [length Nat.ltb Nat.leb firstn skipn nth struct.calcsize fold_right
         struct.size Nat.add Nat.eqb res_bind struct.unpack_fields
         struct.unpack_one].
    pose proof (cookie_check b b0 b1 b2) as Hc.
    pose proof (type_check b3 2 ltac:(lia)) as Ht.
    change (to_byte 2) with x02 in Ht. change 0x2 with 2.
    rewrite be_value_2.
    destruct (negb (be_value [b; b0; b1; b2] =? MAGIC_COOKIE));
      destruct (negb (be_value [b3] =? 2)); cbn [orb];
      split; intros H; try reflexivity;
      try (destruct H as [_ [Hc' Ht']];
           first [apply Hc in Hc'; discriminate
                 | apply Ht in Ht'; discriminate]);
      exfalso; apply H;
      (repeat split; [lia | apply Hc; reflexivity | apply Ht; reflexivity]).
Qed.

Lemma parse_offer_spec_witness :
  client.parse_offer (x00 :: skipn 1 (be_bytes 4 MAGIC_COOKIE
                                        ++ x02 :: be_bytes 2 5000
                                        ++ server_name_bytes))
  = Ok None
  /\ client.parse_offer (be_bytes 4 MAGIC_COOKIE ++ x02 :: be_bytes 2 5000
                           ++ server_name_bytes ++ [x00])
     = Ok (Some (5000, server_name_bytes)).
Proof.
  split.
  - apply (proj2 (parse_offer_spec _)).
    intros [_ [H _]]. vm_compute in H. discriminate H.
  - apply (proj1 (parse_offer_spec
                    (be_bytes 4 MAGIC_COOKIE ++ x02 :: be_bytes 2 5000
                       ++ server_name_bytes ++ [x00]))).
    split; [vm_compute; lia | split; reflexivity].
Defined.

Lemma safe_recv_caught st e st1 :
  client.safe_recv_try st = (Raise e, st1) ->
  client.safe_recv st = (Ok (0, 0, 0), st1).
Proof. intros H. unfold client.safe_recv. rewrite H. reflexivity. Qed.

(** X3. [safe_recv] never raises.  It returns the result, rank and
    suit bytes of what [recv(9)] brought exactly when that is 9 bytes
    starting with the cookie; the type byte is not looked at.  A short
    read, a wrong cookie or a socket error all give [(0, 0, 0)]. *)
Theorem safe_recv_spec st :
  (forall data st1,
     recv 9 st = (Ok data, st1) -> payload_ok data ->
     client.safe_recv st
     = (Ok (byte_val (nth 5 data x00),
            Z.lor (Z.shiftl (byte_val (nth 6 data x00)) 8)
              (byte_val (nth 7 data x00)),
            byte_val (nth 8 data x00)),
        st1))
  /\ (forall data st1,
        recv 9 st = (Ok data, st1) -> ~ payload_ok data ->
        client.safe_recv st = (Ok (0, 0, 0), st1))
  /\ (forall e st1,
        recv 9 st = (Raise e, st1) ->
        client.safe_recv st = (Ok (0, 0, 0), st1)).
Proof.
  split; [|split].
  - intros data st1 Hrecv [Hlen Hcookie].
    unfold client.safe_recv, client.safe_recv_try.
    rewrite (bind_ok _ _ _ _ _ Hrecv).
    assert (Hlen' : (9 <= length data)%nat) by lia.
    peel data Hlen' 9. destruct data; [|discriminate Hlen].
    cbn [firstn] in Hcookie. inversion Hcookie; subst.
    reflexivity.
  - intros data st1 Hrecv Hbad. apply safe_recv_caught with (e :=
      if Nat.ltb (length data) 9 then ConnectionError
      else if Nat.eqb (length data) 9 then ValueError else StructError).
    unfold client.safe_recv_try. rewrite (bind_ok _ _ _ _ _ Hrecv).
    destruct (Nat.ltb_spec (length data) 9) as [Hshort | Hlen];
      [reflexivity|].
    unfold bind, lift, struct.unpack.
    change (struct.calcsize fmt_IBB3B) with 9%nat.
    destruct (Nat.eqb_spec (length data) 9) as [E | E]; [|reflexivity].
    peel data Hlen 9. destruct data; [|discriminate E].
    unfold fmt_IBB3B.
    cbn [struct.unpack_fields struct.unpack_one struct.size firstn skipn].
    pose proof (cookie_check b b0 b1 b2) as Hc.
    destruct (negb (be_value [b; b0; b1; b2] =? MAGIC_COOKIE));
      [reflexivity|].
    exfalso. apply Hbad. split; [reflexivity | apply Hc; reflexivity].
  - intros e st1 Hrecv. apply safe_recv_caught with (e := e).
    unfold client.safe_recv_try. apply bind_raise. exact Hrecv.
Qed.

Lemma safe_recv_spec_witness :
  fst (client.safe_recv
         (fresh [Data [xab; xcd; xdc; xba; xff; x03; x00; x0d; x02]] []))
  = Ok (3, 13, 2)
  /\ fst (client.safe_recv (fresh [Data [xab; xcd; xdc; xba; x04]] []))
     = Ok (0, 0, 0)
  /\ fst (client.safe_recv (fresh [Fails] [])) = Ok (0, 0, 0).
Proof.
  split; [|split].
  - rewrite (proj1 (safe_recv_spec _)
               [xab; xcd; xdc; xba; xff; x03; x00; x0d; x02]
               (snd (recv 9 (fresh [Data [xab; xcd; xdc; xba; xff; x03;
                                         x00; x0d; x02]] [])))).
    + reflexivity.
    + reflexivity.
    + split; reflexivity.
  - rewrite (proj1 (proj2 (safe_recv_spec _))
               [xab; xcd; xdc; xba; x04]
               (snd (recv 9 (fresh [Data [xab; xcd; xdc; xba; x04]] [])))).
    + reflexivity.
    + reflexivity.
    + intros [H _]. discriminate H.
  - rewrite (proj2 (proj2 (safe_recv_spec _)) OSError
               (snd (recv 9 (fresh [Fails] [])))); reflexivity.
Defined.

Lemma rank_low16 (rank : Z) :
  Z.lor (Z.shiftl (Z.land (Z.shiftr rank 8) 0xFF) 8) (Z.land rank 0xFF)
  = rank mod 65536.
Proof.
  rewrite lor_shiftl_small by (try lia; apply land_255_range).
  change 0xFF with (Z.ones 8). rewrite !Z.land_ones by lia.
  rewrite Z.shiftr_div_pow2 by lia. change (2 ^ 8) with 256.
  change 65536 with (256 * 256).
  rewrite (Z.rem_mul_r rank 256 256) by lia. lia.
Qed.

(** X4. Building a Round-Payload packet fails, with [struct.error],
    exactly when the result or the suit does not fit a byte; the rank
    never makes it fail.  A rank that does not fit 16 bits is cut to
    its low 16 bits: the client reads back [rank mod 65536]. *)
Theorem payload_packet_spec result rank suit :
  ((0 <= result <= 255 /\ 0 <= suit <= 255) ->
   payload_packet result rank suit = Ok (payload_bytes result rank suit)
   /\ forall st rest,
        inbox st = Data (payload_bytes result rank suit) :: rest ->
        fst (client.safe_recv st) = Ok (result, rank mod 65536, suit))
  /\ (~ (0 <= result <= 255 /\ 0 <= suit <= 255) ->
      payload_packet result rank suit = Raise StructError).
Proof.
  split.
  - intros [Hres Hsuit]. split; [apply payload_packet_ok; assumption|].
    intros st rest Hin.
    unfold client.safe_recv, client.safe_recv_try.
    assert (Hrecv : recv 9 st
                    = (Ok (payload_bytes result rank suit),
                       advance st rest
                         [Recv (payload_bytes result rank suit)] 0))
      by (unfold recv; rewrite Hin; reflexivity).
    rewrite (bind_ok _ _ _ _ _ Hrecv).
    change (Nat.ltb (length (payload_bytes result rank suit)) 9) with false.
    cbv iota. unfold bind, lift.
    rewrite unpack_payload_bytes by assumption.
    change (negb (MAGIC_COOKIE =? MAGIC_COOKIE)) with false. cbv iota.
    unfold ret. rewrite rank_low16. reflexivity.
  - intros Hbad. unfold payload_packet, fmt_IBB3B.
    pose proof (land_255_range (Z.shiftr rank 8)) as Hh.
    pose proof (land_255_range rank) as Hl.
    cbn [struct.pack struct.pack_one struct.size].
    rewrite pack_I_cookie, (pack_B PAYLOAD_TYPE) by (unfold PAYLOAD_TYPE; lia).
    cbn [res_bind res_map].
    unfold struct.pack_int at 1.
    change (2 ^ (8 * Z.of_nat 1)) with 256.
    destruct (Z.leb_spec 0 result); destruct (Z.ltb_spec result 256);
      cbn [andb res_bind res_map]; try reflexivity.
    rewrite !pack_B by lia. cbn [res_bind res_map].
    unfold struct.pack_int.
    change (2 ^ (8 * Z.of_nat 1)) with 256.
    destruct (Z.leb_spec 0 suit); destruct (Z.ltb_spec suit 256);
      cbn [andb res_bind res_map]; try reflexivity.
    exfalso. apply Hbad. lia.
Qed.

Lemma payload_packet_spec_witness :
  (forall st rest,
     inbox st = Data (payload_bytes 0 65537 3) :: rest ->
     fst (client.safe_recv st) = Ok (0, 1, 3))
  /\ payload_packet 256 5 0 = Raise StructError.
Proof.
  split.
  - apply (proj1 (payload_packet_spec 0 65537 3)). lia.
  - apply (proj2 (payload_packet_spec 256 5 0)). lia.
Defined.

(** X5. The client's Request is built only for a round count from 0 to
    255: there it is 38 bytes that the server parses back to the count
    and the team name; for any other count, such as 256 or -1, which
    the prompt lets through, building it raises [struct.error]. *)
Theorem session_request_spec num_rounds :
  (0 <= num_rounds <= 255 ->
   exists packet,
     client.session_request num_rounds = Ok packet
     /\ length packet = 38%nat
     /\ parse_request packet = Ok (Some (num_rounds, team_name_bytes)))
  /\ (~ 0 <= num_rounds <= 255 ->
      client.session_request num_rounds = Raise StructError).
Proof.
  destruct (session_request_eq num_rounds) as [-> Hlen].
  split.
  - intros H. apply request_round_trip; assumption.
  - intros Hbad. unfold client.request_packet, fmt_IBB32s.
    cbn [struct.pack struct.pack_one struct.size].
    rewrite pack_I_cookie, (pack_B 3) by lia. cbn [res_bind res_map].
    unfold struct.pack_int. change (2 ^ (8 * Z.of_nat 1)) with 256.
    destruct (Z.leb_spec 0 num_rounds); destruct (Z.ltb_spec num_rounds 256);
      cbn [andb res_bind res_map]; try reflexivity.
    lia.
Qed.

Lemma session_request_spec_witness :
  (exists packet,
     client.session_request 255 = Ok packet
     /\ length packet = 38%nat
     /\ parse_request packet = Ok (Some (255, team_name_bytes)))
  /\ client.session_request 256 = Raise StructError
  /\ client.session_request (-1) = Raise StructError.
Proof.
  split; [|split].
  - apply (proj1 (session_request_spec 255)). lia.
  - apply (proj2 (session_request_spec 256)). lia.
  - apply (proj2 (session_request_spec (-1))). lia.
Defined.

(** ** Sessions *)

Lemma sends_of_app a b : sends_of (a ++ b) = sends_of a ++ sends_of b.
Proof. apply flat_map_app. Qed.




Lemma card_traffic_no_close evs : card_traffic evs -> ~ In Close evs.
Proof.
  intros H Hin. unfold card_traffic in H. rewrite Forall_forall in H.
  exact (H _ Hin).
Qed.

(** The events of one round, whatever its end. *)
Lemma play_round_events st r st' :
  play_round st = (r, st') ->
  exists i evs n,
    st' = advance st i evs n
    /\ ((exists res tr,
           r = Ok res /\ (res = 1 \/ res = 2 \/ res = 3)
           /\ evs = tr ++ [Send (payload_bytes res 0 0)] /\ card_traffic tr)
        \/ ((exists e, r = Raise e) /\ card_traffic evs)).
Proof.
  rewrite play_round_eq. intros H. apply bind_cases in H.
  destruct H as [[[ps ds] [st1 [Ht H]]] | [[e [Ht ->]] | [Ht _]]];
    destruct (play_to_totals_traffic _ _ _ Ht) as [Hne [i [evs [n [-> Htr]]]]];
    try congruence.
  - cbn [fst snd] in H. apply send_then in H.
    destruct H as [[-> ->] | H].
    + exists i, evs, n. split; [reflexivity|]. right. split; [eauto|exact Htr].
    + inversion H; subst. autorewrite with state.
      eexists; eexists; eexists. split; [reflexivity|]. left.
      exists (decide_outcome ps ds), evs.
      repeat split; auto using decide_outcome_range.
  - exists i, evs, n. split; [reflexivity|]. right. split; [eauto|exact Htr].
Qed.

(** X6. When the first read of a session brings anything but a
    well-formed Request (too short, wrong cookie, wrong type, no data
    at all) or fails, the session ends at once: nothing is sent, no
    card is drawn, no counter moves, and the connection is closed. *)
Theorem handle_client_drops st :
  (forall data st1,
     recv 1024 st = (Ok data, st1) -> ~ request_ok data ->
     exists i,
       handle_client st = (Ok tt, advance st i [Recv data; Close] 0))
  /\ (forall e st1,
        recv 1024 st = (Raise e, st1) ->
        exists i, handle_client st = (Ok tt, advance st i [Close] 0)).
Proof.
  split.
  - intros data st1 Hrecv Hbad.
    destruct (recv_cases _ _ _ _ Hrecv) as [[d [i [E ->]]] | [i [E _]]];
      [|discriminate].
    inversion E; subst d. exists i.
    unfold handle_client, handle_client_try.
    rewrite (bind_ok _ _ _ _ _ Hrecv). unfold bind, lift.
    rewrite (parse_request_rejects data Hbad).
    unfold ret, close, log_event, advance. cbn. rewrite <- app_assoc.
    reflexivity.
  - intros e st1 Hrecv.
    destruct (recv_cases _ _ _ _ Hrecv) as [[d [i [E _]]] | [i [_ ->]]];
      [discriminate|].
    exists i. unfold handle_client, handle_client_try.
    rewrite (bind_raise _ _ _ _ _ Hrecv).
    unfold close, log_event, advance. cbn. rewrite app_nil_r. reflexivity.
Qed.

Lemma handle_client_drops_witness :
  exists i,
    handle_client (fresh [Data (x00 :: skipn 1 (request_bytes 3))] [])
    = (Ok tt,
       advance (fresh [Data (x00 :: skipn 1 (request_bytes 3))] []) i
         [Recv (x00 :: skipn 1 (request_bytes 3)); Close] 0).
Proof.
  apply (proj1 (handle_client_drops _) _
           (snd (recv 1024
                   (fresh [Data (x00 :: skipn 1 (request_bytes 3))] [])))).
  - reflexivity.
  - intros [_ [H _]]. vm_compute in H. discriminate H.
Defined.




Lemma rounds_loop_log rounds : forall st r st',
  rounds_loop rounds st = (r, st') ->
  exists evs, log st' = log st ++ evs /\ ~ In Close evs.
Proof.
  induction rounds as [|rounds IH]; intros st r st' Hrun.
  - inversion Hrun; subst. exists []. rewrite app_nil_r. auto.
  - cbn [rounds_loop] in Hrun. apply bind_cases in Hrun.
    assert (Hround : forall res s1,
               play_round st = (res, s1) ->
               exists evs, log s1 = log st ++ evs /\ ~ In Close evs).
    { intros res s1 H.
      destruct (play_round_events _ _ _ H)
        as [i [evs [n [-> [[x [tr [_ [_ [-> Htr]]]]] | [_ Htr]]]]]];
        exists evs + exists (tr ++ [Send (payload_bytes x 0 0)]);
        (split; [reflexivity|]); try (apply card_traffic_no_close; exact Htr).
      intros Hin. apply in_app_or in Hin. destruct Hin as [Hin | [Hin | []]];
        [exact (card_traffic_no_close _ Htr Hin) | discriminate Hin]. }
    destruct Hrun as [[res [s1 [Hplay Hrun]]] | [[e [Hplay _]] | [Hplay _]]];
      try (exact (Hround _ _ Hplay)).
    destruct (Hround _ _ Hplay) as [evs1 [Hlog1 Hno1]].
    apply bind_cases in Hrun.
    assert (Hupd : forall x s2, update_global_stats res s1 = (x, s2) ->
                                log s2 = log s1).
    { unfold update_global_stats. intros x s2 H.
      destruct (res =? 3); [|destruct (res =? 2)];
        match type of H with
        | context [if ?c then _ else _] => destruct c
        end; inversion H; reflexivity. }
    destruct Hrun as [[[] [s2 [Hu Hrun]]] | [[e [Hu _]] | [Hu _]]];
      try (exists evs1; rewrite (Hupd _ _ Hu); auto).
    destruct (IH _ _ _ Hrun) as [evs2 [Hlog2 Hno2]].
    exists (evs1 ++ evs2). rewrite Hlog2, (Hupd _ _ Hu), Hlog1, app_assoc.
    split; [reflexivity|]. intros Hin. apply in_app_or in Hin. tauto.
Qed.

(** X8. [handle_client] closes the connection exactly once, and as
    the last thing it does on it (the [finally] clause): whatever the
    peer sends and whichever read or send fails, the log of the
    connection grows by events that are not a close, followed by one
    close. *)
Theorem handle_client_closes_once st :
  exists evs,
    log (snd (handle_client st)) = log st ++ evs ++ [Close]
    /\ ~ In Close evs.
Proof.
  destruct (handle_client_try st) as [r st1] eqn:H.
  assert (Htry : exists evs, log st1 = log st ++ evs /\ ~ In Close evs).
  { 
    unfold handle_client_try in H. apply bind_cases in H.
    destruct H as [[data [s1 [Hrecv H]]] | [[e [Hrecv _]] | [Hrecv _]]].
    - destruct (recv_cases _ _ _ _ Hrecv) as [[d [i [_ ->]]] | [i [E _]]];
        [|discriminate E].
      + apply bind_cases in H.
        destruct H as [[req [s2 [Hp H]]] | [[e [Hp _]] | [Hp _]]];
          unfold lift in Hp; inversion Hp; subst.
        * destruct req as [[rounds name]|].
          -- destruct (rounds_loop_log _ _ _ _ H) as [evs [Hlog Hno]].
             exists (Recv d :: evs). rewrite Hlog. cbn [log advance].
             rewrite <- app_assoc. split; [reflexivity|].
             intros [Hin | Hin]; [discriminate | exact (Hno Hin)].
          -- inversion H; subst. exists [Recv d]. split; [reflexivity|].
             intros [Hin | []]. discriminate.
        * exists [Recv d]. split; [reflexivity|].
          intros [Hin | []]. discriminate.
        * exists [Recv d]. split; [reflexivity|].
          intros [Hin | []]. discriminate.
    - destruct (recv_cases _ _ _ _ Hrecv) as [[d [i [_ ->]]] | [i [_ ->]]];
        [exists [Recv d] | exists []]; (split; [reflexivity|]); intros Hin;
        [destruct Hin as [Hin | []]; discriminate | exact Hin].
    - destruct (recv_cases _ _ _ _ Hrecv) as [[d [i [E _]]] | [i [E _]]];
        discriminate. }
  destruct Htry as [evs [Hlog Hno]].
  exists evs. split; [|exact Hno].
  assert (Hrun : snd (handle_client st) = log_event Close st1).
  { destruct (handle_client_closes st) as [s Hrun].
    unfold handle_client in *. rewrite H in *.
    destruct r; [reflexivity | reflexivity | discriminate Hrun]. }
  rewrite Hrun. cbn [log log_event]. rewrite Hlog, app_assoc. reflexivity.
Qed.

(** ** The cards of a round *)

Lemma cards_from_app e a : forall pos b,
  cards_from e pos (a + b)
  = cards_from e pos a ++ cards_from e (2 * a + pos) b.
Proof.
  induction a as [|a IH]; intros pos b; [reflexivity|].
  cbn [Nat.add cards_from app]. rewrite IH. do 3 f_equal. lia.
Qed.

Lemma cards_from_length e k : forall pos, length (cards_from e pos k) = k.
Proof. induction k; intros pos; cbn [cards_from length]; auto. Qed.

Lemma cards_from_valid e k : forall pos, Forall valid_card (cards_from e pos k).
Proof.
  induction k; intros pos; constructor; [apply valid_card_at | apply IHk].
Qed.

Lemma hand_value_app a b : hand_value (a ++ b) = hand_value a + hand_value b.
Proof.
  induction a as [|c a IH]; [reflexivity|].
  cbn [app hand_value fold_right]. fold (hand_value (a ++ b)).
  fold (hand_value a). lia.
Qed.

Lemma hand_value_bounds hand :
  Forall valid_card hand ->
  2 * Z.of_nat (length hand) <= hand_value hand <= 11 * Z.of_nat (length hand).
Proof.
  induction 1 as [|c hand Hc _ IH]; [cbn; lia|].
  pose proof (card_value_bounds c Hc).
  cbn [hand_value fold_right length]. fold (hand_value hand). lia.
Qed.

(** The hits of a completed player loop: the next cards of the source,
    each taken at a total of 21 or less. *)
Lemma player_loop_ok_cards fuel : forall ps st ps' st',
  player_loop fuel ps st = (Ok ps', st') ->
  exists k i evs,
    st' = advance st i evs (2 * k)
    /\ sends_of evs = map card_packet (cards_from (entropy st) (drawn st) k)
    /\ ps' = ps + hand_value (cards_from (entropy st) (drawn st) k)
    /\ forall j, (j < k)%nat ->
         ps + hand_value (firstn j (cards_from (entropy st) (drawn st) k))
         <= 21.
Proof.
  induction fuel as [|fuel IH]; intros ps st ps' st' Hrun.
  - cbn [player_loop] in Hrun. unfold out_of_fuel, ret in Hrun.
    destruct (ps <=? 21); inversion Hrun; subst.
    exists O, (inbox st'), []. rewrite advance_id. cbn [cards_from hand_value
      fold_right map sends_of flat_map].
    repeat split; try lia.
  - destruct (Z.le_gt_cases ps 21) as [Hle | Hgt].
    + destruct (player_loop_iter _ _ _ _ _ Hle Hrun)
        as [[i [E _]] | [i [data [[_ [E ->]] | [[_ [e [_ [E _]]]]
                           | [[_ [d [_ [_ [E ->]]]]]
                           | [_ [_ [[E _] | Hrec]]]]]]]]];
        try discriminate.
      * inversion E; subst. exists O, i, [Recv data].
        cbn [cards_from hand_value fold_right map sends_of flat_map app].
        repeat split; try lia.
      * inversion E; subst. exists O, i, [Recv data].
        cbn [cards_from hand_value fold_right map sends_of flat_map app].
        repeat split; try lia.
      * destruct (IH _ _ _ _ Hrec) as [k [i' [evs [-> [Hs [Hp Hbelow]]]]]].
        autorewrite with state in *. cbn [Nat.add] in *.
        exists (S k), i',
          ([Recv data; Send (card_packet (card_at (entropy st) (drawn st)))]
             ++ evs).
        rewrite sends_of_app, Hs.
        cbn [cards_from hand_value fold_right map sends_of flat_map app].
        fold (hand_value (cards_from (entropy st) (S (S (drawn st))) k)).
        repeat split.
        -- f_equal. lia.
        -- lia.
        -- intros [|j] Hj; cbn [firstn hand_value fold_right]; [lia|].
           fold (hand_value
                   (firstn j (cards_from (entropy st) (S (S (drawn st))) k))).
           specialize (Hbelow j ltac:(lia)). lia.
    + rewrite player_loop_stop in Hrun by lia. inversion Hrun; subst.
      exists O, (inbox st'), []. rewrite advance_id.
      cbn [cards_from hand_value fold_right map sends_of flat_map].
      repeat split; try lia.
Qed.

Lemma dealer_loop_ok_cards fuel : forall ds st ds' st',
  dealer_loop fuel ds st = (Ok ds', st') ->
  exists k,
    st' = advance st (inbox st)
            (card_sends (cards_from (entropy st) (drawn st) k)) (2 * k)
    /\ ds' = ds + hand_value (cards_from (entropy st) (drawn st) k)
    /\ forall j, (j < k)%nat ->
         ds + hand_value (firstn j (cards_from (entropy st) (drawn st) k))
         < 17.
Proof.
  induction fuel as [|fuel IH]; intros ds st ds' st' Hrun.
  - cbn [dealer_loop] in Hrun. unfold out_of_fuel, ret in Hrun.
    destruct (ds <? 17); inversion Hrun; subst.
    exists O. cbn [cards_from card_sends map hand_value fold_right].
    rewrite advance_id. repeat split; try lia.
  - destruct (Z.lt_ge_cases ds 17) as [Hlt | Hge].
    + destruct (dealer_loop_iter _ _ _ _ _ Hlt Hrun) as [[E _] | Hrec];
        [discriminate|].
      destruct (IH _ _ _ _ Hrec) as [k [-> [Hd Hbelow]]].
      autorewrite with state in *. cbn [Nat.add] in *.
      exists (S k).
      cbn [cards_from hand_value fold_right card_sends map app].
      fold (hand_value (cards_from (entropy st) (S (S (drawn st))) k)).
      fold (card_sends (cards_from (entropy st) (S (S (drawn st))) k)).
      repeat split.
      * f_equal. lia.
      * lia.
      * intros [|j] Hj; cbn [firstn hand_value fold_right]; [lia|].
        fold (hand_value
                (firstn j (cards_from (entropy st) (S (S (drawn st))) k))).
        specialize (Hbelow j ltac:(lia)). lia.
    + rewrite dealer_loop_stop in Hrun by lia. inversion Hrun; subst.
      exists O. cbn [cards_from card_sends map hand_value fold_right].
      rewrite advance_id. repeat split; try lia.
Qed.

Lemma cards_from_four st :
  cards_from (entropy st) (drawn st) 4
  = [dealt st 0; dealt st 1; dealt st 2; dealt st 3].
Proof. reflexivity. Qed.

Lemma firstn_valid (hand : list (Z * Z)) : forall n,
  Forall valid_card hand -> Forall valid_card (firstn n hand).
Proof.
  induction hand as [|c hand IH]; intros [|n] H; cbn [firstn];
    try constructor; inversion H; subst; auto.
Qed.

Lemma prefix_bound (hits : list (Z * Z)) (base limit : Z) (most : nat) :
  Forall valid_card hits ->
  (forall j, (j < length hits)%nat ->
             base + hand_value (firstn j hits) <= limit) ->
  4 <= base ->
  limit + 2 < 4 + 2 * Z.of_nat (S most) ->
  (length hits <= most)%nat.
Proof.
  intros Hv Hbelow Hbase Hlimit.
  destruct (length hits) as [|k] eqn:Hk; [lia|].
  specialize (Hbelow k ltac:(lia)).
  pose proof (hand_value_bounds (firstn k hits) (firstn_valid hits k Hv)) as Hb.
  rewrite length_firstn, Hk in Hb. lia.
Qed.

(** X9. A completed round shows the client every card it dealt, and
    decides on the cards it showed.  The cards are the next ones of
    the source, in the order player, player, dealer, hidden, hits,
    dealer draws; they are sent as player, player, dealer, hits,
    hidden, dealer draws, followed by the outcome; the outcome is the
    rule applied to the totals [calculate_points] gives for the
    player's cards and for the dealer's cards.  The dealer draws
    nothing when the player is over 21, and a round never has more
    than 9 hits or 7 dealer draws. *)
Theorem round_transcript st r st' :
  play_round st = (Ok r, st') ->
  exists hits draws,
    cards_from (entropy st) (drawn st) (4 + length hits + length draws)
    = [dealt st 0; dealt st 1; dealt st 2; dealt st 3] ++ hits ++ draws
    /\ sent st'
       = sent st
           ++ map card_packet
                ([dealt st 0; dealt st 1; dealt st 2] ++ hits
                   ++ [dealt st 3] ++ draws)
           ++ [payload_bytes r 0 0]
    /\ r = decide_outcome
             (client.calculate_points ([dealt st 0; dealt st 1] ++ hits))
             (client.calculate_points ([dealt st 2; dealt st 3] ++ draws))
    /\ drawn st' = (2 * (4 + length hits + length draws) + drawn st)%nat
    /\ (21 < client.calculate_points ([dealt st 0; dealt st 1] ++ hits) ->
        draws = [])
    /\ (length hits <= 9)%nat
    /\ (length draws <= 7)%nat.
Proof.
  intros Hround.
  destruct (play_round_ok_inv _ _ _ Hround) as [ps [ds [st1 [Ht [Hr ->]]]]].
  destruct (play_to_totals_ok_inv _ _ _ _ Ht)
    as [ps0 [ds0 [hid [st0 [sp [sr [Hdeal [Hp [Hs Hd]]]]]]]]].
  clear Hround Ht.
  destruct (initial_deal_cases _ _ _ Hdeal) as [[E _] | [E ->]];
    [discriminate|].
  assert (E0 : ps0 = card_value (fst (dealt st 0))
                     + card_value (fst (dealt st 1))) by congruence.
  assert (E1 : ds0 = card_value (fst (dealt st 2))
                     + card_value (fst (dealt st 3))) by congruence.
  assert (E2 : hid = dealt st 3) by congruence.
  clear E Hdeal. subst ps0 ds0 hid.
  pose proof (card_value_bounds (dealt st 0) (valid_card_at _ _)) as Hd0.
  pose proof (card_value_bounds (dealt st 1) (valid_card_at _ _)) as Hd1.
  pose proof (card_value_bounds (dealt st 2) (valid_card_at _ _)) as Hd2.
  pose proof (card_value_bounds (dealt st 3) (valid_card_at _ _)) as Hd3.
  unfold player_phase in Hp.
  destruct (player_loop_ok_cards _ _ _ _ _ Hp)
    as [k [i [evs [-> [Hsends [Hps Hbelow]]]]]].
  clear Hp. rewrite entropy_advance, drawn_advance in Hsends, Hps, Hbelow.
  set (hits := cards_from (entropy st) (8 + drawn st) k) in *.
  assert (Hlenh : length hits = k) by apply cards_from_length.
  assert (Hhits : (length hits <= 9)%nat).
  { apply (prefix_bound hits
             (card_value (fst (dealt st 0)) + card_value (fst (dealt st 1)))
             21).
    - apply cards_from_valid.
    - rewrite Hlenh. exact Hbelow.
    - lia.
    - lia. }
  match type of Hs with
  | send ?p ?s = _ => destruct (send_cases p s) as [Hs' | Hs']
  end; rewrite Hs' in Hs; [|discriminate Hs].
  assert (E3 : sr = advance st i
                      ((card_sends [dealt st 0; dealt st 1; dealt st 2] ++ evs)
                         ++ [Send (card_packet (dealt st 3))])
                      (2 * k + 8)).
  { rewrite !advance_advance, inbox_advance in Hs.
    apply (f_equal snd) in Hs. cbn [snd] in Hs. rewrite <- Hs.
    f_equal; try (rewrite app_assoc; reflexivity); lia. }
  clear Hs Hs'. subst sr.
  assert (Hdraws : exists m,
             st1 = advance st i
                     ((card_sends [dealt st 0; dealt st 1; dealt st 2] ++ evs)
                        ++ [Send (card_packet (dealt st 3))]
                        ++ card_sends
                             (cards_from (entropy st)
                                (2 * k + (8 + drawn st)) m))
                     (2 * m + (2 * k + 8))
             /\ ds = card_value (fst (dealt st 2))
                     + card_value (fst (dealt st 3))
                     + hand_value
                         (cards_from (entropy st) (2 * k + (8 + drawn st)) m)
             /\ (21 < ps -> m = O)
             /\ (m <= 7)%nat).
  { unfold dealer_phase in Hd. destruct (Z.leb_spec ps 21) as [Hle | Hgt].
    - destruct (dealer_loop_ok_cards _ _ _ _ _ Hd) as [m [-> [Hds Hlow]]].
      rewrite entropy_advance, drawn_advance in Hds, Hlow.
      rewrite advance_advance, inbox_advance, entropy_advance, drawn_advance.
      replace (2 * k + 8 + drawn st)%nat
        with (2 * k + (8 + drawn st))%nat in * by lia.
      exists m. split; [|split; [exact Hds | split; [lia|]]].
      + f_equal. rewrite <- app_assoc. reflexivity.
      + pose proof (prefix_bound
                      (cards_from (entropy st) (2 * k + (8 + drawn st)) m)
                      (card_value (fst (dealt st 2))
                       + card_value (fst (dealt st 3)))
                      16 7 (cards_from_valid _ _ _)) as Hb.
        rewrite cards_from_length in Hb. apply Hb; try lia.
        intros j Hj. specialize (Hlow j Hj). lia.
    - assert (E4 : ds = card_value (fst (dealt st 2))
                        + card_value (fst (dealt st 3))
                   /\ st1 = advance st i
                              ((card_sends [dealt st 0; dealt st 1; dealt st 2]
                                  ++ evs)
                                 ++ [Send (card_packet (dealt st 3))])
                              (2 * k + 8))
        by (unfold ret in Hd; split; congruence).
      destruct E4 as [-> ->]. exists O.
      cbn [cards_from card_sends map hand_value fold_right].
      split; [|split; [lia | split; [reflexivity | lia]]].
      rewrite app_nil_r. reflexivity. }
  clear Hd. destruct Hdraws as [m [-> [Hds [Hskip Hm]]]].
  set (draws := cards_from (entropy st) (2 * k + (8 + drawn st)) m) in *.
  assert (Hlend : length draws = m) by apply cards_from_length.
  exists hits, draws. rewrite Hlenh, Hlend.
  split; [|split; [|split; [|split; [|split; [|split]]]]].
  - replace (4 + k + m)%nat with (4 + (k + m))%nat by lia.
    rewrite cards_from_app, cards_from_four, cards_from_app.
    unfold hits, draws. reflexivity.
  - rewrite advance_advance, sent_advance.
    rewrite !sends_of_app, !sends_of_card_sends, Hsends.
    change (sends_of [Send (card_packet (dealt st 3))])
      with (map card_packet [dealt st 3]).
    change (sends_of [Send (payload_bytes r 0 0)])
      with [payload_bytes r 0 0].
    rewrite !map_app, <- !app_assoc. reflexivity.
  - rewrite Hr, !calculate_points_hand_value, !hand_value_app.
    cbn [hand_value fold_right]. f_equal; lia.
  - rewrite advance_advance, drawn_advance. lia.
  - rewrite calculate_points_hand_value, hand_value_app.
    cbn [hand_value fold_right]. intros Hbust.
    assert (Hm0 : m = O) by (apply Hskip; lia).
    unfold draws. rewrite Hm0. reflexivity.
  - lia.
  - exact Hm.
Qed.

Lemma round_transcript_witness :
  exists hits draws,
    sent (snd (play_round draw_table))
    = sent draw_table
        ++ map card_packet
             ([dealt draw_table 0; dealt draw_table 1; dealt draw_table 2]
                ++ hits ++ [dealt draw_table 3] ++ draws)
        ++ [payload_bytes 1 0 0]
    /\ 1 = decide_outcome
             (client.calculate_points
                ([dealt draw_table 0; dealt draw_table 1] ++ hits))
             (client.calculate_points
                ([dealt draw_table 2; dealt draw_table 3] ++ draws)).
Proof.
  destruct (round_transcript draw_table 1 (snd (play_round draw_table)))
    as [hits [draws [_ [Hs [Hr _]]]]].
  - vm_compute. reflexivity.
  - exists hits, draws. split; assumption.
Defined.

(** ** Which Decisions are hits *)

Lemma lstrip_length p t :
  (length (lstrip p t) <= length t)%nat
  /\ (length (lstrip p t) = length t -> lstrip p t = t).
Proof.
  induction t as [|c t [IHle IHeq]]; [auto|].
  cbn [lstrip]. destruct (p c); [|auto].
  cbn [length]. split; [lia | intros E; lia].
Qed.

Lemma strip_length p t :
  (length (strip p t) <= length t)%nat
  /\ (length (strip p t) = length t -> strip p t = t).
Proof.
  unfold strip, rstrip.
  destruct (lstrip_length p t) as [H1 E1].
  destruct (lstrip_length p (rev (lstrip p t))) as [H2 E2].
  rewrite length_rev in *. split; [lia|].
  intros E. rewrite E2 by lia. rewrite rev_involutive. apply E1. lia.
Qed.

Lemma res_map_ok {A B} (f : A -> B) (r : res A) (b : B) :
  res_map f r = Ok b -> exists a, r = Ok a /\ b = f a.
Proof. destruct r; cbn; intros H; inversion H; eauto. Qed.

(** Decoding gives at most one character per byte, and one per byte
    only when every byte stands for itself. *)
Lemma utf8_decode_length (n : nat) : forall bs t,
  (length bs <= n)%nat -> utf8_decode bs = Ok t ->
  (length t <= length bs)%nat
  /\ (length t = length bs -> t = map byte_val bs).
Proof.
  induction n as [|n IH]; intros bs t Hlen H.
  - destruct bs; [|cbn [length] in Hlen; lia].
    inversion H; subst. auto.
  - destruct bs as [|b0 r0]; [inversion H; subst; auto|].
    cbn [utf8_decode] in H. cbv zeta in H.
    repeat match type of H with
      | context [if ?c then _ else _] => destruct c
      | context [match ?l with [] => _ | _ :: _ => _ end] => destruct l
      end; try discriminate;
      apply res_map_ok in H; destruct H as [t0 [Hdec ->]];
      apply IH in Hdec; try (cbn [length] in Hlen |- *; lia);
      destruct Hdec as [Hle Heq]; cbn [length map] in *;
      (split; [lia|]); intros E; try lia.
    rewrite Heq by lia. reflexivity.
Qed.

(** X10. The player is dealt a card only for the exact action bytes
    "Hittt".  The stripping of null bytes and white space never turns
    another 5-byte action into a hit: a Decision decodes to "Hittt"
    exactly when it is 10 bytes long and its last five bytes are
    H i t t t; any other decodable Decision ends the player's turn
    with no card dealt. *)
Theorem hit_needs_exact_bytes :
  (forall data,
     decode_decision data = Ok (lit "Hittt")
     <-> length data = 10%nat
         /\ skipn 5 data = ["H"; "i"; "t"; "t"; "t"]%byte)
  /\ (forall fuel ps st data st1 d,
        ps <= 21 ->
        recv 1024 st = (Ok data, st1) ->
        decode_decision data = Ok d ->
        skipn 5 data <> ["H"; "i"; "t"; "t"; "t"]%byte ->
        player_loop (S fuel) ps st = (Ok ps, st1)).
Proof.
  assert (Hiff : forall data,
             decode_decision data = Ok (lit "Hittt")
             <-> length data = 10%nat
                 /\ skipn 5 data = ["H"; "i"; "t"; "t"; "t"]%byte).
  { intros data. split.
    - intros H.
      destruct (Nat.eq_dec (length data) 10) as [Hlen | Hlen];
        [|rewrite decode_decision_length in H by exact Hlen; discriminate].
      split; [exact Hlen|].
      assert (Hlen' : (10 <= length data)%nat) by lia.
      peel data Hlen' 10. destruct data; [|discriminate Hlen].
      unfold decode_decision, struct.unpack, fmt_IB5s in H.
      cbn [length struct.calcsize fold_right struct.size Nat.add Nat.eqb
           res_bind struct.unpack_fields struct.unpack_one firstn skipn] in H.
      apply res_map_ok in H. destruct H as [t [Hdec Hstrip]].
      destruct (utf8_decode_length 5 [b4; b5; b6; b7; b8] t (le_n _) Hdec)
        as [Hle Heq].
      destruct (strip_length is_nul t) as [Hn Hne].
      destruct (strip_length is_space (strip is_nul t)) as [Hs Hse].
      assert (Hfive : length (strip is_space (strip is_nul t)) = 5%nat)
        by (rewrite <- Hstrip; reflexivity).
      cbn [length] in Hle, Heq.
      rewrite Hse, Hne, Heq in Hstrip by lia.
      cbn [skipn]. cbn [map] in Hstrip.
      change (lit "Hittt") with
        [byte_val "H"; byte_val "i"; byte_val "t"; byte_val "t";
         byte_val "t"]%byte in Hstrip.
      assert (E : byte_val b4 = byte_val "H" /\ byte_val b5 = byte_val "i"
                  /\ byte_val b6 = byte_val "t" /\ byte_val b7 = byte_val "t"
                  /\ byte_val b8 = byte_val "t")
        by (repeat split; congruence).
      destruct E as [E4 [E5 [E6 [E7 E8]]]].
      apply byte_val_inj in E4, E5, E6, E7, E8. subst. reflexivity.
    - intros [Hlen Htail].
      assert (Hlen' : (10 <= length data)%nat) by lia.
      peel data Hlen' 10. destruct data; [|discriminate Hlen].
      cbn [skipn] in Htail. inversion Htail; subst. reflexivity. }
  split; [exact Hiff|].
  intros fuel ps st data st1 d Hps Hrecv Hd Hother.
  apply (player_loop_other _ _ _ data _ d); try assumption.
  - intros ->. discriminate Hd.
  - destruct (pystr_eqb d (lit "Hittt")) eqn:E; [|reflexivity].
    apply pystr_eqb_true in E. subst d.
    apply Hiff in Hd. destruct Hd as [_ Hd]. contradiction.
Qed.

Lemma hit_needs_exact_bytes_witness :
  player_loop 1 19
    (fresh [Data (be_bytes 4 MAGIC_COOKIE
                    ++ [x04; "h"; "i"; "t"; "t"; "t"]%byte)] [])
  = (Ok 19,
     snd (recv 1024
            (fresh [Data (be_bytes 4 MAGIC_COOKIE
                            ++ [x04; "h"; "i"; "t"; "t"; "t"]%byte)] []))).
Proof.
  apply (proj2 hit_needs_exact_bytes 0%nat 19 _
           (be_bytes 4 MAGIC_COOKIE ++ [x04; "h"; "i"; "t"; "t"; "t"]%byte)
           _ (lit "hittt")).
  - discriminate.
  - reflexivity.
  - reflexivity.
  - discriminate.
Defined.

(** X11. Aces always count 11, so a player dealt two aces stands at 22
    and has lost before deciding anything: on a connection whose
    sends succeed the round sends the four dealt cards and the outcome
    2 without reading a Decision and without a dealer draw. *)
Theorem pair_of_aces_busts st :
  fst (dealt st 0) = 1 -> fst (dealt st 1) = 1 -> reliable st ->
  play_round st
  = (Ok 2,
     advance st (inbox st)
       (card_sends [dealt st 0; dealt st 1; dealt st 2; dealt st 3]
          ++ [Send (payload_bytes 2 0 0)])
       8).
Proof.
  intros H0 H1 Hrel.
  pose proof (initial_deal_reliable st Hrel) as Hdeal.
  rewrite H0, H1 in Hdeal. change (card_value 1 + card_value 1) with 22 in Hdeal.
  assert (Hp : player_phase 22
                 (advance st (inbox st)
                    (card_sends [dealt st 0; dealt st 1; dealt st 2]) 8)
               = (Ok 22,
                  advance st (inbox st)
                    (card_sends [dealt st 0; dealt st 1; dealt st 2]) 8))
    by (unfold player_phase; apply player_loop_stop; lia).
  destruct (play_round_after_bust _ _ _ _ _ _ _ Hdeal Hp ltac:(lia))
    as [_ ->].
  rewrite (bind_ok _ _ _ _ _
             (send_reliable _ _ (reliable_advance _ _ _ _ Hrel))).
  rewrite advance_advance, inbox_advance.
  rewrite (bind_ok _ _ _ _ _
             (send_reliable _ _ (reliable_advance _ _ _ _ Hrel))).
  rewrite advance_advance, inbox_advance. reflexivity.
Qed.

Lemma pair_of_aces_busts_witness :
  fst (play_round (fresh [Data hit_packet] [0; 0; 13; 1; 9; 2; 7; 3]))
  = Ok 2
  /\ inbox (snd (play_round
                   (fresh [Data hit_packet] [0; 0; 13; 1; 9; 2; 7; 3])))
     = [Data hit_packet].
Proof.
  rewrite (pair_of_aces_busts
             (fresh [Data hit_packet] [0; 0; 13; 1; 9; 2; 7; 3])).
  - split; reflexivity.
  - reflexivity.
  - reflexivity.
  - intros n. reflexivity.
Defined.

(** ** Hand totals *)

(** X12. [calculate_points] adds up card by card: the total of two
    hands put together is the sum of their totals, the order of the
    cards does not matter, a hand of [n] cards with ranks 1..13 totals
    between [2 n] and [11 n], and no single card, whatever its rank
    field, counts more than 11. *)
Theorem calculate_points_algebra :
  (forall a b,
     client.calculate_points (a ++ b)
     = client.calculate_points a + client.calculate_points b)
  /\ (forall a b,
        Permutation a b ->
        client.calculate_points a = client.calculate_points b)
  /\ (forall hand,
        Forall valid_card hand ->
        2 * Z.of_nat (length hand) <= client.calculate_points hand
        <= 11 * Z.of_nat (length hand))
  /\ (forall r s, client.calculate_points [(r, s)] <= 11).
Proof.
  split; [|split; [|split]].
  - intros a b. rewrite !calculate_points_hand_value. apply hand_value_app.
  - intros a b Hperm. rewrite !calculate_points_hand_value.
    induction Hperm as [|c a b _ IH|c d a|a b c _ IH1 _ IH2];
      cbn [hand_value fold_right]; try fold (hand_value a);
      try fold (hand_value b); lia.
  - intros hand Hv. rewrite calculate_points_hand_value.
    apply hand_value_bounds. exact Hv.
  - intros r s. rewrite calculate_points_hand_value.
    cbn [hand_value fold_right fst].
    destruct (card_value_cases r) as [[_ ->] | [[_ ->] | [_ [H ->]]]]; lia.
Qed.

Lemma calculate_points_algebra_witness :
  client.calculate_points [(1, 0); (13, 2)]
  = client.calculate_points [(13, 2); (1, 0)]
  /\ 2 * 2 <= client.calculate_points [(1, 0); (13, 2)] <= 11 * 2.
Proof.
  destruct calculate_points_algebra as [_ [Hperm [Hbounds _]]].
  split.
  - apply Hperm. apply perm_swap.
  - apply (Hbounds [(1, 0); (13, 2)]).
    repeat constructor; cbn; lia.
Defined.

(** ** The player's side of a round *)

Lemma pbind_ok {A B} (m : player.P A) (k : A -> player.P B) ps a ps1 :
  m ps = (Ok a, ps1) -> player.pbind m k ps = k a ps1.
Proof. intros H. unfold player.pbind. rewrite H. reflexivity. Qed.

Lemma pbind_cases {A B} (m : player.P A) (k : A -> player.P B) ps r ps' :
  player.pbind m k ps = (r, ps') ->
  (exists a ps1, m ps = (Ok a, ps1) /\ k a ps1 = (r, ps'))
  \/ (exists e, m ps = (Raise e, ps') /\ r = Raise e)
  \/ (m ps = (OutOfFuel, ps') /\ r = OutOfFuel).
Proof.
  unfold player.pbind. destruct (m ps) as [[a | e |] ps1]; intros H.
  - left. eauto.
  - right. left. inversion H; subst. eauto.
  - right. right. inversion H; subst. eauto.
Qed.

Lemma on_sock_eq {A} (m : M A) ps r s :
  m (player.sock ps) = (r, s) ->
  player.on_sock m ps = (r, player.mkP s (player.typed ps) (player.stats_of ps)).
Proof. intros H. unfold player.on_sock. rewrite H. reflexivity. Qed.

Lemma safe_recv_dead s :
  inbox s = [] ->
  client.safe_recv s = (Ok (0, 0, 0), advance s [] [Recv []] 0).
Proof.
  intros H. unfold client.safe_recv, client.safe_recv_try, bind, recv.
  rewrite H. cbn. unfold log_event, advance. rewrite H. reflexivity.
Qed.

Lemma safe_recv_card c s rest :
  valid_card c -> inbox s = Data (card_packet c) :: rest ->
  client.safe_recv s
  = (Ok (0, fst c, snd c), advance s rest [Recv (card_packet c)] 0).
Proof.
  intros [Hr Hs] Hin.
  apply (payload_round_trip 0 (fst c) (snd c)); try lia. exact Hin.
Qed.

Lemma safe_recv_outcome r s rest :
  r = 1 \/ r = 2 \/ r = 3 ->
  inbox s = Data (payload_bytes r 0 0) :: rest ->
  client.safe_recv s
  = (Ok (r, 0, 0), advance s rest [Recv (payload_bytes r 0 0)] 0).
Proof.
  intros Hr Hin. apply (payload_round_trip r 0 0); try lia. exact Hin.
Qed.

Lemma send_inbox p s r s' : send p s = (r, s') -> inbox s' = inbox s.
Proof.
  intros H. destruct (send_cases p s) as [E | E]; rewrite E in H;
    inversion H; reflexivity.
Qed.

Lemma pret_then {A B} (a : A) (k : A -> player.P B) ps :
  player.pbind (player.pret a) k ps = k a ps.
Proof. reflexivity. Qed.

Lemma update_then {B} f (k : unit -> player.P B) ps :
  player.pbind (player.update f) k ps
  = k tt (player.mkP (player.sock ps) (player.typed ps)
            (f (player.stats_of ps))).
Proof. reflexivity. Qed.

Lemma recv_dead_then {B} (k : Z * Z * Z -> player.P B) ps :
  inbox (player.sock ps) = [] ->
  player.pbind (player.on_sock client.safe_recv) k ps
  = k (0, 0, 0)
      (player.mkP (advance (player.sock ps) [] [Recv []] 0)
         (player.typed ps) (player.stats_of ps)).
Proof.
  intros Hin. apply pbind_ok, on_sock_eq, safe_recv_dead. exact Hin.
Qed.

(** On a connection the server has closed, the loop that waits for the
    result reads nothing for ever. *)
Lemma dealer_turn_dead fuel : forall dealer_hand ps,
  inbox (player.sock ps) = [] ->
  exists ps',
    player.dealer_turn fuel dealer_hand ps = (OutOfFuel, ps')
    /\ inbox (player.sock ps') = [].
Proof.
  induction fuel as [|fuel IH]; intros dealer_hand ps Hin.
  - exists ps. auto.
  - cbn [player.dealer_turn].
    rewrite (pbind_ok _ _ _ _ _ (on_sock_eq _ _ _ _ (safe_recv_dead _ Hin))).
    cbn [Z.eqb negb]. unfold player.pbind at 1. unfold player.pret at 1.
    apply IH. reflexivity.
Qed.

Lemma player_turn_dead fuel : forall hand ps r ps',
  inbox (player.sock ps) = [] ->
  player.player_turn fuel hand ps = (r, ps') ->
  inbox (player.sock ps') = [].
Proof.
  induction fuel as [|fuel IH]; intros hand ps r ps' Hin Hrun;
    cbn [player.player_turn] in Hrun;
    destruct (client.calculate_points hand >? 21).
  - inversion Hrun; subst. exact Hin.
  - inversion Hrun; subst. exact Hin.
  - inversion Hrun; subst. exact Hin.
  - apply pbind_cases in Hrun.
    assert (Hask : forall x p1, player.read_choice ps = (x, p1) ->
                                inbox (player.sock p1) = []).
    { unfold player.read_choice. intros x p1 H.
      destruct (player.ask (player.typed ps)). inversion H; subst. exact Hin. }
    destruct Hrun as [[choice [p1 [H1 Hrun]]] | [[e [H1 _]] | [H1 _]]];
      try (exact (Hask _ _ H1)).
    apply Hask in H1. apply pbind_cases in Hrun. unfold player.plift in Hrun.
    destruct Hrun as [[pkt [p2 [H2 Hrun]]] | [[e [H2 _]] | [H2 _]]];
      inversion H2; subst; try exact H1.
    apply pbind_cases in Hrun.
    assert (Hsend : forall x p3, player.on_sock (send pkt) p2 = (x, p3) ->
                                 inbox (player.sock p3) = []).
    { unfold player.on_sock. intros x p3 H.
      destruct (send pkt (player.sock p2)) as [y s3] eqn:Es.
      inversion H; subst. cbn [player.sock].
      rewrite (send_inbox _ _ _ _ Es). exact H1. }
    destruct Hrun as [[[] [p3 [H3 Hrun]]] | [[e [H3 _]] | [H3 _]]];
      try (exact (Hsend _ _ H3)).
    apply Hsend in H3.
    destruct (pystr_eqb _ _); [inversion Hrun; subst; exact H3|].
    unfold player.pbind at 1, player.update at 1 in Hrun.
    match type of Hrun with
    | player.pbind _ _ ?q = _ =>
        assert (Hq : inbox (player.sock q) = []) by exact H3;
        rewrite (pbind_ok _ _ q _ _
                   (on_sock_eq _ q _ _ (safe_recv_dead _ Hq))) in Hrun
    end.
    unfold player.count_ace in Hrun. cbn [Z.eqb] in Hrun.
    unfold player.pbind at 1, player.pret at 1 in Hrun.
    eapply IH; [|exact Hrun]. reflexivity.
Qed.

(** X13. Once the server has closed the connection the player's
    [play_round] never returns a result: every [safe_recv] turns the
    closed connection into the card [(0, 0, 0)], so the round either
    waits at the prompt, fails on a send, or reads for ever in the
    loop that waits for the result.  That loop alone never ends on a
    closed connection, however many turns it is given. *)
Theorem client_round_on_closed_connection :
  (forall fuel dealer_hand ps,
     inbox (player.sock ps) = [] ->
     fst (player.dealer_turn fuel dealer_hand ps) = OutOfFuel)
  /\ (forall fuel ps result,
        inbox (player.sock ps) = [] ->
        fst (player.play_round fuel ps) <> Ok result).
Proof.
  split.
  - intros fuel dealer_hand ps Hin.
    destruct (dealer_turn_dead fuel dealer_hand ps Hin) as [ps' [-> _]].
    reflexivity.
  - intros fuel ps result Hin. unfold player.play_round.
    unfold player.count_ace.
    rewrite recv_dead_then by exact Hin. cbn [Z.eqb].
    rewrite pret_then, recv_dead_then by reflexivity. cbn [Z.eqb].
    rewrite pret_then, recv_dead_then by reflexivity.
    match goal with
    | |- fst (player.pbind (player.player_turn ?f ?h) ?k ?p) <> _ =>
        destruct (player.player_turn f h p) as [r p1] eqn:Hturn;
        pose proof (player_turn_dead f h p r p1 eq_refl Hturn) as Hin1;
        unfold player.pbind; rewrite Hturn
    end.
    destruct r as [hand | e |]; try discriminate.
    destruct (dealer_turn_dead fuel [(0, 0)] p1 Hin1) as [p2 [-> _]].
    discriminate.
Qed.

Lemma client_round_on_closed_connection_witness :
  fst (player.dealer_turn 1000 [] (seated [] [] no_stats)) = OutOfFuel
  /\ fst (player.play_round 1000 (seated [] (keys_of [false]) no_stats))
     <> Ok 3.
Proof.
  split.
  - apply (proj1 client_round_on_closed_connection). reflexivity.
  - apply (proj2 client_round_on_closed_connection). reflexivity.
Defined.

Lemma single_card_points r s :
  (client.calculate_points [(r, s)] >? 21) = false.
Proof.
  rewrite calculate_points_hand_value. cbn [hand_value fold_right fst].
  destruct (Z.gtb_spec (card_value r + 0) 21) as [H | H]; [|reflexivity].
  destruct (card_value_cases r) as [[_ E] | [[_ E] | [_ [Hr E]]]];
    rewrite E in H; lia.
Qed.

Lemma keeps_ret {A} (a : A) : keeps_dealer_busts (player.pret a).
Proof. intros ps. reflexivity. Qed.

Lemma keeps_bind {A B} (m : player.P A) (k : A -> player.P B) :
  keeps_dealer_busts m -> (forall a, keeps_dealer_busts (k a)) ->
  keeps_dealer_busts (player.pbind m k).
Proof.
  intros Hm Hk ps. unfold player.pbind. specialize (Hm ps).
  destruct (m ps) as [[a | e |] ps1]; cbn [snd] in *; try exact Hm.
  rewrite (Hk a ps1). exact Hm.
Qed.

Lemma keeps_on_sock {A} (m : M A) : keeps_dealer_busts (player.on_sock m).
Proof.
  intros ps. unfold player.on_sock. destruct (m (player.sock ps)).
  reflexivity.
Qed.

Lemma keeps_plift {A} (r : res A) : keeps_dealer_busts (player.plift r).
Proof. intros ps. reflexivity. Qed.

Lemma keeps_read_choice : keeps_dealer_busts player.read_choice.
Proof.
  intros ps. unfold player.read_choice. destruct (player.ask _). reflexivity.
Qed.

Lemma keeps_update f :
  (forall s, player.dealer_busts (f s) = player.dealer_busts s) ->
  keeps_dealer_busts (player.update f).
Proof. intros Hf ps. apply Hf. Qed.

Lemma keeps_count_ace rank : keeps_dealer_busts (player.count_ace rank).
Proof.
  unfold player.count_ace. destruct (rank =? 1);
    [apply keeps_update; reflexivity | apply keeps_ret].
Qed.

Lemma keeps_player_turn fuel : forall hand,
  keeps_dealer_busts (player.player_turn fuel hand).
Proof.
  induction fuel as [|fuel IH]; intros hand; cbn [player.player_turn];
    destruct (client.calculate_points hand >? 21);
    try (apply keeps_bind; [apply keeps_update; reflexivity|];
         intros; apply keeps_ret).
  - intros ps. reflexivity.
  - apply keeps_bind; [apply keeps_read_choice|]. intros choice.
    apply keeps_bind; [apply keeps_plift|]. intros packet.
    apply keeps_bind; [apply keeps_on_sock|]. intros _.
    destruct (pystr_eqb _ _); [apply keeps_ret|].
    apply keeps_bind; [apply keeps_update; reflexivity|]. intros _.
    apply keeps_bind; [apply keeps_on_sock|]. intros [[res rank] suit].
    apply keeps_bind; [apply keeps_count_ace|]. intros _. apply IH.
Qed.

Lemma keeps_dealer_turn fuel : forall dealer_hand,
  keeps_dealer_busts (player.dealer_turn fuel dealer_hand).
Proof.
  induction fuel as [|fuel IH]; intros dealer_hand; cbn [player.dealer_turn].
  - intros ps. reflexivity.
  - apply keeps_bind; [apply keeps_on_sock|]. intros [[res rank] suit].
    apply keeps_bind.
    + destruct (negb (rank =? 0)); [|apply keeps_ret].
      rewrite single_card_points.
      apply keeps_bind; [apply keeps_ret | intros; apply keeps_ret].
    + intros hand. destruct (negb (res =? 0)); [apply keeps_ret | apply IH].
Qed.

Lemma keeps_play_round fuel : keeps_dealer_busts (player.play_round fuel).
Proof.
  unfold player.play_round.
  apply keeps_bind; [apply keeps_on_sock|]. intros [[res1 rank1] suit1].
  apply keeps_bind; [apply keeps_count_ace|]. intros _.
  apply keeps_bind; [apply keeps_on_sock|]. intros [[res2 rank2] suit2].
  apply keeps_bind; [apply keeps_count_ace|]. intros _.
  apply keeps_bind; [apply keeps_on_sock|]. intros [[res3 rank3] suit3].
  apply keeps_bind; [apply keeps_player_turn|]. intros hand.
  apply keeps_dealer_turn.
Qed.

(** X14. The player's count of dealer busts never moves.  The check
    behind it adds up the single card just received, and no card
    counts more than 11, so it never exceeds 21: whatever the server
    sends and whatever is typed, a round, and a whole session of
    rounds, leaves [stats["dealer_busts"]] as it found it. *)
Theorem dealer_busts_never_counted :
  (forall fuel ps,
     player.dealer_busts (player.stats_of (snd (player.play_round fuel ps)))
     = player.dealer_busts (player.stats_of ps))
  /\ (forall fuel num_rounds ps,
        player.dealer_busts
          (player.stats_of (snd (player.session_rounds fuel num_rounds ps)))
        = player.dealer_busts (player.stats_of ps)).
Proof.
  split; [exact keeps_play_round|].
  intros fuel num_rounds. induction num_rounds as [|k IH];
    cbn [player.session_rounds].
  - apply keeps_ret.
  - apply keeps_bind; [apply keeps_play_round|]. intros result.
    apply keeps_bind; [|intros _; exact IH].
    apply keeps_update. intros s.
    destruct (result =? 3); [|destruct (result =? 2)]; reflexivity.
Qed.

(** ** The two sides of a round agree *)

Lemma recv_packet d rest st :
  inbox st = Data d :: rest -> (length d <= 1024)%nat ->
  recv 1024 st = (Ok d, advance st rest [Recv d] 0).
Proof.
  intros Hin Hlen. unfold recv. rewrite Hin.
  destruct (Nat.leb_spec (length d) 1024); [reflexivity | lia].
Qed.

Lemma count_ace_then {B} rank (k : unit -> player.P B) s lines stats :
  player.pbind (player.count_ace rank) k (player.mkP s lines stats)
  = k tt (player.mkP s lines
            (if rank =? 1 then player.add_ace stats else stats)).
Proof. unfold player.count_ace. destruct (rank =? 1); reflexivity. Qed.

Lemma recv_card_then {B} c (k : Z * Z * Z -> player.P B) s rest lines stats :
  valid_card c -> inbox s = Data (card_packet c) :: rest ->
  player.pbind (player.on_sock client.safe_recv) k (player.mkP s lines stats)
  = k (0, fst c, snd c)
      (player.mkP (advance s rest [Recv (card_packet c)] 0) lines stats).
Proof.
  intros Hc Hin. apply pbind_ok.
  apply (on_sock_eq client.safe_recv (player.mkP s lines stats)).
  apply safe_recv_card; assumption.
Qed.

Lemma turns_agree choices : forall fuel total st total' st1,
  player_loop fuel total st = (Ok total', st1) ->
  inbox st = map Data (decisions_of choices) ->
  In false choices ->
  exists evs left n,
    st1 = advance st (map Data (decisions_of left)) evs n
    /\ card_traffic evs
    /\ (length (recvs_of evs) <= S (length (sends_of evs)))%nat
    /\ turn_replayed choices left evs total total'.
Proof.
  induction choices as [|hit choices IH];
    intros fuel total st total' st1 Hrun Hin Hstand; [contradiction|].
  destruct (Z.le_gt_cases total 21) as [Hle | Hgt].
  - destruct fuel as [|fuel].
    { cbn [player_loop] in Hrun. destruct (Z.leb_spec total 21); [|lia].
      discriminate Hrun. }
    cbn [decisions_of map] in Hin. fold (decisions_of choices) in Hin.
    destruct hit.
    + (* the player hits *)
      pose proof (recv_packet _ _ _ Hin ltac:(cbn; lia)) as Hrecv.
      rewrite (player_loop_hit _ _ _ hit_packet _ (lit "Hittt") Hle Hrecv)
        in Hrun by (discriminate || reflexivity).
      apply send_then in Hrun. destruct Hrun as [[E _] | Hrun];
        [discriminate|].
      rewrite !advance_advance, inbox_advance, entropy_advance, drawn_advance
        in Hrun.
      set (c := card_at (entropy st) (0 + drawn st)) in *.
      destruct Hstand as [E | Hstand]; [discriminate|].
      destruct (IH _ _ _ _ _ Hrun (inbox_advance _ _ _ _) Hstand)
        as [evs [left [n [-> [Htr [Hlen Hreplay]]]]]].
      exists (([Recv hit_packet] ++ []) ++ [Send (card_packet c)] ++ evs),
        left.
      eexists. rewrite advance_advance. split; [reflexivity|].
      split; [|split].
      * apply (card_traffic_app [_; _]); [|exact Htr].
        repeat constructor. exists c. split; [apply valid_card_at | reflexivity].
      * cbn [app recvs_of sends_of flat_map length].
        fold (recvs_of evs). fold (sends_of evs). lia.
      * intros fuelc hand stats s tail Hhand Hrel Hs Hfuel.
        cbn [app recvs_of sends_of flat_map length map] in Hs, Hfuel |- *.
        fold (recvs_of evs) in *. fold (sends_of evs) in *.
        destruct fuelc as [|fuelc]; [lia|].
        cbn [player.player_turn]. rewrite Hhand.
        destruct (Z.gtb_spec total 21); [lia|].
        unfold player.pbind at 1, player.read_choice at 1.
        cbn [player.typed keys_of map player.ask player.sock player.stats_of].
        change (pystr_eqb (lit "h") (lit "h") || pystr_eqb (lit "h") (lit "s"))
          with true. cbv iota.
        change (client.decision_of_choice (lit "h")) with (lit "Hittt").
        change (client.decision_packet (lit "Hittt")) with (Ok hit_packet).
        unfold player.pbind at 1, player.plift at 1.
        rewrite (pbind_ok _ _ _ _ _
                   (on_sock_eq _ (player.mkP s _ stats) _ _
                      (send_reliable hit_packet s Hrel))).
        change (pystr_eqb (lit "Hittt") (lit "Stand")) with false. cbv iota.
        rewrite update_then. cbn [player.sock player.typed player.stats_of].
        rewrite (recv_card_then c) with (rest := map Data (sends_of evs) ++ tail)
          by (try apply valid_card_at; rewrite inbox_advance; exact Hs).
        rewrite count_ace_then, advance_advance.
        rewrite <- surjective_pairing.
        destruct (Hreplay fuelc (hand ++ [c])
                    (if fst c =? 1
                     then player.add_ace (player.add_hit stats)
                     else player.add_hit stats)
                    (advance s (map Data (sends_of evs) ++ tail)
                       ([Send hit_packet] ++ [Recv (card_packet c)]) (0 + 0))
                    tail)
          as [hand' [stats' [s' [Hturn [Hpts [Hrel' [Hin' Hsent']]]]]]].
        -- rewrite calculate_points_hand_value, hand_value_app,
             <- calculate_points_hand_value, Hhand.
           cbn [hand_value fold_right]. lia.
        -- apply reliable_advance. exact Hrel.
        -- apply inbox_advance.
        -- lia.
        -- exists hand', stats', s'. fold (keys_of choices).
           rewrite Hturn. repeat split; try assumption.
           rewrite Hsent', sent_advance. cbn [sends_of flat_map app].
           rewrite <- app_assoc. reflexivity.
    + (* the player stands *)
      pose proof (recv_packet _ _ _ Hin ltac:(cbn; lia)) as Hrecv.
      rewrite (player_loop_other _ _ _ stand_packet _ (lit "Stand") Hle Hrecv)
        in Hrun by (discriminate || reflexivity).
      assert (E : total' = total
                  /\ st1 = advance st (map Data (decisions_of choices))
                             [Recv stand_packet] 0) by (split; congruence).
      destruct E as [-> ->].
      exists [Recv stand_packet], choices, O.
      split; [reflexivity|]. split; [apply card_traffic_recv|].
      split; [cbn; lia|].
      intros fuelc hand stats s tail Hhand Hrel Hs Hfuel.
      cbn [app recvs_of sends_of flat_map length map] in Hs, Hfuel |- *.
      destruct fuelc as [|fuelc]; [lia|].
      cbn [player.player_turn]. rewrite Hhand.
      destruct (Z.gtb_spec total 21); [lia|].
      unfold player.pbind at 1, player.read_choice at 1.
      cbn [player.typed keys_of map player.ask player.sock player.stats_of].
      change (pystr_eqb (lit "s") (lit "h") || pystr_eqb (lit "s") (lit "s"))
        with true. cbv iota.
      change (client.decision_of_choice (lit "s")) with (lit "Stand").
      change (client.decision_packet (lit "Stand")) with (Ok stand_packet).
      unfold player.pbind at 1, player.plift at 1.
      rewrite (pbind_ok _ _ _ _ _
                 (on_sock_eq _ (player.mkP s _ stats) _ _
                    (send_reliable stand_packet s Hrel))).
      change (pystr_eqb (lit "Stand") (lit "Stand")) with true. cbv iota.
      exists hand, stats, (advance s (inbox s) [Send stand_packet] 0).
      fold (keys_of choices).
      split; [reflexivity|]. split; [exact Hhand|].
      split; [apply reliable_advance; exact Hrel|].
      split; [rewrite inbox_advance; exact Hs|].
      rewrite sent_advance. reflexivity.
  - (* the player is over 21 *)
    rewrite player_loop_stop in Hrun by lia.
    assert (E : total' = total /\ st1 = st) by (split; congruence).
    destruct E as [-> ->].
    exists [], (hit :: choices), O. rewrite <- Hin, advance_id.
    split; [reflexivity|]. split; [constructor|]. split; [cbn; lia|].
    intros fuelc hand stats s tail Hhand Hrel Hs Hfuel.
    cbn [app recvs_of sends_of flat_map length map] in Hs |- *.
    exists hand, (player.add_bust stats), s.
    rewrite app_nil_r.
    split; [|split; [exact Hhand | split; [exact Hrel | split;
      [exact Hs | reflexivity]]]].
    destruct fuelc; cbn [player.player_turn]; rewrite Hhand;
      destruct (Z.gtb_spec total 21); try lia; reflexivity.
Qed.

Lemma dealer_turn_reads cards : forall fuel dealer_hand s lines stats r tail,
  Forall valid_card cards ->
  r = 1 \/ r = 2 \/ r = 3 ->
  inbox s = map Data (map card_packet cards ++ [payload_bytes r 0 0]) ++ tail ->
  (length cards < fuel)%nat ->
  exists s',
    player.dealer_turn fuel dealer_hand (player.mkP s lines stats)
    = (Ok r, player.mkP s' lines stats)
    /\ inbox s' = tail /\ sent s' = sent s.
Proof.
  induction cards as [|c cards IH];
    intros fuel dealer_hand s lines stats r tail Hv Hr Hin Hfuel;
    (destruct fuel as [|fuel]; [cbn [length] in Hfuel; lia|]);
    cbn [player.dealer_turn]; cbn [map app] in Hin.
  - rewrite (pbind_ok _ _ _ _ _
               (on_sock_eq _ (player.mkP s lines stats) _ _
                  (safe_recv_outcome r s tail Hr Hin))).
    cbn [Z.eqb negb]. rewrite pret_then.
    replace (negb (r =? 0)) with true
      by (destruct Hr as [-> | [-> | ->]]; reflexivity).
    eexists. split; [reflexivity|].
    rewrite inbox_advance, sent_advance. cbn [sends_of flat_map].
    rewrite app_nil_r. auto.
  - inversion Hv as [|c' cards' Hc Hcs]; subst.
    rewrite (recv_card_then c) with
      (rest := map Data (map card_packet cards ++ [payload_bytes r 0 0]) ++ tail)
      by assumption.
    replace (negb (fst c =? 0)) with true
      by (destruct Hc as [Hc _]; destruct (Z.eqb_spec (fst c) 0);
          [lia | reflexivity]).
    rewrite single_card_points.
    unfold player.pbind at 2. unfold player.pret at 1.
    rewrite pret_then. cbn [Z.eqb negb].
    destruct (IH fuel (dealer_hand ++ [(fst c, snd c)])
                (advance s
                   (map Data (map card_packet cards ++ [payload_bytes r 0 0])
                      ++ tail)
                   [Recv (card_packet c)] 0)
                lines stats r tail Hcs Hr (inbox_advance _ _ _ _)
                ltac:(cbn [length] in Hfuel; lia))
      as [s' [Hturn [Hin' Hsent']]].
    exists s'. rewrite Hturn. split; [reflexivity|]. split; [exact Hin'|].
    rewrite Hsent', sent_advance. cbn [sends_of flat_map].
    apply app_nil_r.
Qed.

(** With a stand among the choices the server's player loop gets
    through on a connection whose sends succeed. *)
Lemma player_loop_scripted choices : forall fuel total st,
  reliable st ->
  inbox st = map Data (decisions_of choices) ->
  In false choices ->
  22 - total <= Z.of_nat fuel ->
  exists total' st1,
    player_loop fuel total st = (Ok total', st1) /\ reliable st1.
Proof.
  induction choices as [|hit choices IH];
    intros fuel total st Hrel Hin Hstand Hfuel; [contradiction|].
  destruct (Z.le_gt_cases total 21) as [Hle | Hgt].
  - destruct fuel as [|fuel]; [lia|].
    cbn [decisions_of map] in Hin. fold (decisions_of choices) in Hin.
    destruct hit.
    + pose proof (recv_packet _ _ _ Hin ltac:(cbn; lia)) as Hrecv.
      rewrite (player_loop_hit _ _ _ hit_packet _ (lit "Hittt") Hle Hrecv)
        by (discriminate || reflexivity).
      rewrite (bind_ok _ _ _ _ _
                 (send_reliable _ _
                    (reliable_advance _ _ _ _
                       (reliable_advance _ _ _ _ Hrel)))).
      destruct Hstand as [E | Hstand]; [discriminate|].
      apply IH; try assumption.
      * reflexivity.
      * rewrite entropy_advance, drawn_advance.
        pose proof (card_value_bounds _
                      (valid_card_at (entropy st) (0 + drawn st))).
        lia.
    + pose proof (recv_packet _ _ _ Hin ltac:(cbn; lia)) as Hrecv.
      rewrite (player_loop_other _ _ _ stand_packet _ (lit "Stand") Hle Hrecv)
        by (discriminate || reflexivity).
      eexists; eexists. split; [reflexivity|].
      apply reliable_advance. exact Hrel.
  - rewrite player_loop_stop by lia. eauto.
Qed.

Lemma recvs_of_app a b : recvs_of (a ++ b) = recvs_of a ++ recvs_of b.
Proof. apply flat_map_app. Qed.

Lemma round_scripted st total0 dealer0 hid st0 total sp :
  initial_deal st = (Ok (total0, dealer0, hid), st0) ->
  player_phase total0 st0 = (Ok total, sp) ->
  reliable sp ->
  exists draws r n,
    Forall valid_card draws
    /\ (r = 1 \/ r = 2 \/ r = 3)
    /\ play_round st
       = (Ok r,
          advance sp (inbox sp)
            ([Send (card_packet hid)] ++ card_sends draws
               ++ [Send (payload_bytes r 0 0)])
            n).
Proof.
  intros Hdeal Hp Hrel.
  destruct (Z.le_gt_cases total 21) as [Hle | Hgt].
  - destruct (play_round_after_stand _ _ _ _ _ _ _ Hdeal Hp Hle Hrel)
      as [k Hrun].
    eexists; eexists; eexists. split; [|split; [|exact Hrun]].
    + apply cards_from_valid.
    + apply decide_outcome_range.
  - destruct (play_round_after_bust _ _ _ _ _ _ _ Hdeal Hp Hgt) as [_ Hrun].
    exists [], 2, O. split; [constructor|]. split; [auto|].
    rewrite Hrun, (bind_ok _ _ _ _ _ (send_reliable _ _ Hrel)).
    rewrite (bind_ok _ _ _ _ _
               (send_reliable _ _ (reliable_advance _ _ _ _ Hrel))).
    rewrite advance_advance, inbox_advance. reflexivity.
Qed.

(** X15. The two programs agree on a round.  Let the player's choices
    contain a stand and let the sends succeed both ways.  The server,
    fed the Decisions for these choices, completes the round with some
    result; the player's [play_round], fed the packets the server sent
    in that round and typing the same choices, returns the same
    result, having sent exactly the Decisions the server read and
    having read every packet. *)
Theorem rounds_agree choices st :
  inbox st = map Data (decisions_of choices) ->
  In false choices ->
  reliable st ->
  exists r st' packets reads,
    play_round st = (Ok r, st')
    /\ sent st' = sent st ++ packets
    /\ received st' = received st ++ reads
    /\ forall s fuel stats,
         reliable s -> inbox s = map Data packets ->
         (length packets <= fuel)%nat ->
         exists ps',
           player.play_round fuel (player.mkP s (keys_of choices) stats)
           = (Ok r, ps')
           /\ sent (player.sock ps') = sent s ++ reads
           /\ inbox (player.sock ps') = [].
Proof.
  intros Hin Hstand Hrel.
  pose proof (initial_deal_reliable st Hrel) as Hdeal.
  set (st0 := advance st (inbox st)
                (card_sends [dealt st 0; dealt st 1; dealt st 2]) 8) in *.
  set (total0 := card_value (fst (dealt st 0))
                 + card_value (fst (dealt st 1))) in *.
  assert (Hrel0 : reliable st0) by (apply reliable_advance; exact Hrel).
  destruct (player_loop_scripted choices (Z.to_nat (22 - total0)) total0 st0
              Hrel0 Hin Hstand (player_phase_fuel total0))
    as [total [sp [Hp Hrelp]]].
  destruct (turns_agree choices _ _ _ _ _ Hp Hin Hstand)
    as [evs [left [n [Esp [Htr [Hlen Hreplay]]]]]].
  destruct (round_scripted _ _ _ _ _ _ _ Hdeal Hp Hrelp)
    as [draws [r [m [Hdraws [Hr Hrun]]]]].
  exists r. eexists.
  exists (map card_packet [dealt st 0; dealt st 1; dealt st 2]
            ++ sends_of evs
            ++ map card_packet (dealt st 3 :: draws)
            ++ [payload_bytes r 0 0]),
    (recvs_of evs).
  split; [exact Hrun|]. rewrite Esp. unfold st0.
  rewrite !advance_advance, sent_advance, received_advance.
  split; [|split].
  - rewrite !sends_of_app, !sends_of_card_sends. cbn [map app].
    reflexivity.
  - rewrite !recvs_of_app, !recvs_of_card_sends.
    cbn [recvs_of flat_map app]. rewrite app_nil_r. reflexivity.
  - intros s fuel stats Hrels Hins Hfuel.
    cbn [map app] in Hins. rewrite !map_app in Hins.
    rewrite !length_app in Hfuel. cbn [length map] in Hfuel.
    rewrite !length_map in Hfuel.
    pose proof (valid_card_at (entropy st)) as Hv.
    unfold player.play_round.
    rewrite (recv_card_then (dealt st 0)) with (rest := tl (inbox s))
      by (try apply Hv; rewrite Hins; reflexivity).
    rewrite count_ace_then.
    rewrite (recv_card_then (dealt st 1)) with (rest := tl (tl (inbox s)))
      by (try apply Hv; rewrite inbox_advance, Hins; reflexivity).
    rewrite count_ace_then.
    rewrite (recv_card_then (dealt st 2)) with (rest := tl (tl (tl (inbox s))))
      by (try apply Hv; rewrite inbox_advance, Hins; reflexivity).
    rewrite <- !surjective_pairing, !advance_advance.
    match goal with
    | |- context [player.mkP ?s1 _ ?stats1] =>
        destruct (Hreplay fuel [dealt st 0; dealt st 1] stats1 s1
                    (map Data (map card_packet (dealt st 3 :: draws))
                       ++ map Data [payload_bytes r 0 0]))
          as [hand' [stats' [s' [Hturn [_ [Hrel' [Hin' Hsent']]]]]]]
    end.
    + rewrite calculate_points_hand_value. cbn [hand_value fold_right].
      unfold total0. lia.
    + apply reliable_advance. exact Hrels.
    + rewrite inbox_advance, Hins. cbn [tl map app]. rewrite map_app.
      reflexivity.
    + lia.
    + rewrite (pbind_ok _ _ _ _ _ Hturn).
      destruct (dealer_turn_reads (dealt st 3 :: draws) fuel
                  [dealt st 2] s' (keys_of left) stats' r []
                  (Forall_cons _ (Hv _) Hdraws) Hr)
        as [s'' [Hdt [Hin'' Hsent'']]].
      * rewrite Hin', map_app, app_nil_r. reflexivity.
      * cbn [length]. lia.
      * eexists. split; [exact Hdt|]. cbn [player.sock].
        rewrite Hsent'', Hsent', sent_advance. cbn [sends_of flat_map app].
        rewrite app_nil_r. auto.
Qed.

Lemma rounds_agree_witness :
  exists r st' packets reads,
    play_round bust_table = (Ok r, st')
    /\ sent st' = sent bust_table ++ packets
    /\ received st' = received bust_table ++ reads
    /\ forall s fuel stats,
         reliable s -> inbox s = map Data packets ->
         (length packets <= fuel)%nat ->
         exists ps',
           player.play_round fuel
             (player.mkP s (keys_of [true; false]) stats)
           = (Ok r, ps')
           /\ sent (player.sock ps') = sent s ++ reads
           /\ inbox (player.sock ps') = [].
Proof.
  apply (rounds_agree [true; false] bust_table).
  - reflexivity.
  - right. left. reflexivity.
  - intros n. reflexivity.
Defined.

(** ** The player's scoreboard *)

Section Unchanged.
Variable f : player.stats -> Z.
Hypothesis Hf : outside_round f.

Lemma unchanged_ret {A} (a : A) : unchanged f (player.pret a).
Proof. intros ps. reflexivity. Qed.

Lemma unchanged_bind {A B} (m : player.P A) (k : A -> player.P B) :
  unchanged f m -> (forall a, unchanged f (k a)) ->
  unchanged f (player.pbind m k).
Proof.
  intros Hm Hk ps. unfold player.pbind. specialize (Hm ps).
  destruct (m ps) as [[a | e |] ps1]; cbn [snd] in *; try exact Hm.
  rewrite (Hk a ps1). exact Hm.
Qed.

Lemma unchanged_on_sock {A} (m : M A) : unchanged f (player.on_sock m).
Proof.
  intros ps. unfold player.on_sock. destruct (m (player.sock ps)).
  reflexivity.
Qed.

Lemma unchanged_read_choice : unchanged f player.read_choice.
Proof.
  intros ps. unfold player.read_choice. destruct (player.ask _). reflexivity.
Qed.

Lemma unchanged_count_ace rank : unchanged f (player.count_ace rank).
Proof.
  unfold player.count_ace. destruct (rank =? 1); intros ps;
    [apply Hf | reflexivity].
Qed.

Lemma unchanged_player_turn fuel : forall hand,
  unchanged f (player.player_turn fuel hand).
Proof.
  induction fuel as [|fuel IH]; intros hand; cbn [player.player_turn];
    destruct (client.calculate_points hand >? 21);
    try (apply unchanged_bind; [intros ps; apply Hf|];
         intros; apply unchanged_ret).
  - intros ps. reflexivity.
  - apply unchanged_bind; [apply unchanged_read_choice|]. intros choice.
    apply unchanged_bind; [intros ps; reflexivity|]. intros packet.
    apply unchanged_bind; [apply unchanged_on_sock|]. intros _.
    destruct (pystr_eqb _ _); [apply unchanged_ret|].
    apply unchanged_bind; [intros ps; apply Hf|]. intros _.
    apply unchanged_bind; [apply unchanged_on_sock|].
    intros [[res rank] suit].
    apply unchanged_bind; [apply unchanged_count_ace|]. intros _. apply IH.
Qed.

Lemma unchanged_dealer_turn fuel : forall dealer_hand,
  unchanged f (player.dealer_turn fuel dealer_hand).
Proof.
  induction fuel as [|fuel IH]; intros dealer_hand; cbn [player.dealer_turn].
  - intros ps. reflexivity.
  - apply unchanged_bind; [apply unchanged_on_sock|].
    intros [[res rank] suit].
    apply unchanged_bind.
    + destruct (negb (rank =? 0)); [|apply unchanged_ret].
      apply unchanged_bind; [|intros; apply unchanged_ret].
      destruct (_ >? 21); intros ps; [apply Hf | reflexivity].
    + intros hand.
      destruct (negb (res =? 0)); [apply unchanged_ret | apply IH].
Qed.

Lemma unchanged_play_round fuel : unchanged f (player.play_round fuel).
Proof.
  unfold player.play_round.
  apply unchanged_bind; [apply unchanged_on_sock|].
  intros [[res1 rank1] suit1].
  apply unchanged_bind; [apply unchanged_count_ace|]. intros _.
  apply unchanged_bind; [apply unchanged_on_sock|].
  intros [[res2 rank2] suit2].
  apply unchanged_bind; [apply unchanged_count_ace|]. intros _.
  apply unchanged_bind; [apply unchanged_on_sock|].
  intros [[res3 rank3] suit3].
  apply unchanged_bind; [apply unchanged_player_turn|]. intros hand.
  apply unchanged_dealer_turn.
Qed.

End Unchanged.

Lemma outside_round_projections :
  outside_round player.wins /\ outside_round player.losses
  /\ outside_round player.ties.
Proof. repeat split. Qed.

(** X16. The player's scoreboard.  A round changes none of wins,
    losses and ties, however it ends.  A session never decreases any
    of the three and never adds more than [num_rounds] to them
    together, however it ends; a session that completes its
    [num_rounds] rounds has added exactly one to one of the three per
    round, so that together they have grown by [num_rounds]. *)
Theorem scoreboard_counts_rounds :
  (forall fuel ps,
     player.wins (player.stats_of (snd (player.play_round fuel ps)))
     = player.wins (player.stats_of ps)
     /\ player.losses (player.stats_of (snd (player.play_round fuel ps)))
        = player.losses (player.stats_of ps)
     /\ player.ties (player.stats_of (snd (player.play_round fuel ps)))
        = player.ties (player.stats_of ps))
  /\ (forall fuel num_rounds ps,
        player.wins (player.stats_of ps)
        <= player.wins
             (player.stats_of (snd (player.session_rounds fuel num_rounds ps)))
        /\ player.losses (player.stats_of ps)
           <= player.losses
                (player.stats_of
                   (snd (player.session_rounds fuel num_rounds ps)))
        /\ player.ties (player.stats_of ps)
           <= player.ties
                (player.stats_of
                   (snd (player.session_rounds fuel num_rounds ps)))
        /\ rounds_counted
             (player.stats_of (snd (player.session_rounds fuel num_rounds ps)))
           <= rounds_counted (player.stats_of ps) + Z.of_nat num_rounds)
  /\ (forall fuel num_rounds ps ps',
        player.session_rounds fuel num_rounds ps = (Ok tt, ps') ->
        rounds_counted (player.stats_of ps')
        = rounds_counted (player.stats_of ps) + Z.of_nat num_rounds
        /\ player.wins (player.stats_of ps)
           <= player.wins (player.stats_of ps')
        /\ player.losses (player.stats_of ps)
           <= player.losses (player.stats_of ps')
        /\ player.ties (player.stats_of ps)
           <= player.ties (player.stats_of ps')).
Proof.
  destruct outside_round_projections as [Hw [Hl Ht]].
  split; [|split].
  - intros fuel ps. split; [|split].
    + apply (unchanged_play_round _ Hw).
    + apply (unchanged_play_round _ Hl).
    + apply (unchanged_play_round _ Ht).
  - intros fuel num_rounds.
    induction num_rounds as [|k IH]; intros ps;
      cbn [player.session_rounds].
    + unfold player.pret, rounds_counted. cbn [snd]. lia.
    + unfold player.pbind, player.update.
      pose proof (unchanged_play_round _ Hw fuel ps) as Ew.
      pose proof (unchanged_play_round _ Hl fuel ps) as El.
      pose proof (unchanged_play_round _ Ht fuel ps) as Et.
      destruct (player.play_round fuel ps) as [[result | e |] ps1];
        cbn [snd] in Ew, El, Et |- *;
        try (unfold rounds_counted; lia).
      match goal with
      | |- context [player.session_rounds fuel k ?p] =>
          specialize (IH p); cbn [player.stats_of] in IH
      end.
      unfold rounds_counted in *.
      destruct (result =? 3); [|destruct (result =? 2)];
        cbn [player.add_win player.add_loss player.add_tie
             player.wins player.losses player.ties] in IH; lia.
  - intros fuel num_rounds.
    induction num_rounds as [|k IH]; intros ps ps' Hrun;
      cbn [player.session_rounds] in Hrun.
    + unfold player.pret in Hrun.
      assert (ps' = ps) by congruence. subst ps'. lia.
    + unfold player.pbind at 1 in Hrun.
      pose proof (unchanged_play_round _ Hw fuel ps) as Ew.
      pose proof (unchanged_play_round _ Hl fuel ps) as El.
      pose proof (unchanged_play_round _ Ht fuel ps) as Et.
      destruct (player.play_round fuel ps) as [[result | e |] ps1];
        try discriminate Hrun.
      cbn [snd] in Ew, El, Et.
      unfold player.pbind, player.update in Hrun.
      apply IH in Hrun. cbn [player.stats_of] in Hrun.
      unfold rounds_counted in *.
      destruct (result =? 3); [|destruct (result =? 2)];
        cbn [player.add_win player.add_loss player.add_tie
             player.wins player.losses player.ties] in Hrun; lia.
Qed.

Lemma scoreboard_counts_rounds_witness :
  rounds_counted
    (player.stats_of (snd (player.session_rounds 6 1 tie_seat)))
  = rounds_counted (player.stats_of tie_seat) + Z.of_nat 1
  /\ player.wins (player.stats_of tie_seat)
     <= player.wins
          (player.stats_of (snd (player.session_rounds 6 1 tie_seat)))
  /\ player.losses (player.stats_of tie_seat)
     <= player.losses
          (player.stats_of (snd (player.session_rounds 6 1 tie_seat)))
  /\ player.ties (player.stats_of tie_seat)
     <= player.ties
          (player.stats_of (snd (player.session_rounds 6 1 tie_seat))).
Proof.
  apply (proj2 (proj2 scoreboard_counts_rounds) 6%nat 1%nat tie_seat).
  vm_compute. reflexivity.
Defined.

(** ** Every Decision read of a round *)

Lemma after_hits_loop n : forall ps st ps' st' fuel,
  after_hits n ps st = Some (ps', st') ->
  player_loop (n + fuel) ps st = player_loop fuel ps' st'
  /\ ps + 2 * Z.of_nat n <= ps'.
Proof.
  induction n as [|n IH]; intros ps st ps' st' fuel H.
  - cbn [after_hits] in H. assert (ps' = ps /\ st' = st) as [-> ->]
      by (split; congruence).
    split; [reflexivity | lia].
  - cbn [after_hits] in H.
    destruct (Z.leb_spec ps 21) as [Hps|]; [|discriminate].
    destruct (recv 1024 st) as [[[|b data] | |] st1] eqn:Hr;
      try discriminate.
    destruct (decode_decision (b :: data)) as [d | |] eqn:Hd;
      try discriminate.
    destruct (pystr_eqb d (lit "Hittt")) eqn:Hs; [|discriminate].
    rewrite deal_card_eq in H. cbv beta iota in H.
    rewrite send_payload_card in H by apply valid_card_at.
    destruct (send (card_packet (card_at (entropy st1) (drawn st1)))
                (advance st1 (inbox st1) [] 2))
      as [[[] | |] st3] eqn:Hsend; try discriminate.
    destruct (IH _ _ _ _ fuel H) as [Hloop Hle].
    pose proof (card_value_bounds _ (valid_card_at (entropy st1) (drawn st1))).
    split; [|lia].
    cbn [Nat.add].
    rewrite (player_loop_hit _ _ _ _ _ _ Hps Hr ltac:(discriminate) Hd Hs).
    rewrite (bind_ok _ _ _ _ _ Hsend). exact Hloop.
Qed.

Lemma player_phase_after_hits n ps0 st0 ps sk :
  after_hits n ps0 st0 = Some (ps, sk) -> ps <= 21 ->
  exists fuel, player_phase ps0 st0 = player_loop (S fuel) ps sk.
Proof.
  intros Hhits Hps.
  destruct (after_hits_loop n _ _ _ _ O Hhits) as [_ Hle].
  remember (Z.to_nat (22 - ps0) - n - 1)%nat as fuel eqn:Ef.
  assert (E : Z.to_nat (22 - ps0) = (n + S fuel)%nat) by lia.
  exists fuel. unfold player_phase. rewrite E.
  apply (after_hits_loop n _ _ _ _ _ Hhits).
Qed.

(** X17. What a failed Decision read does, at any Decision read of a
    round, that is after any number of obeyed hits.  A read that
    brings some bytes but not exactly 10 raises [struct.error] out of
    [play_round] with nothing sent after the read, and a socket error
    on the read is passed on likewise; an exception leaving
    [play_round] leaves the rounds loop with the counters untouched,
    and [handle_client] then closes the connection.  A read that
    brings no data ends the player's turn as a stand does: when the
    sends succeed the round sends the hidden card, lets the dealer
    draw to 17, sends the outcome and returns it, and the rounds loop
    passes the returned outcome to [update_global_stats]. *)
Theorem read_failure_handling :
  (forall st ps0 ds0 hid st0 n ps sk data st1,
     initial_deal st = (Ok (ps0, ds0, hid), st0) ->
     after_hits n ps0 st0 = Some (ps, sk) -> ps <= 21 ->
     recv 1024 sk = (Ok data, st1) ->
     data <> [] -> length data <> 10%nat ->
     play_round st = (Raise StructError, st1))
  /\ (forall st ps0 ds0 hid st0 n ps sk e st1,
        initial_deal st = (Ok (ps0, ds0, hid), st0) ->
        after_hits n ps0 st0 = Some (ps, sk) -> ps <= 21 ->
        recv 1024 sk = (Raise e, st1) ->
        play_round st = (Raise e, st1))
  /\ (forall rounds st e st',
        play_round st = (Raise e, st') ->
        rounds_loop (S rounds) st = (Raise e, st')
        /\ total_wins st' = total_wins st
        /\ total_losses st' = total_losses st
        /\ total_ties st' = total_ties st)
  /\ (forall st e st',
        handle_client_try st = (Raise e, st') ->
        snd (handle_client st) = log_event Close st')
  /\ (forall st ps0 ds0 hid st0 n ps sk st1,
        initial_deal st = (Ok (ps0, ds0, hid), st0) ->
        after_hits n ps0 st0 = Some (ps, sk) -> ps <= 21 ->
        recv 1024 sk = (Ok [], st1) ->
        reliable st1 ->
        exists k,
          play_round st
          = (Ok (decide_outcome ps
                   (ds0 + hand_value
                            (cards_from (entropy st1) (drawn st1) k))),
             advance st1 (inbox st1)
               ([Send (card_packet hid)]
                  ++ card_sends (cards_from (entropy st1) (drawn st1) k)
                  ++ [Send (payload_bytes
                              (decide_outcome ps
                                 (ds0 + hand_value
                                          (cards_from (entropy st1)
                                             (drawn st1) k)))
                              0 0)])
               (2 * k)))
  /\ (forall rounds st r st',
        play_round st = (Ok r, st') ->
        rounds_loop (S rounds) st
        = bind (update_global_stats r) (fun _ => rounds_loop rounds) st').
Proof.
  split; [|split; [|split; [|split; [|split]]]].
  6:{ intros rounds st r st' H. cbn [rounds_loop].
      rewrite (bind_ok _ _ _ _ _ H). reflexivity. }
  - intros st ps0 ds0 hid st0 n ps sk data st1 Hdeal Hhits Hps Hrecv Hne Hlen.
    apply (play_round_raise_in_player _ _ _ _ _ _ _ Hdeal).
    destruct (player_phase_after_hits _ _ _ _ _ Hhits Hps) as [fuel ->].
    apply (player_loop_bad _ _ _ data); auto using decode_decision_length.
  - intros st ps0 ds0 hid st0 n ps sk e st1 Hdeal Hhits Hps Hrecv.
    apply (play_round_raise_in_player _ _ _ _ _ _ _ Hdeal).
    destruct (player_phase_after_hits _ _ _ _ _ Hhits Hps) as [fuel ->].
    apply player_loop_recv_fail; assumption.
  - intros rounds st e st' H. split.
    + cbn [rounds_loop]. apply bind_raise. exact H.
    + destruct (play_round_advance _ _ _ H) as [i [evs [n ->]]].
      repeat split.
  - intros st e st' H. unfold handle_client. rewrite H. reflexivity.
  - intros st ps0 ds0 hid st0 n ps sk st1 Hdeal Hhits Hps Hrecv Hrel.
    apply (play_round_after_stand _ _ _ _ _ _ _ Hdeal); try assumption.
    destruct (player_phase_after_hits _ _ _ _ _ Hhits Hps) as [fuel ->].
    apply player_loop_eof; assumption.
Qed.

Lemma read_failure_handling_witness :
  log (snd (handle_client late_short_session))
  = [Recv (request_bytes 2)]
      ++ card_sends [(10, 0); (9, 1); (10, 2)]
      ++ [Recv hit_packet; Send (card_packet (2, 0));
          Recv (firstn 9 hit_packet); Close]
  /\ total_games (snd (handle_client late_short_session)) = 0.
Proof.
  destruct read_failure_handling as [Hshort [_ [Hloop [Hclose _]]]].
  set (st := snd (recv 1024 late_short_session)).
  set (st0 := snd (initial_deal st)).
  set (sk := match after_hits 1 19 st0 with
             | Some (_, s) => s
             | None => st0
             end).
  set (st1 := snd (recv 1024 sk)).
  assert (Hround : play_round st = (Raise StructError, st1)).
  { apply (Hshort st 19 18 (8, 3) st0 1%nat 21 sk
             (firstn 9 hit_packet) st1);
      try discriminate; try lia; vm_compute; reflexivity. }
  assert (Htry : handle_client_try late_short_session
                 = (Raise StructError, st1)).
  { unfold handle_client_try.
    rewrite (bind_ok _ _ late_short_session (request_bytes 2) st)
      by (vm_compute; reflexivity).
    rewrite (bind_ok _ _ st (Some (2, team_name_bytes)) st)
      by (vm_compute; reflexivity).
    exact (proj1 (Hloop 1%nat st StructError st1 Hround)). }
  rewrite (Hclose _ _ _ Htry). vm_compute. repeat split.
Defined.
